(** * A shallow embedding of the tensor engine (tensor.h) and of the
      autograd graph (graph.h) of the Neural-Network repository.

    Integers of the source ([int] sizes, indices, widths) are natural
    numbers here; the element type [T] of [Tensor<T>] is a parameter that
    carries the arithmetic the templates use.  Code that can read or write
    outside a buffer returns in an error monad. *)

From Stdlib Require Import ZArith QArith Qabs Reals Lra Lia.
From stdpp Require Import base option list strings gmap.

Set Default Proof Using "Type".

(** ** Results of fallible code *)

Inductive error : Type :=
| ShapeError    (* a shape descriptor refused its dimensions *)
| OutOfBounds   (* an access outside a buffer or an array *)
| DivByZero     (* an integer division by zero *)
| Dangling      (* a node pointer that names no node *)
| NoReturnValue (* the value of a call that ended without [return] was used *)
| OutOfFuel.    (* the recursion bound of the model was reached *)

Inductive result (A : Type) : Type :=
| Ok (a : A)
| Err (e : error).
Arguments Ok {A} a.
Arguments Err {A} e.

#[global] Instance result_ret : MRet result := fun A a => Ok a.
#[global] Instance result_bind : MBind result := fun A B f m =>
  match m with
  | Ok a => f a
  | Err e => Err e
  end.

Definition of_option {A} (o : option A) : result A :=
  match o with
  | Some a => Ok a
  | None => Err OutOfBounds
  end.

(** [for (int i = 0; i < n; i++) body(i)] over a threaded state. *)
Fixpoint for_loop {S : Type} (n : nat) (body : nat → S → result S) (s : S) : result S :=
  match n with
  | 0 => Ok s
  | S n' => s' ← for_loop n' body s; body n' s'
  end.

(** A range-based [for] over a vector, over a threaded state. *)
Fixpoint foldM {A B : Type} (f : A → B → result A) (l : list B) (a : A) : result A :=
  match l with
  | [] => Ok a
  | b :: l' => a' ← f a b; foldM f l' a'
  end.

(** ** The shape descriptor *)

(** Modelled from the spec: shape.h, which declares [Shape], is not among
    the sources.  The descriptor has rank 5. *)
Record Shape : Type := mkShape { d0 : nat; d1 : nat; d2 : nat; d3 : nat; d4 : nat }.

(** Modelled from the spec: the constructor of [Shape] from five sizes
    (shape.h is absent); each size must be at least 1, else ShapeError. *)
Definition Shape_new (a b c d e : nat) : result Shape :=
  if bool_decide (1 ≤ a ∧ 1 ≤ b ∧ 1 ≤ c ∧ 1 ≤ d ∧ 1 ≤ e)
  then Ok (mkShape a b c d e)
  else Err ShapeError.

(** Modelled from the spec: [Shape::operator[]] (shape.h is absent), the
    size of one axis; an axis outside 0..4 is outside the descriptor. *)
Definition Shape_get (s : Shape) (axis : nat) : result nat :=
  match axis with
  | 0 => Ok (d0 s) | 1 => Ok (d1 s) | 2 => Ok (d2 s) | 3 => Ok (d3 s) | 4 => Ok (d4 s)
  | _ => Err OutOfBounds
  end.

(** Modelled from the spec: [Shape::set(value, axis)] (shape.h is absent),
    the descriptor with one size replaced. *)
Definition Shape_set (s : Shape) (value axis : nat) : result Shape :=
  match axis with
  | 0 => Ok (mkShape value (d1 s) (d2 s) (d3 s) (d4 s))
  | 1 => Ok (mkShape (d0 s) value (d2 s) (d3 s) (d4 s))
  | 2 => Ok (mkShape (d0 s) (d1 s) value (d3 s) (d4 s))
  | 3 => Ok (mkShape (d0 s) (d1 s) (d2 s) value (d4 s))
  | 4 => Ok (mkShape (d0 s) (d1 s) (d2 s) (d3 s) value)
  | _ => Err OutOfBounds
  end.

(** Modelled from the spec: [Shape::size] (shape.h is absent), the product
    of the sizes. *)
Definition Shape_size (s : Shape) : nat := d0 s * d1 s * d2 s * d3 s * d4 s.

(** Modelled from the spec: [Shape::sub2ind] (shape.h is absent), the
    row-major linear index, the stride of axis 4 being 1. *)
Definition sub2ind (s : Shape) (i j k l m : nat) : nat :=
  (((i * d1 s + j) * d2 s + k) * d3 s + l) * d4 s + m.

#[global] Instance Shape_eq_dec : EqDecision Shape.
Proof. solve_decision. Defined.

(** A position lies inside a shape. *)
Definition in_shape (s : Shape) (i j k l m : nat) : Prop :=
  i < d0 s ∧ j < d1 s ∧ k < d2 s ∧ l < d3 s ∧ m < d4 s.

Definition shape_ok (s : Shape) : Prop :=
  1 ≤ d0 s ∧ 1 ≤ d1 s ∧ 1 ≤ d2 s ∧ 1 ≤ d3 s ∧ 1 ≤ d4 s.

(** The positions of a shape in the order the five nested loops of
    [foreach] visit them. *)
Definition Pos : Type := nat * nat * nat * nat * nat.

Definition indices (s : Shape) : list Pos :=
  flat_map (fun i =>
    flat_map (fun j =>
      flat_map (fun k =>
        flat_map (fun l =>
          map (fun m => (i, j, k, l, m)) (seq 0 (d4 s)))
        (seq 0 (d3 s)))
      (seq 0 (d2 s)))
    (seq 0 (d1 s)))
  (seq 0 (d0 s)).

Definition sub2ind_pos (s : Shape) (p : Pos) : nat :=
  let '(i, j, k, l, m) := p in sub2ind s i j k l m.

Definition in_shape_pos (s : Shape) (p : Pos) : Prop :=
  let '(i, j, k, l, m) := p in in_shape s i j k l m.

(** ** The element type *)

(** What the templates ask of [T]: the literals 0 and 1, the four
    operators, the comparisons and the conversion from [int]. *)
Class Scalar (T : Type) : Type := {
  zero : T;
  one : T;
  add : T → T → T;
  sub : T → T → T;
  mul : T → T → T;
  div : T → T → T;
  gtb : T → T → bool;
  ltb : T → T → bool;
  of_int : nat → T
}.

#[global] Instance Scalar_Z : Scalar Z := {|
  zero := 0%Z; one := 1%Z;
  add := Z.add; sub := Z.sub; mul := Z.mul; div := Z.quot;
  gtb := Z.gtb; ltb := Z.ltb; of_int := Z.of_nat
|}.

#[global] Instance Scalar_Q : Scalar Q := {|
  zero := 0%Q; one := 1%Q;
  add := Qplus; sub := Qminus; mul := Qmult; div := Qdiv;
  gtb := fun a b => negb (Qle_bool a b);
  ltb := fun a b => negb (Qle_bool b a);
  of_int := fun n => inject_Z (Z.of_nat n)
|}.

(** ** Tensors *)

Section Tensor.
Context {T : Type} `{Scalar T}.

Record Tensor : Type := mkTensor { shape : Shape; data : list T }.

(** [Tensor(Shape&)]: the buffer of [length()] cells is allocated and not
    initialised; the cells hold [zero] here, and every operation below
    writes a cell before it reads it. *)
Definition Tensor_new (s : Shape) : Tensor :=
  mkTensor s (replicate (Shape_size s) zero).

Definition length_ (t : Tensor) : nat := Shape_size (shape t).

Definition get (t : Tensor) (idx : nat) : result T := of_option (data t !! idx).

Definition at_ (t : Tensor) (i j k l m : nat) : result T :=
  get t (sub2ind (shape t) i j k l m).

Definition set_idx (t : Tensor) (value : T) (idx : nat) : result Tensor :=
  if bool_decide (idx < length (data t))
  then Ok (mkTensor (shape t) (<[idx := value]> (data t)))
  else Err OutOfBounds.

Definition set (t : Tensor) (value : T) (i j k l m : nat) : result Tensor :=
  set_idx t value (sub2ind (shape t) i j k l m).

(** [foreach]: the five nested loops, sample outermost, channel
    innermost.  The callback acts on a state [S] (what the lambda
    captures by reference). *)
Definition foreach {S : Type} (sh : Shape)
    (func : nat → nat → nat → nat → nat → S → result S) : S → result S :=
  for_loop (d0 sh) (fun n =>
    for_loop (d1 sh) (fun f =>
      for_loop (d2 sh) (fun w =>
        for_loop (d3 sh) (fun h =>
          for_loop (d4 sh) (fun c => func n f w h c))))).

(** [foreach_assign]: each position receives the callback's value. *)
Definition foreach_assign (out : Tensor)
    (func : nat → nat → nat → nat → nat → result T) : result Tensor :=
  foreach (shape out) (fun i j k l m o =>
    v ← func i j k l m; set_idx o v (sub2ind (shape o) i j k l m)) out.

(** [foreach_elem_assign]: [data[i] = func(i)] for [i < length()]. *)
Definition foreach_elem_assign (out : Tensor) (func : nat → result T) : result Tensor :=
  for_loop (length_ out) (fun i o => v ← func i; set_idx o v i) out.

Definition zeros (s : Shape) : result Tensor :=
  foreach_elem_assign (Tensor_new s) (fun _ => Ok zero).

Definition ones (s : Shape) : result Tensor :=
  foreach_elem_assign (Tensor_new s) (fun _ => Ok one).

(** [__foreach_elem_assign_]: a scalar function applied to every cell. *)
Definition __foreach_elem_assign_ (this : Tensor) (func : T → T) : result Tensor :=
  foreach_elem_assign (Tensor_new (shape this)) (fun i => x ← get this i; Ok (func x)).

(** [__foreach_assign_]: the binary elementwise operator.  [axis] is the
    first axis on which the two shapes differ, -1 ([None]) when there is
    none; the loop stops at the first hit. *)
Definition first_diff_axis (a b : Shape) : option nat :=
  if bool_decide (d0 a ≠ d0 b) then Some 0
  else if bool_decide (d1 a ≠ d1 b) then Some 1
  else if bool_decide (d2 a ≠ d2 b) then Some 2
  else if bool_decide (d3 a ≠ d3 b) then Some 3
  else if bool_decide (d4 a ≠ d4 b) then Some 4
  else None.

Definition __foreach_assign_ (this tensor : Tensor) (func : T → T → T) : result Tensor :=
  let m_shape := shape tensor in
  let out := Tensor_new m_shape in
  let both (x y : result T) : result T := a ← x; b ← y; Ok (func a b) in
  match first_diff_axis (shape this) m_shape with
  | Some 0 => foreach_assign out (fun s f i j c => both (at_ this s f i j c) (at_ tensor 0 f i j c))
  | Some 1 => foreach_assign out (fun s f i j c => both (at_ this s f i j c) (at_ tensor s 0 i j c))
  | Some 2 => foreach_assign out (fun s f i j c => both (at_ this s f i j c) (at_ tensor s f 0 j c))
  | Some 3 => foreach_assign out (fun s f i j c => both (at_ this s f i j c) (at_ tensor s f i 0 c))
  | Some 4 => foreach_assign out (fun s f i j c => both (at_ this s f i j c) (at_ tensor s f i j 0))
  | _ => foreach_assign out (fun s f i j c => both (at_ this s f i j c) (at_ tensor s f i j c))
  end.

Definition tensor_add (x y : Tensor) : result Tensor := __foreach_assign_ x y add.
Definition tensor_sub (x y : Tensor) : result Tensor := __foreach_assign_ x y sub.
Definition tensor_mul (x y : Tensor) : result Tensor := __foreach_assign_ x y mul.
Definition tensor_div (x y : Tensor) : result Tensor := __foreach_assign_ x y div.

(** The scalar operators. *)
Definition scalar_add (x : Tensor) (b : T) : result Tensor := __foreach_elem_assign_ x (fun a => add a b).
Definition scalar_sub (x : Tensor) (b : T) : result Tensor := __foreach_elem_assign_ x (fun a => sub a b).
Definition scalar_mul (x : Tensor) (b : T) : result Tensor := __foreach_elem_assign_ x (fun a => mul a b).
Definition scalar_div (x : Tensor) (b : T) : result Tensor := __foreach_elem_assign_ x (fun a => div a b).

(** [__pooling_]: non-overlapping [width] x [width] windows on the width
    and height axes.  The running value starts at the window's first
    cell and is then combined with every cell of the window. *)
Definition __pooling_ (this : Tensor) (width : nat) (func : T → T → T) : result Tensor :=
  if bool_decide (width = 0) then Err DivByZero else
  sh ← Shape_new (d0 (shape this)) (d1 (shape this))
                 (d2 (shape this) / width) (d3 (shape this) / width)
                 (d4 (shape this));
  out ← zeros sh;
  foreach_assign out (fun oi oj ok ol om =>
    value ← at_ this oi oj (ok * width) (ol * width) om;
    for_loop width (fun pk =>
      for_loop width (fun pl value =>
        curr ← at_ this oi oj (ok * width + pk) (ol * width + pl) om;
        Ok (func value curr))) value).

Definition max_pooling (this : Tensor) (width : nat) : result Tensor :=
  __pooling_ this width (fun a b => if gtb a b then a else b).

Definition min_pooling (this : Tensor) (width : nat) : result Tensor :=
  __pooling_ this width (fun a b => if ltb a b then a else b).

Definition avg_pooling (this : Tensor) (width : nat) : result Tensor :=
  out ← __pooling_ this width (fun a b => add a b);
  let area := of_int (width * width) in
  scalar_div out area.

(** [permute]: [order] is a C array; reading it or writing [subs] outside
    the five cells is an error. *)
Definition array_get (a : list nat) (i : nat) : result nat := of_option (a !! i).

Definition array_set (a : list nat) (i v : nat) : result (list nat) :=
  if bool_decide (i < length a) then Ok (<[i := v]> a) else Err OutOfBounds.

Definition permute (this : Tensor) (order : list nat) : result Tensor :=
  o0 ← array_get order 0; o1 ← array_get order 1; o2 ← array_get order 2;
  o3 ← array_get order 3; o4 ← array_get order 4;
  s0 ← Shape_get (shape this) o0; s1 ← Shape_get (shape this) o1;
  s2 ← Shape_get (shape this) o2; s3 ← Shape_get (shape this) o3;
  s4 ← Shape_get (shape this) o4;
  shape_out ← Shape_new s0 s1 s2 s3 s4;
  out ← zeros shape_out;
  foreach_assign out (fun i j k l m =>
    subs ← array_set [0; 0; 0; 0; 0] o0 i;
    subs ← array_set subs o1 j;
    subs ← array_set subs o2 k;
    subs ← array_set subs o3 l;
    subs ← array_set subs o4 m;
    a ← array_get subs 0; b ← array_get subs 1; c ← array_get subs 2;
    d ← array_get subs 3; e ← array_get subs 4;
    at_ this a b c d e).

(** [reduce_sum]: one loop per axis, each adding the cell of [this] into
    the cell of [out] with index 0 on the reduced axis.  The arm of
    [case 0] has no [break], so control runs on into the arm of
    [case 1]. *)
Definition reduce_step (this : Tensor) (axis : nat) (i j k l m : nat) (out : Tensor)
    : result Tensor :=
  let '(oi, oj, ok, ol, om) :=
    match axis with
    | 0 => (0, j, k, l, m)
    | 1 => (i, 0, k, l, m)
    | 2 => (i, j, 0, l, m)
    | 3 => (i, j, k, 0, m)
    | _ => (i, j, k, l, 0)
    end in
  a ← at_ out oi oj ok ol om;
  b ← at_ this i j k l m;
  set out (add a b) oi oj ok ol om.

Definition reduce_sum (this : Tensor) (axis : nat) : result Tensor :=
  shape_out ← Shape_set (shape this) 1 axis;
  out ← zeros shape_out;
  match axis with
  | 0 =>
      out ← foreach (shape this) (reduce_step this 0) out;
      foreach (shape this) (reduce_step this 1) out
  | 1 => foreach (shape this) (reduce_step this 1) out
  | 2 => foreach (shape this) (reduce_step this 2) out
  | 3 => foreach (shape this) (reduce_step this 3) out
  | 4 => foreach (shape this) (reduce_step this 4) out
  | _ => Ok out
  end.

Definition reduce_mean (this : Tensor) (axis : nat) : result Tensor :=
  out ← reduce_sum this axis;
  N ← Shape_get (shape this) axis;
  scalar_div out (of_int N).

End Tensor.
Arguments Tensor T : clear implicits.

(** [operator==], with the rationals as element type so that [fabs] and
    the literal [10e-6] are exact. *)
Definition tolerance : Q := 10 * (1 # 1000000).

Definition tensor_eq (this a : Tensor Q) : result bool :=
  for_loop (length_ this) (fun i result =>
    x ← get this i;
    y ← get a i;
    if negb (Qle_bool (Qabs (x - y)) tolerance) then Ok false else Ok result) true.

(** [__sigmoid_] and [sigmoid], with the reals as element type. *)
#[global] Instance Scalar_R : Scalar R := {|
  zero := 0%R; one := 1%R;
  add := Rplus; sub := Rminus; mul := Rmult; div := Rdiv;
  gtb := fun a b => if Rgt_dec a b then true else false;
  ltb := fun a b => if Rlt_dec a b then true else false;
  of_int := INR
|}.

Definition __sigmoid_ (x : R) : R := (1 / (1 + exp x))%R.

Definition sigmoid (this : Tensor R) : result (Tensor R) :=
  __foreach_elem_assign_ this __sigmoid_.

(** ** The autograd graph (graph.h) *)

Inductive NodeType : Type := VARIABLE | PLACEHOLDER | OPERATION.

#[global] Instance NodeType_eq_dec : EqDecision NodeType.
Proof. solve_decision. Defined.

(** The concrete operation classes, with their constructor arguments. *)
Inductive OpKind : Type :=
| Add
| MatMul
| Conv2D (width padding stride n_filters : nat)
| Conv3D (width padding stride n_filters : nat)
| MaxPooling (width : nat)
| MinPooling (width : nat)
| AvgPooling (width : nat)
| Reshape (output_shape : Shape)
| Flatten
| FullConnected (n_outputs : nat)
| Sigmoid
| ReLU
| LeakyReLU (max_value threshold negative_slop : Q)
| Softmax
| MSE
| CrossEntrpy.

(** The tensor kernels the graph calls.  The graph code is generic in
    them: its own control flow never looks inside a tensor.  [kernel] is
    the tensor expression an override of [compute] returns, applied to the
    inputs the override has read; like the tensor code itself it can end
    in an error. *)
Class TensorOps (Tensor : Type) : Type := {
  tensor_default : Tensor;                       (* [Tensor()] *)
  tensor_random : Shape → Tensor;                (* [Tensor<T>::random(shape)] *)
  tensor_zeros : Tensor;                         (* [Tensor<T>::zeros()] *)
  tensor_plus : Tensor → Tensor → Tensor;        (* [operator+] of [accumulate] *)
  tensor_minus : Tensor → Tensor → Tensor;       (* [operator-] *)
  accumulate_init : Tensor;                      (* the start value that [Node::backward] names [value] *)
  kernel : OpKind → list Tensor → result Tensor; (* the [return] expression of a [compute] *)
  conv_delta : nat → nat → Tensor → Tensor → Tensor;
    (* [grad.padding(width).conv2d(filter.rotate180(), stride)] from width, stride, grad, filter *)
  grad_relu : Tensor → Tensor;                   (* [ops::grad_relu(x)] *)
  grad_leaky_relu : Tensor → Q → Q → Q → Tensor  (* [ops::grad_relu(x, max_value, threshold, negative_slop)] *)
}.

Section Graph.
Context {Tensor : Type} `{TensorOps Tensor}.

(** A node pointer is the node's index in the heap, in allocation
    order. *)
Inductive NodeClass : Type :=
| CVariable (name : string) (value grad : Tensor) (require_grad : bool)
| CPlaceholder (shape : Shape)
| COperation (kind : OpKind) (input_nodes : list nat).

Record Node : Type := mkNode {
  output : Tensor;
  consumers : list nat;
  cls : NodeClass
}.

Definition getNodeType (n : Node) : NodeType :=
  match cls n with
  | CVariable _ _ _ _ => VARIABLE
  | CPlaceholder _ => PLACEHOLDER
  | COperation _ _ => OPERATION
  end.

Definition input_nodes_of (n : Node) : list nat :=
  match cls n with
  | COperation _ inputs => inputs
  | _ => []
  end.

Definition setOutput (n : Node) (o : Tensor) : Node :=
  mkNode o (consumers n) (cls n).

Definition lookup_node (heap : list Node) (p : nat) : result Node :=
  match heap !! p with
  | Some n => Ok n
  | None => Err Dangling
  end.

(** *** Construction *)

Definition new_Placeholder (heap : list Node) (sh : Shape) : nat * list Node :=
  (length heap, heap ++ [mkNode tensor_default [] (CPlaceholder sh)]).

Definition new_Variable (heap : list Node) (name : string) (sh : Shape) (require_grad : bool)
    : nat * list Node :=
  (length heap,
   heap ++ [mkNode tensor_default [] (CVariable name (tensor_random sh) tensor_zeros require_grad)]).

(** [consumers.push_back(this)] on one input node. *)
Definition add_consumer (this : nat) (heap : list Node) (input : nat) : result (list Node) :=
  n ← lookup_node heap input;
  Ok (<[input := mkNode (output n) (consumers n ++ [this]) (cls n)]> heap).

Definition new_Operation (heap : list Node) (kind : OpKind) (inputs : list nat)
    : result (nat * list Node) :=
  let this := length heap in
  let heap := heap ++ [mkNode tensor_default [] (COperation kind inputs)] in
  heap ← foldM (add_consumer this) inputs heap;
  Ok (this, heap).

(** [getInputValues]: the cached outputs of the input nodes. *)
Definition getInputValues (heap : list Node) (inputs : list nat) : result (list Tensor) :=
  foldM (fun acc p => n ← lookup_node heap p; Ok (acc ++ [output n])) inputs [].

(** [inputs[i]] on the vector of input values. *)
Definition input_value (vals : list Tensor) (i : nat) : result Tensor :=
  of_option (vals !! i).

(** The virtual [compute]: every override first reads the inputs it
    names ([inputs[0]], and [inputs[1]], [inputs[2]] where it has them)
    and then returns a tensor expression of them.  (Reshape and Flatten
    also keep the input's shape in a member that nothing reads.) *)
Definition compute (kind : OpKind) (inputs : list Tensor) : result Tensor :=
  match kind with
  | Add | MatMul | MSE | CrossEntrpy =>
      x ← input_value inputs 0;
      y ← input_value inputs 1;
      kernel kind [x; y]
  | Conv2D _ _ _ _ | Conv3D _ _ _ _ | FullConnected _ =>
      x ← input_value inputs 0;
      w ← input_value inputs 1;
      b ← input_value inputs 2;
      kernel kind [x; w; b]
  | MaxPooling _ | MinPooling _ | AvgPooling _ | Reshape _ | Flatten
  | Sigmoid | ReLU | LeakyReLU _ _ _ | Softmax =>
      x ← input_value inputs 0;
      kernel kind [x]
  end.

(** *** Graph::collect *)

Record Graph : Type := mkGraph {
  placeholders : list nat;
  variables : list nat;
  operations : list nat
}.

Definition Graph_empty : Graph := mkGraph [] [] [].

Fixpoint collect (fuel : nat) (heap : list Node) (g : Graph) (root : nat) : result Graph :=
  match fuel with
  | 0 => Err OutOfFuel
  | S fuel =>
      n ← lookup_node heap root;
      let g :=
        if decide (getNodeType n = PLACEHOLDER)
        then mkGraph (placeholders g ++ [root]) (variables g) (operations g) else g in
      let g :=
        if decide (getNodeType n = VARIABLE)
        then mkGraph (placeholders g) (variables g ++ [root]) (operations g) else g in
      if decide (getNodeType n = OPERATION)
      then
        g ← foldM (collect fuel heap) (input_nodes_of n) g;
        Ok (mkGraph (placeholders g) (variables g) (operations g ++ [root]))
      else Ok g
  end.

(** *** Session *)

Record Session : Type := mkSession { graph : Graph }.

(** [Session(Node<T>* operation)].  A pointer below [length heap] is
    reached within [length heap] nested calls in a heap whose operations
    only have earlier nodes as inputs. *)
Definition Session_new (heap : list Node) (operation : nat) : result Session :=
  g ← collect (length heap) heap Graph_empty operation;
  Ok (mkSession g).

(** One turn of the loop of [Session::run].  [feed_dict[p]] is
    [std::map::operator[]]: a missing key is inserted with a default
    tensor. *)
Definition run_node (st : list Node * gmap nat Tensor) (p : nat)
    : result (list Node * gmap nat Tensor) :=
  let '(heap, feed_dict) := st in
  node ← lookup_node heap p;
  match cls node with
  | CPlaceholder _ =>
      let '(t, feed_dict) :=
        match feed_dict !! p with
        | Some t => (t, feed_dict)
        | None => (tensor_default, <[p := tensor_default]> feed_dict)
        end in
      Ok (<[p := setOutput node t]> heap, feed_dict)
  | CVariable _ value _ _ =>
      Ok (<[p := setOutput node value]> heap, feed_dict)
  | COperation kind inputs =>
      vals ← getInputValues heap inputs;
      out ← compute kind vals;
      Ok (<[p := setOutput node out]> heap, feed_dict)
  end.

Definition run (s : Session) (heap : list Node) (feed_dict : gmap nat Tensor)
    : result (list Node * gmap nat Tensor) :=
  let operations := operations (graph s) in
  foldM run_node operations (heap, feed_dict).

(** *** backward *)

(** The state of a backward pass: the heap, and the list of the nodes
    whose [backward] was entered, in call order. *)
Definition bstate : Type := list Node * list nat.

(** What a call of [backward] hands back: [None] when the call ended
    without a [return].  A caller that uses the value of such a call
    stops. *)
Definition returned (delta : option Tensor) : result Tensor :=
  match delta with
  | Some d => Ok d
  | None => Err NoReturnValue
  end.

(** [Node<T>::backward], given the dispatch [self] of the virtual call
    [consumer->backward()]. *)
Definition Node_backward (self : nat → bstate → result (option Tensor * bstate))
    (n : Node) (st : bstate) : result (Tensor * bstate) :=
  '(deltas, st) ← foldM (fun '(deltas, st) consumer =>
                           '(delta, st) ← self consumer st;
                           delta ← returned delta;
                           Ok (deltas ++ [delta], st))
                        (consumers n) ([], st);
  Ok (fold_left tensor_plus deltas accumulate_init, st).

(** The virtual [backward]: the override of the node's class.
    [Variable::backward] assigns [grad] and has no [return]. *)
Fixpoint backward (fuel : nat) (this : nat) (st : bstate) : result (option Tensor * bstate) :=
  match fuel with
  | 0 => Err OutOfFuel
  | S fuel =>
      n ← lookup_node st.1 this;
      let st := (st.1, st.2 ++ [this]) in
      match cls n with
      | CVariable name value _ require_grad =>
          '(grad, (heap, log)) ← Node_backward (backward fuel) n st;
          n' ← lookup_node heap this;
          Ok (None, (<[this := mkNode (output n') (consumers n')
                                 (CVariable name value grad require_grad)]> heap, log))
      | CPlaceholder _ =>
          '(delta, st) ← Node_backward (backward fuel) n st;
          Ok (Some delta, st)
      | COperation kind inputs =>
          match kind with
          | Conv2D width _ stride _ | Conv3D width _ stride _ =>
              '(grad, st) ← Node_backward (backward fuel) n st;
              vals ← getInputValues st.1 inputs;
              x ← input_value vals 0;
              filter ← input_value vals 1;
              bias ← input_value vals 2;
              Ok (Some (conv_delta width stride grad filter), st)
          | ReLU =>
              '(_, st) ← Node_backward (backward fuel) n st;
              vals ← getInputValues st.1 inputs;
              x ← input_value vals 0;
              Ok (Some (grad_relu x), st)
          | LeakyReLU max_value threshold negative_slop =>
              vals ← getInputValues st.1 inputs;
              x ← input_value vals 0;
              Ok (Some (grad_leaky_relu x max_value threshold negative_slop), st)
          | MSE | CrossEntrpy =>
              vals ← getInputValues st.1 inputs;
              a ← input_value vals 0;
              b ← input_value vals 1;
              Ok (Some (tensor_minus a b), st)
          | _ =>
              '(delta, st) ← Node_backward (backward fuel) n st;
              Ok (Some delta, st)
          end
      end
  end.

End Graph.
Arguments Node Tensor : clear implicits.
Arguments NodeClass Tensor : clear implicits.

(** ** Symbolic tensors *)

(** The free instance of the kernels: a tensor is the expression that
    produced it.  Concrete graphs are run on it, so that what a node caches
    shows which kernels were applied to which values. *)
#[warnings="-register-all"]
Inductive sym : Type :=
| SDefault
| SRandom (sh : Shape)
| SZeros
| SInit
| SFed (name : nat)
| SPlus (a b : sym)
| SMinus (a b : sym)
| SCompute (kind : OpKind) (args : list sym)
| SConvDelta (width stride : nat) (grad filter : sym)
| SGradRelu (x : sym)
| SGradLeakyRelu (x : sym) (max_value threshold negative_slop : Q).

#[global] Instance TensorOps_sym : TensorOps sym := {|
  tensor_default := SDefault;
  tensor_random := SRandom;
  tensor_zeros := SZeros;
  tensor_plus := SPlus;
  tensor_minus := SMinus;
  accumulate_init := SInit;
  kernel := fun kind args => Ok (SCompute kind args);
  conv_delta := SConvDelta;
  grad_relu := SGradRelu;
  grad_leaky_relu := SGradLeakyRelu
|}.

(** The diamond: a placeholder [X] consumed by [A = Sigmoid(X)] and
    [B = Softmax(X)], both consumed by [S = Add(A, B)]. *)
Definition diamond_graph : result (list (Node sym)) :=
  let '(x, heap) := new_Placeholder [] (mkShape 1 1 1 1 1) in
  '(a, heap) ← new_Operation heap Sigmoid [x];
  '(b, heap) ← new_Operation heap Softmax [x];
  '(s, heap) ← new_Operation heap Add [a; b];
  Ok heap.

Definition diamond_heap : list (Node sym) :=
  [ mkNode SDefault [1; 2] (CPlaceholder (mkShape 1 1 1 1 1));
    mkNode SDefault [3] (COperation Sigmoid [0]);
    mkNode SDefault [3] (COperation Softmax [0]);
    mkNode SDefault [] (COperation Add [1; 2]) ].

(** A placeholder and a variable under one [Add]. *)
Definition affine : result (list (Node sym)) :=
  let '(x, heap) := new_Placeholder [] (mkShape 1 1 1 1 1) in
  let '(w, heap) := new_Variable heap "w" (mkShape 1 1 1 1 1) true in
  '(s, heap) ← new_Operation heap Add [x; w];
  Ok heap.

Definition affine_heap : list (Node sym) :=
  [ mkNode SDefault [2] (CPlaceholder (mkShape 1 1 1 1 1));
    mkNode SDefault [2] (CVariable "w" (SRandom (mkShape 1 1 1 1 1)) SZeros true);
    mkNode SDefault [] (COperation Add [0; 1]) ].

(** A convolution as its constructor builds it: the placeholder is its
    only input. *)
Definition conv_graph : result (list (Node sym)) :=
  let '(x, heap) := new_Placeholder [] (mkShape 1 1 4 4 1) in
  '(c, heap) ← new_Operation heap (Conv2D 3 0 1 1) [x];
  Ok heap.

Definition conv_heap : list (Node sym) :=
  [ mkNode SDefault [1] (CPlaceholder (mkShape 1 1 4 4 1));
    mkNode SDefault [] (COperation (Conv2D 3 0 1 1) [0]) ].

(** A chain: a placeholder [X], [L = LeakyReLU(X)] and [S = Sigmoid(L)]. *)
Definition chain_graph : result (list (Node sym)) :=
  let '(x, heap) := new_Placeholder [] (mkShape 1 1 1 1 1) in
  '(l, heap) ← new_Operation heap (LeakyReLU 6 0 (1 # 10)) [x];
  '(s, heap) ← new_Operation heap Sigmoid [l];
  Ok heap.

Definition chain_heap : list (Node sym) :=
  [ mkNode SDefault [1] (CPlaceholder (mkShape 1 1 1 1 1));
    mkNode SDefault [2] (COperation (LeakyReLU 6 0 (1 # 10)) [0]);
    mkNode SDefault [] (COperation Sigmoid [1]) ].

(** ** Notions used in the statements *)

(** *** Tensors *)

Section TensorNotions.
Context {T : Type} `{Scalar T}.

(** The buffer has one cell per position of the shape. *)
Definition tensor_ok (t : Tensor T) : Prop := length (data t) = Shape_size (shape t).

(** A tensor as the constructors leave it: a shape that [Shape_new]
    accepts, and one cell per position. *)
Definition tensor_wf (t : Tensor T) : Prop := shape_ok (shape t) ∧ tensor_ok t.

(** The value of a read, [zero] standing for a read that fails. *)
Definition or_zero (r : result T) : T :=
  match r with Ok x => x | Err _ => zero end.

Definition at_or_zero (t : Tensor T) (i j k l m : nat) : T :=
  match at_ t i j k l m with Ok x => x | Err _ => zero end.

Definition at_pos (t : Tensor T) (p : Pos) : T :=
  let '(i, j, k, l, m) := p in at_or_zero t i j k l m.

End TensorNotions.

(** The place of [v] in [l]. *)
Fixpoint index_of (v : nat) (l : list nat) : nat :=
  match l with
  | [] => 0
  | x :: l' => if decide (x = v) then 0 else S (index_of v l')
  end.

(** The inverse of an order: cell [v] holds the place of [v] in [order]. *)
Definition inverse (order : list nat) : list nat :=
  map (fun v => index_of v order) (seq 0 5).

(** An order is a bijection on 0..4. *)
Definition is_order (order : list nat) : Prop := order ≡ₚ [0; 1; 2; 3; 4].

(** How many axes two shapes differ on. *)
Definition diff_axes (a b : Shape) : nat :=
  (if decide (d0 a = d0 b) then 0 else 1) + (if decide (d1 a = d1 b) then 0 else 1)
  + (if decide (d2 a = d2 b) then 0 else 1) + (if decide (d3 a = d3 b) then 0 else 1)
  + (if decide (d4 a = d4 b) then 0 else 1).

(** A result that is not the refusal of a shape. *)
Definition no_ShapeError {A} (r : result A) : Prop := r ≠ Err ShapeError.

(** Cell by cell, two buffers differ by at most [eps]. *)
Definition within (eps : Q) (a b : Tensor Q) : Prop :=
  ∀ i x y, data a !! i = Some x → data b !! i = Some y → (Qabs (x - y) <= eps)%Q.

(** The logistic function. *)
Definition logistic (z : R) : R := (1 / (1 + exp (- z)))%R.

(** The position of the output that [reduce_sum] adds a position of the
    input into. *)
Definition collapse (axis : nat) (p : Pos) : Pos :=
  let '(i, j, k, l, m) := p in
  match axis with
  | 0 => (0, j, k, l, m)
  | 1 => (i, 0, k, l, m)
  | 2 => (i, j, 0, l, m)
  | 3 => (i, j, k, 0, m)
  | _ => (i, j, k, l, 0)
  end.

(** The positions of a shape that collapse to [q], in visiting order: the
    cells along the axis at [q]. *)
Definition along (axis : nat) (sh : Shape) (q : Pos) : list Pos :=
  filter (fun p => collapse axis p = q) (indices sh).

(** The cells of the window of an output position, in the order the two
    inner loops of [__pooling_] read them, and the window's first cell. *)
Definition window (width : nat) (q : Pos) : list Pos :=
  let '(oi, oj, ok, ol, om) := q in
  flat_map (fun pk => map (fun pl => (oi, oj, ok * width + pk, ol * width + pl, om))
                          (seq 0 width))
           (seq 0 width).

Definition window_origin (width : nat) (q : Pos) : Pos :=
  let '(oi, oj, ok, ol, om) := q in (oi, oj, ok * width, ol * width, om).

Definition pooled_shape (sh : Shape) (width : nat) : Shape :=
  mkShape (d0 sh) (d1 sh) (d2 sh / width) (d3 sh / width) (d4 sh).

(** [v] is the greatest element of [l]. *)
Definition is_max (l : list Z) (v : Z) : Prop := v ∈ l ∧ ∀ x, x ∈ l → (x <= v)%Z.

(** *** Graphs *)

(** The number of edge paths from [x] to [q], for the edges [succ]. *)
Fixpoint npaths (succ : nat → list nat) (fuel : nat) (x q : nat) : nat :=
  match fuel with
  | 0 => 0
  | S fuel =>
      (if decide (x = q) then 1 else 0)
      + sum_list (map (fun y => npaths succ fuel y q) (succ x))
  end.

(** The operation classes whose [backward] does not call
    [Node<T>::backward]. *)
Definition stops_backward (kind : OpKind) : bool :=
  match kind with
  | LeakyReLU _ _ _ | MSE | CrossEntrpy => true
  | _ => false
  end.

(** The operation classes that inherit [Node<T>::backward] unchanged. *)
Definition inherits_backward (kind : OpKind) : bool :=
  match kind with
  | Conv2D _ _ _ _ | Conv3D _ _ _ _ | ReLU | LeakyReLU _ _ _ | MSE | CrossEntrpy => false
  | _ => true
  end.

(** The input values an override of [backward] indexes. *)
Definition inputs_needed (kind : OpKind) : nat :=
  match kind with
  | Conv2D _ _ _ _ | Conv3D _ _ _ _ => 3
  | ReLU | LeakyReLU _ _ _ => 1
  | MSE | CrossEntrpy => 2
  | _ => 0
  end.

(** The input values an override of [compute] indexes. *)
Definition inputs_read (kind : OpKind) : nat :=
  match kind with
  | Add | MatMul | MSE | CrossEntrpy => 2
  | Conv2D _ _ _ _ | Conv3D _ _ _ _ | FullConnected _ => 3
  | _ => 1
  end.

Section GraphNotions.
Context {Tensor : Type} `{TensorOps Tensor}.

(** Heaps as the constructors leave them: the inputs of a node were
    allocated before it, its consumers after it, and consumers are
    operations. *)
Definition heap_wf (heap : list (Node Tensor)) : Prop :=
  ∀ p n, heap !! p = Some n →
    (∀ q, q ∈ input_nodes_of n → q < p) ∧
    (∀ c, c ∈ consumers n →
       p < c ∧ ∃ nc, heap !! c = Some nc ∧ getNodeType nc = OPERATION).

Definition inputs_at (heap : list (Node Tensor)) (p : nat) : list nat :=
  match heap !! p with
  | Some n => input_nodes_of n
  | None => []
  end.

Definition type_at (heap : list (Node Tensor)) (p : nat) : option NodeType :=
  getNodeType <$> heap !! p.

(** [q] is reachable from [p] along input edges. *)
Inductive reach (heap : list (Node Tensor)) : nat → nat → Prop :=
| reach_refl p : p < length heap → reach heap p p
| reach_step p q r : q ∈ inputs_at heap p → reach heap q r → reach heap p r.

Definition Graph_app (g c : Graph) : Graph :=
  mkGraph (placeholders g ++ placeholders c) (variables g ++ variables c)
          (operations g ++ operations c).

Definition collection_of (g : Graph) (ty : NodeType) : list nat :=
  match ty with
  | PLACEHOLDER => placeholders g
  | VARIABLE => variables g
  | OPERATION => operations g
  end.

(** How often a node occurs in the three collections. *)
Definition occurrences (g : Graph) (q : nat) : nat :=
  count_occ Nat.eq_dec (placeholders g) q + count_occ Nat.eq_dec (variables g) q
  + count_occ Nat.eq_dec (operations g) q.

(** Every occurrence of an operation comes after an occurrence of each
    operation among its inputs. *)
Definition inputs_first (heap : list (Node Tensor)) (ops : list nat) : Prop :=
  ∀ i o q, ops !! i = Some o → q ∈ inputs_at heap o → type_at heap q = Some OPERATION →
    ∃ j, j < i ∧ ops !! j = Some q.

(** What [collect] adds to the graph for a list of roots. *)
Record collected (heap : list (Node Tensor)) (fuel : nat) (roots : list nat) (c : Graph) : Prop := {
  col_in : ∀ r q, r ∈ roots → reach heap r q → ∃ ty, type_at heap q = Some ty ∧ q ∈ collection_of c ty;
  col_only : ∀ ty q, q ∈ collection_of c ty →
               type_at heap q = Some ty ∧ ∃ r, r ∈ roots ∧ reach heap r q;
  col_order : inputs_first heap (operations c);
  col_count : ∀ q, occurrences c q = sum_list (map (fun r => npaths (inputs_at heap) fuel r q) roots)
}.

(** Two heaps with the same nodes up to their cached outputs. *)
Definition same_graph (h1 h2 : list (Node Tensor)) : Prop :=
  length h1 = length h2 ∧
  ∀ p n1, h1 !! p = Some n1 →
    ∃ n2, h2 !! p = Some n2 ∧ cls n2 = cls n1 ∧ consumers n2 = consumers n1.

(** The consumers a call of [backward] on [p] calls in turn. *)
Definition consumers_at (heap : list (Node Tensor)) (p : nat) : list nat :=
  match heap !! p with
  | Some n =>
      match cls n with
      | COperation kind _ => if stops_backward kind then [] else consumers n
      | _ => consumers n
      end
  | None => []
  end.

(** Every operation has the inputs its [backward] indexes. *)
Definition arity_ok (heap : list (Node Tensor)) : Prop :=
  ∀ p n kind inputs, heap !! p = Some n → cls n = COperation kind inputs →
    inputs_needed kind ≤ length inputs.

(** The node returns the accumulated deltas of its consumers as they
    are: a placeholder, or an operation that inherits [Node<T>::backward].
    A variable stores them and returns nothing. *)
Definition plain_backward (n : Node Tensor) : bool :=
  match cls n with
  | CVariable _ _ _ _ => false
  | CPlaceholder _ => true
  | COperation kind _ => inherits_backward kind
  end.

(** The call of [backward] on [c] returns [d] and leaves the heap as it
    is. *)
Definition returns (heap : list (Node Tensor)) (c : nat) (d : Tensor) : Prop :=
  ∃ fuel trace, ∀ log, backward fuel c (heap, log) = Ok (Some d, (heap, log ++ trace)).

(** What a call on [c] with [fuel] does without touching the heap. *)
Definition pure_call (heap : list (Node Tensor)) (fuel c : nat) : Prop :=
  ∃ d trace,
    (∀ log, backward fuel c (heap, log) = Ok (Some d, (heap, log ++ trace))) ∧
    (∀ q, count_occ Nat.eq_dec trace q = npaths (consumers_at heap) fuel c q) ∧
    (∀ n, heap !! c = Some n → plain_backward n = true →
       ∃ deltas, Forall2 (returns heap) (consumers n) deltas ∧
                 d = fold_left tensor_plus deltas accumulate_init).

(** Every operation has the inputs its [compute] indexes. *)
Definition compute_ready (heap : list (Node Tensor)) : Prop :=
  ∀ p n kind inputs, heap !! p = Some n → cls n = COperation kind inputs →
    inputs_read kind ≤ length inputs.

(** The tensor kernels behind [compute] succeed on all their arguments. *)
Definition kernels_succeed : Prop :=
  ∀ kind args, ∃ out, kernel kind args = Ok out.

(** [heap_wf] and [arity_ok] as computable checks. *)
Definition node_wfb (heap : list (Node Tensor)) (p : nat) : bool :=
  match heap !! p with
  | Some n =>
      forallb (fun q => q <? p) (input_nodes_of n) &&
      forallb (fun c => (p <? c) &&
                 match heap !! c with
                 | Some nc => bool_decide (getNodeType nc = OPERATION)
                 | None => false
                 end) (consumers n)
  | None => true
  end.

Definition heap_wfb (heap : list (Node Tensor)) : bool :=
  forallb (node_wfb heap) (seq 0 (length heap)).

Definition node_arityb (n : Node Tensor) : bool :=
  match cls n with
  | COperation kind inputs => inputs_needed kind <=? length inputs
  | _ => true
  end.

Definition arity_okb (heap : list (Node Tensor)) : bool := forallb node_arityb heap.

Definition node_readyb (n : Node Tensor) : bool :=
  match cls n with
  | COperation kind inputs => inputs_read kind <=? length inputs
  | _ => true
  end.

Definition compute_readyb (heap : list (Node Tensor)) : bool := forallb node_readyb heap.

End GraphNotions.

(** ** Further operations of tensor.h *)

(** Modelled from the spec: [Shape::sub2ind] (shape.h is absent) on
    [int] indices, for the calls whose indices are differences. *)
Definition sub2ind_int (s : Shape) (i j k l m : Z) : Z :=
  (((((i * Z.of_nat (d1 s) + j) * Z.of_nat (d2 s) + k) * Z.of_nat (d3 s) + l)
    * Z.of_nat (d4 s)) + m)%Z.

Section TensorMore.
Context {T : Type} `{Scalar T}.

(** [Tensor(int f, int w, int h, int c, int m)]: the shape is built from
    the five sizes and the buffer allocated. *)
Definition Tensor_of_sizes (f w h c m : nat) : result (Tensor T) :=
  s ← Shape_new f w h c m; Ok (Tensor_new s).

(** [Tensor(Tensor<T>&)]: the copy constructor. *)
Definition Tensor_copy (tensor : Tensor T) : result (Tensor T) :=
  foreach_assign (Tensor_new (shape tensor)) (fun n f w h c => at_ tensor n f w h c).

(** [at] with [int] indices that may be negative. *)
Definition at_int (t : Tensor T) (i j k l m : Z) : result T :=
  let idx := sub2ind_int (shape t) i j k l m in
  if (idx <? 0)%Z then Err OutOfBounds else get t (Z.to_nat idx).

(** [matmul]: the inner loop runs over [shape[3]] and reads the right
    operand at sample, frame and column 0. *)
Definition matmul (this tensor : Tensor T) : result (Tensor T) :=
  let shape_b := shape tensor in
  let n_cols := d3 (shape this) in
  out ← Tensor_of_sizes (d0 (shape this)) (d1 (shape this)) (d2 (shape this))
                        (d3 (shape this)) (d4 shape_b);
  foreach_assign out (fun oi oj ok ol om =>
    for_loop n_cols (fun k value =>
      a ← at_ this oi oj ok ol k;
      b ← at_ tensor 0 0 0 k om;
      Ok (add value (mul a b))) zero).

(** [Transpose]: the last two axes change places (the shape is also
    printed, which the model leaves out). *)
Definition Transpose (this : Tensor T) : result (Tensor T) :=
  output_shape ← Shape_new (d0 (shape this)) (d1 (shape this)) (d2 (shape this))
                           (d4 (shape this)) (d3 (shape this));
  foreach_assign (Tensor_new output_shape) (fun i j k l m => at_ this i j k m l).

(** [reshape(Shape&)]: every cell of the output is read from the buffer
    at its own linear index. *)
Definition reshape (this : Tensor T) (shape_out : Shape) : result (Tensor T) :=
  out ← zeros shape_out;
  foreach_assign out (fun i j k l m => get this (sub2ind shape_out i j k l m)).

(** [reshape(int size[])] *)
Definition reshape_sizes (this : Tensor T) (a b c d e : nat) : result (Tensor T) :=
  shape_out ← Shape_new a b c d e; reshape this shape_out.

(** [find_min] and [find_max]: the running value starts at [data[0]]. *)
Definition find_min (this : Tensor T) : result T :=
  value ← get this 0;
  for_loop (length_ this) (fun i value =>
    x ← get this i; Ok (if ltb x value then x else value)) value.

Definition find_max (this : Tensor T) : result T :=
  value ← get this 0;
  for_loop (length_ this) (fun i value =>
    x ← get this i; Ok (if gtb x value then x else value)) value.

(** [rotate180]: width and height change places in the shape and the
    cell is read at [shape[3] - il - 1], [shape[2] - ik - 1]. *)
Definition rotate180 (this : Tensor T) : result (Tensor T) :=
  sh ← Shape_new (d0 (shape this)) (d1 (shape this)) (d3 (shape this))
                 (d2 (shape this)) (d4 (shape this));
  out ← zeros sh;
  foreach_assign out (fun ii ij ik il im =>
    at_int this (Z.of_nat ii) (Z.of_nat ij)
      (Z.of_nat (d3 (shape this)) - Z.of_nat il - 1)
      (Z.of_nat (d2 (shape this)) - Z.of_nat ik - 1)
      (Z.of_nat im)).

(** [padding]: a zero tensor, larger by [width] on each side of width
    and height, receives the cells of [this]. *)
Definition padding (this : Tensor T) (width : nat) : result (Tensor T) :=
  sh ← Shape_new (d0 (shape this)) (d1 (shape this))
                 (d2 (shape this) + width * 2) (d3 (shape this) + width * 2)
                 (d4 (shape this));
  out ← zeros sh;
  foreach (shape this) (fun ii ij ik il im out =>
    value ← at_ this ii ij ik il im;
    set out value ii ij (ik + width) (il + width) im) out.

(** [clipping]: the margin is cut from each side of width and height.
    The sizes are [int] differences; one that is not positive is refused
    by the shape, which is where the difference on [nat] ends as well. *)
Definition clipping (this : Tensor T) (margin : nat) : result (Tensor T) :=
  sh ← Shape_new (d0 (shape this)) (d1 (shape this))
                 (d2 (shape this) - margin * 2) (d3 (shape this) - margin * 2)
                 (d4 (shape this));
  out ← zeros sh;
  foreach_assign out (fun ii ij ik il im =>
    at_ this ii ij (ik + margin) (il + margin) im).

(** [eye(n)]: the identity matrix on the last two axes. *)
Definition eye (n : nat) : result (Tensor T) :=
  sh ← Shape_new 1 1 1 n n;
  foreach_assign (Tensor_new sh) (fun oi oj ok ol om =>
    Ok (if decide (ol = om) then one else zero)).

(** [__relu_] and [relu]. *)
Definition __relu_ (x : T) : T := if gtb x zero then x else zero.

Definition relu (this : Tensor T) : result (Tensor T) :=
  __foreach_elem_assign_ this __relu_.

(** The free [foreach_elem] behind [x + y], [x - y], [x * y] and [x / y]
    for a scalar [x] on the left. *)
Definition foreach_elem_left (x : T) (y : Tensor T) (func : T → T → T) : result (Tensor T) :=
  out ← zeros (shape y);
  foreach_elem_assign out (fun i => b ← get y i; Ok (func x b)).

Definition left_add (x : T) (y : Tensor T) : result (Tensor T) := foreach_elem_left x y add.
Definition left_sub (x : T) (y : Tensor T) : result (Tensor T) := foreach_elem_left x y sub.
Definition left_mul (x : T) (y : Tensor T) : result (Tensor T) := foreach_elem_left x y mul.
Definition left_div (x : T) (y : Tensor T) : result (Tensor T) := foreach_elem_left x y div.

End TensorMore.

(** [__exp_], with the reals as element type. *)
Definition __exp_ (x : R) : R := exp x.

(** ** Further operations of graph.h *)

Section GraphMore.
Context {Tensor : Type} `{TensorOps Tensor}.

(** [Operation::add_weight]: a new variable becomes the last input of the
    operation; the operation is not added to the variable's consumers.
    The method belongs to [Operation]: a [this] of another class is
    outside the source. *)
Definition add_weight (heap : list (Node Tensor)) (this : nat) (name : string) (sh : Shape)
    (trainable : bool) : result (nat * list (Node Tensor)) :=
  let '(weight, heap) := new_Variable heap name sh trainable in
  n ← lookup_node heap this;
  match cls n with
  | COperation kind input_nodes =>
      Ok (weight,
          <[this := mkNode (output n) (consumers n) (COperation kind (input_nodes ++ [weight]))]> heap)
  | _ => Err Dangling
  end.

End GraphMore.

(** [__sigmoid_grad_], with the reals as element type. *)
Definition __sigmoid_grad_ (y : R) : R := (y * (1 - y))%R.

(** [__relu_grad_]. *)
Definition __relu_grad_ {T : Type} `{Scalar T} (x : T) : T := if gtb x zero then one else zero.

(** [tanh] and [neg], with the reals as element type. *)
Definition tensor_tanh (this : Tensor R) : result (Tensor R) :=
  __foreach_elem_assign_ this (fun x =>
    let exp_p := __exp_ x in
    let exp_n := __exp_ (- x) in
    ((exp_p - exp_n) / (exp_p + exp_n))%R).

Definition tensor_neg (this : Tensor R) : result (Tensor R) :=
  __foreach_elem_assign_ this (fun x => (- x)%R).

(** ** Notions used in the statements about the further operations *)

(** The position with the last two indices exchanged, and the shape with
    the last two sizes exchanged. *)
Definition swap_last (p : Pos) : Pos := let '(i, j, k, l, m) := p in (i, j, k, m, l).

Definition transposed_shape (sh : Shape) : Shape :=
  mkShape (d0 sh) (d1 sh) (d2 sh) (d4 sh) (d3 sh).

(** Every size of [b] is at most the size of [a] on the same axis. *)
Definition fits_in (b a : Shape) : Prop :=
  d0 b ≤ d0 a ∧ d1 b ≤ d1 a ∧ d2 b ≤ d2 a ∧ d3 b ≤ d3 a ∧ d4 b ≤ d4 a.

(** [v] is the least element of [l]. *)
Definition is_min (l : list Z) (v : Z) : Prop := v ∈ l ∧ ∀ x, x ∈ l → (v <= x)%Z.

(** The position of the padded tensor that receives a position of the
    input. *)
Definition shift (width : nat) (p : Pos) : Pos :=
  let '(i, j, k, l, m) := p in (i, j, k + width, l + width, m).

Definition padded_shape (sh : Shape) (width : nat) : Shape :=
  mkShape (d0 sh) (d1 sh) (d2 sh + width * 2) (d3 sh + width * 2) (d4 sh).

(** The cell that [rotate180] reads for a position of a tensor with
    width and height [n]. *)
Definition flip (n : nat) (p : Pos) : Pos :=
  let '(i, j, k, l, m) := p in (i, j, n - l - 1, n - k - 1, m).

(** The cell of the left operand and the cell of the right operand that
    [matmul] multiplies at step [k] for an output position. *)
Definition matmul_row (p : Pos) (k : nat) : Pos := let '(i, j, kk, l, _) := p in (i, j, kk, l, k).

Definition matmul_col (p : Pos) (k : nat) : Pos := let '(_, _, _, _, m) := p in (0, 0, 0, k, m).

Section GraphNotionsMore.
Context {Tensor : Type} `{TensorOps Tensor}.

(** The output cached in the operation [q] is [compute] of the outputs
    cached in its inputs. *)
Definition cache_ok (heap : list (Node Tensor)) (q : nat) : Prop :=
  ∀ n kind inputs, heap !! q = Some n → cls n = COperation kind inputs →
    ∃ vals, getInputValues heap inputs = Ok vals ∧ compute kind vals = Ok (output n).

(** The node with [k] more registrations of the consumer [this]. *)
Definition registered (n : Node Tensor) (k this : nat) : Node Tensor :=
  mkNode (output n) (consumers n ++ replicate k this) (cls n).

(** The variable node with its gradient replaced. *)
Definition with_grad (n : Node Tensor) (g : Tensor) : Node Tensor :=
  match cls n with
  | CVariable name value _ require_grad =>
      mkNode (output n) (consumers n) (CVariable name value g require_grad)
  | _ => n
  end.

End GraphNotionsMore.

(** ** Concrete tensors *)

(** One sample, one frame, one channel, width and height 2. *)
Definition img22 : Tensor Z := mkTensor (mkShape 1 1 2 2 1) [1; 2; 3; 4]%Z.

(** A 2 by 2 matrix on the last two axes. *)
Definition mat22 : Tensor Z := mkTensor (mkShape 1 1 1 2 2) [1; 2; 3; 4]%Z.

Definition img22_Q : Tensor Q := mkTensor (mkShape 1 1 2 2 1) [1; 2; 3; 4]%Q.

Definition row2_R : Tensor R := mkTensor (mkShape 1 1 1 1 2) [0; 1]%R.

Definition row4_Q : Tensor Q := mkTensor (mkShape 1 1 1 1 4) [1; 2; 3; 4]%Q.

(** Two samples of one cell, and a single cell. *)
Definition col2 : Tensor Z := mkTensor (mkShape 2 1 1 1 1) [5; 6]%Z.

Definition cell1 : Tensor Z := mkTensor (mkShape 1 1 1 1 1) [10]%Z.

(** The variable of [affine_heap], and a weight as [add_weight] allocates
    it. *)
Definition affine_w : Node sym :=
  mkNode SDefault [2] (CVariable "w" (SRandom (mkShape 1 1 1 1 1)) SZeros true).

Definition weight_b : Node sym :=
  mkNode SDefault [] (CVariable "b" (SRandom (mkShape 1 1 1 1 1)) SZeros true).

(** * Facts *)

#[local] Arguments zeros : simpl never.
#[local] Arguments foreach_assign : simpl never.
#[local] Arguments at_ : simpl never.

(** * Loops *)

Lemma foldM_app {A B} (f : A → B → result A) l1 l2 a :
  foldM f (l1 ++ l2) a = (foldM f l1 a ≫= foldM f l2).
Proof.
  revert a. induction l1 as [|b l1 IH]; intros a; simpl; [done|].
  destruct (f a b) as [a'|e]; simpl; [apply IH | done].
Qed.

Lemma foldM_ext {A B} (f g : A → B → result A) l a :
  (∀ b a', b ∈ l → f a' b = g a' b) → foldM f l a = foldM g l a.
Proof.
  revert a. induction l as [|b l IH]; intros a Hfg; simpl; [done|].
  rewrite Hfg by left. destruct (g a b); simpl; [|done].
  apply IH. intros b' a'' Hin. apply Hfg. by right.
Qed.

Lemma foldM_flat_map {A B C} (f : A → C → result A) (g : B → list C) l a :
  foldM f (flat_map g l) a = foldM (fun a b => foldM f (g b) a) l a.
Proof.
  revert a. induction l as [|b l IH]; intros a; simpl; [done|].
  rewrite foldM_app. destruct (foldM f (g b) a); simpl; [apply IH | done].
Qed.

Lemma foldM_map {A B C} (f : A → C → result A) (g : B → C) l a :
  foldM f (map g l) a = foldM (fun a b => f a (g b)) l a.
Proof.
  revert a. induction l as [|b l IH]; intros a; simpl; [done|].
  destruct (f a (g b)); simpl; [apply IH | done].
Qed.

Lemma for_loop_foldM {S} n (body : nat → S → result S) s :
  for_loop n body s = foldM (fun s i => body i s) (seq 0 n) s.
Proof.
  induction n as [|n IH]; [done|].
  rewrite seq_S, foldM_app. cbn [for_loop]. rewrite IH.
  destruct (foldM _ _ s) as [s'|e]; simpl; [|done].
  by destruct (body n s').
Qed.

Lemma foreach_foldM {S} sh (func : nat → nat → nat → nat → nat → S → result S) s :
  foreach sh func s
  = foldM (fun s '(i, j, k, l, m) => func i j k l m s) (indices sh) s.
Proof.
  unfold foreach, indices.
  rewrite for_loop_foldM, foldM_flat_map. apply foldM_ext. intros i s1 _.
  rewrite for_loop_foldM, foldM_flat_map. apply foldM_ext. intros j s2 _.
  rewrite for_loop_foldM, foldM_flat_map. apply foldM_ext. intros k s3 _.
  rewrite for_loop_foldM, foldM_flat_map. apply foldM_ext. intros l s4 _.
  rewrite for_loop_foldM, foldM_map. done.
Qed.

(** * Row-major positions *)

Lemma map_add_seq c b : map (fun q => c + q) (seq 0 b) = seq c b.
Proof. etrans; [apply (fmap_add_seq c 0 b)|]. f_equal; lia. Qed.

Lemma seq_mul a b :
  flat_map (fun p => map (fun q => p * b + q) (seq 0 b)) (seq 0 a) = seq 0 (a * b).
Proof.
  induction a as [|a IH]; [done|].
  replace (S a * b) with (a * b + b) by lia.
  rewrite seq_S, flat_map_app, IH, seq_app. f_equal.
  cbn [flat_map]. rewrite app_nil_r, Nat.add_0_l.
  apply map_add_seq.
Qed.

Lemma map_flat_map {A B C} (f : B → C) (g : A → list B) l :
  map f (flat_map g l) = flat_map (fun a => map f (g a)) l.
Proof.
  induction l as [|a l IH]; simpl; [done|]. by rewrite map_app, IH.
Qed.

Lemma flat_map_flat_map {A B C} (f : B → list C) (g : A → list B) l :
  flat_map f (flat_map g l) = flat_map (fun a => flat_map f (g a)) l.
Proof.
  induction l as [|a l IH]; simpl; [done|]. by rewrite flat_map_app, IH.
Qed.

Lemma flat_map_map {A B C} (f : B → list C) (g : A → B) l :
  flat_map f (map g l) = flat_map (fun a => f (g a)) l.
Proof.
  induction l as [|a l IH]; simpl; [done|]. by rewrite IH.
Qed.

Lemma flat_map_seq_mul {X} a b (f : nat → list X) :
  flat_map (fun p => flat_map (fun q => f (p * b + q)) (seq 0 b)) (seq 0 a)
  = flat_map f (seq 0 (a * b)).
Proof.
  rewrite <- seq_mul, flat_map_flat_map.
  apply flat_map_ext. intros p. by rewrite flat_map_map.
Qed.

Lemma sub2ind_indices sh :
  map (sub2ind_pos sh) (indices sh) = seq 0 (Shape_size sh).
Proof.
  unfold indices, Shape_size, sub2ind_pos, sub2ind.
  destruct sh as [a b c d e]; simpl.
  rewrite map_flat_map.
  erewrite flat_map_ext; last first.
  { intros i. rewrite map_flat_map.
    erewrite flat_map_ext; last first.
    { intros j. rewrite map_flat_map.
      erewrite flat_map_ext; last first.
      { intros k. rewrite map_flat_map.
        erewrite flat_map_ext; last first.
        { intros l. rewrite map_map. reflexivity. }
        reflexivity. }
      reflexivity. }
    reflexivity. }
  rewrite (flat_map_seq_mul a b (fun x => flat_map (fun k => flat_map (fun l =>
     map (fun m => ((x * c + k) * d + l) * e + m) (seq 0 e)) (seq 0 d)) (seq 0 c))).
  rewrite (flat_map_seq_mul (a * b) c (fun x => flat_map (fun l =>
     map (fun m => (x * d + l) * e + m) (seq 0 e)) (seq 0 d))).
  rewrite (flat_map_seq_mul (a * b * c) d (fun x => 
     map (fun m => x * e + m) (seq 0 e))).
  apply seq_mul.
Qed.

Lemma elem_of_indices sh p : p ∈ indices sh ↔ in_shape_pos sh p.
Proof.
  destruct p as [[[[i j] k] l] m]. unfold indices, in_shape_pos, in_shape.
  rewrite list_elem_of_In.
  repeat setoid_rewrite in_flat_map. setoid_rewrite in_map_iff.
  repeat setoid_rewrite in_seq. split.
  - intros (i' & Hi & j' & Hj & k' & Hk & l' & Hl & m' & [= <- <- <- <- <-] & Hm). lia.
  - intros (Hi & Hj & Hk & Hl & Hm).
    exists i; split; [lia|]. exists j; split; [lia|]. exists k; split; [lia|].
    exists l; split; [lia|]. exists m; split; [done|lia].
Qed.

Lemma length_indices sh : length (indices sh) = Shape_size sh.
Proof. by rewrite <- (length_map (sub2ind_pos sh)), sub2ind_indices, length_seq. Qed.

Lemma indices_lookup sh p :
  in_shape_pos sh p → indices sh !! sub2ind_pos sh p = Some p.
Proof.
  intros Hin. apply elem_of_indices, list_elem_of_lookup in Hin as [n Hn].
  assert (Hs : seq 0 (Shape_size sh) !! n = Some (sub2ind_pos sh p)).
  { rewrite <- sub2ind_indices. change (map ?f ?l) with (f <$> l).
    by rewrite list_lookup_fmap, Hn. }
  apply lookup_seq in Hs as [Hs _]. simpl in Hs. by rewrite Hs.
Qed.

Lemma sub2ind_lt sh p : in_shape_pos sh p → sub2ind_pos sh p < Shape_size sh.
Proof.
  intros Hin. apply indices_lookup, lookup_lt_Some in Hin.
  by rewrite length_indices in Hin.
Qed.

Lemma indices_lookup_inv sh n p :
  indices sh !! n = Some p → sub2ind_pos sh p = n ∧ in_shape_pos sh p.
Proof.
  intros Hn. split.
  - assert (Hs : seq 0 (Shape_size sh) !! n = Some (sub2ind_pos sh p)).
    { rewrite <- sub2ind_indices. change (map ?f ?l) with (f <$> l).
      by rewrite list_lookup_fmap, Hn. }
    apply lookup_seq in Hs as [Hs _]. by simpl in Hs.
  - apply elem_of_indices, list_elem_of_lookup. eauto.
Qed.

Section TensorFacts.
Context {T : Type} `{Scalar T}.

Lemma writes_in_order {X} (L : list X) (idx : Shape → X → nat)
    (func : X → result T) (g : X → T) sh pre rest :
  map (idx sh) L = seq (length pre) (length L) →
  length rest = length L →
  (∀ x, x ∈ L → func x = Ok (g x)) →
  foldM (fun o x => v ← func x; set_idx o v (idx (shape o) x)) L (mkTensor sh (pre ++ rest))
  = Ok (mkTensor sh (pre ++ map g L)).
Proof.
  revert pre rest. induction L as [|x L IH]; intros pre rest Hidx Hlen Hf.
  { destruct rest; [done|discriminate]. }
  destruct rest as [|r rest]; [discriminate|].
  injection Hidx as Hx Hidx. injection Hlen as Hlen.
  cbn [foldM]. rewrite (Hf x) by left. simpl.
  unfold set_idx. cbn [data shape]. rewrite Hx.
  rewrite bool_decide_eq_true_2 by (rewrite length_app; simpl; lia).
  simpl.
  replace (<[length pre:=g x]> (pre ++ r :: rest)) with ((pre ++ [g x]) ++ rest).
  2:{ rewrite insert_app_r_alt by lia. rewrite Nat.sub_diag. simpl.
      by rewrite <- app_assoc. }
  rewrite IH.
  - by rewrite <- app_assoc.
  - rewrite length_app. simpl. rewrite Hidx. f_equal. lia.
  - done.
  - intros y Hy. apply Hf. by right.
Qed.

Lemma foreach_elem_assign_spec (out : Tensor T) func (g : nat → T) :
  tensor_ok out →
  (∀ i, i < length_ out → func i = Ok (g i)) →
  foreach_elem_assign out func
  = Ok (mkTensor (shape out) (map g (seq 0 (length_ out)))).
Proof.
  intros Hok Hf. unfold foreach_elem_assign. rewrite for_loop_foldM.
  destruct out as [sh dat]. unfold length_, tensor_ok in *. simpl in *.
  pose proof (writes_in_order (seq 0 (Shape_size sh)) (fun _ i => i) func g sh [] dat) as Hw.
  simpl in Hw. apply Hw.
  - by rewrite map_id, length_seq.
  - by rewrite length_seq.
  - intros x Hx. apply Hf. apply elem_of_seq in Hx. lia.
Qed.

Lemma Tensor_new_ok sh : tensor_ok (Tensor_new sh).
Proof. unfold tensor_ok, Tensor_new. simpl. by rewrite length_replicate. Qed.

Lemma map_const_seq {A} (a : A) n s : map (fun _ => a) (seq s n) = replicate n a.
Proof. revert s. induction n as [|n IH]; intros s; simpl; [done|]. by rewrite IH. Qed.

Lemma zeros_spec sh : zeros sh = Ok (mkTensor sh (replicate (Shape_size sh) zero)).
Proof.
  unfold zeros. rewrite (foreach_elem_assign_spec _ _ (fun _ => zero)).
  - simpl. unfold length_. simpl. by rewrite map_const_seq.
  - apply Tensor_new_ok.
  - done.
Qed.

Lemma foreach_assign_spec (out : Tensor T) func (g : Pos → T) :
  tensor_ok out →
  (∀ i j k l m, in_shape (shape out) i j k l m → func i j k l m = Ok (g (i, j, k, l, m))) →
  foreach_assign out func = Ok (mkTensor (shape out) (map g (indices (shape out)))).
Proof.
  intros Hok Hf. unfold foreach_assign. rewrite foreach_foldM.
  destruct out as [sh dat]. unfold tensor_ok in Hok. simpl in *.
  pose proof (writes_in_order (indices sh) sub2ind_pos
    (fun '(i, j, k, l, m) => func i j k l m) g sh [] dat) as Hw.
  simpl in Hw. rewrite <- Hw.
  - apply foldM_ext. by intros [[[[i j] k] l] m] o _.
  - by rewrite sub2ind_indices, length_indices.
  - by rewrite length_indices.
  - intros [[[[i j] k] l] m] Hin. apply Hf. by apply elem_of_indices in Hin.
Qed.

(** Reading a position of a tensor given by its cells in visiting
    order. *)
Lemma at_map_indices sh (g : Pos → T) i j k l m :
  in_shape sh i j k l m →
  at_ (mkTensor sh (map g (indices sh))) i j k l m = Ok (g (i, j, k, l, m)).
Proof.
  intros Hin. unfold at_, get. simpl.
  change (map g (indices sh)) with (g <$> indices sh).
  change (sub2ind sh i j k l m) with (sub2ind_pos sh (i, j, k, l, m)).
  by rewrite list_lookup_fmap, indices_lookup.
Qed.

Lemma at_in_shape (t : Tensor T) i j k l m :
  tensor_ok t → in_shape (shape t) i j k l m →
  ∃ x, at_ t i j k l m = Ok x ∧ data t !! sub2ind (shape t) i j k l m = Some x.
Proof.
  intros Hok Hin. unfold at_, get.
  destruct (lookup_lt_is_Some_2 (data t) (sub2ind (shape t) i j k l m)) as [x Hx].
  { rewrite Hok. by apply (sub2ind_lt (shape t) (i, j, k, l, m)). }
  exists x. by rewrite Hx.
Qed.

(** A tensor is its cells read in visiting order. *)
Lemma tensor_eq_positions (t : Tensor T) (g : Pos → T) :
  tensor_ok t →
  (∀ i j k l m, in_shape (shape t) i j k l m → at_ t i j k l m = Ok (g (i, j, k, l, m))) →
  mkTensor (shape t) (map g (indices (shape t))) = t.
Proof.
  intros Hok Hat. destruct t as [sh dat]. simpl in *. f_equal.
  apply list_eq. intros n. change (map g (indices sh)) with (g <$> indices sh).
  rewrite list_lookup_fmap.
  destruct (indices sh !! n) as [p|] eqn:Hp; simpl.
  - apply indices_lookup_inv in Hp as [<- Hin]. destruct p as [[[[i j] k] l] m].
    specialize (Hat i j k l m Hin). unfold at_, get in Hat. simpl in *.
    destruct (dat !! _); [by injection Hat as ->|discriminate].
  - apply lookup_ge_None in Hp. rewrite length_indices in Hp.
    symmetry. apply lookup_ge_None. unfold tensor_ok in Hok. simpl in Hok. lia.
Qed.

Lemma at_or_zero_ok (t : Tensor T) i j k l m :
  tensor_ok t → in_shape (shape t) i j k l m →
  at_ t i j k l m = Ok (at_or_zero t i j k l m).
Proof.
  intros Hok Hin. destruct (at_in_shape t i j k l m Hok Hin) as (x & Hx & _).
  unfold at_or_zero. by rewrite Hx.
Qed.

Lemma order_cases order :
  is_order order → order ∈ permutations [0; 1; 2; 3; 4].
Proof. intros Ho. apply permutations_Permutation. by symmetry. Qed.

Lemma foreach_assign_total (out : Tensor T) func :
  tensor_ok out →
  (∀ i j k l m, in_shape (shape out) i j k l m → ∃ x, func i j k l m = Ok x) →
  foreach_assign out func
  = Ok (mkTensor (shape out)
          (map (fun '(i, j, k, l, m) => or_zero (func i j k l m)) (indices (shape out)))).
Proof.
  intros Hok Hf. apply foreach_assign_spec; [done|].
  intros i j k l m Hin. destruct (Hf i j k l m Hin) as [x ->]. done.
Qed.

Ltac in_shape_tac :=
  unfold in_shape in *; simpl in *; lia.

Ltac permute_case :=
  simpl; unfold Shape_new;
  rewrite bool_decide_eq_true_2 by lia; simpl;
  rewrite zeros_spec; simpl;
  rewrite foreach_assign_total;
  [ | unfold tensor_ok; simpl; by rewrite length_replicate
    | intros i j k l m Hin;
      match goal with |- ∃ x, at_ ?t ?a ?b ?c ?d ?e = _ =>
        destruct (at_in_shape t a b c d e) as (x & Hx & _);
        [done | in_shape_tac | by exists x] end ];
  simpl; rewrite bool_decide_eq_true_2 by lia; simpl;
  rewrite zeros_spec; simpl;
  rewrite foreach_assign_total;
  [ | unfold tensor_ok; simpl; by rewrite length_replicate
    | intros i j k l m Hin; rewrite at_map_indices by in_shape_tac; eauto ];
  simpl; f_equal;
  match goal with |- mkTensor _ (map ?g _) = ?t =>
    apply (tensor_eq_positions t g); [done|] end;
  intros i j k l m Hin; rewrite at_map_indices by in_shape_tac;
  match goal with |- at_ ?t ?a ?b ?c ?d ?e = _ =>
    destruct (at_in_shape t a b c d e) as (x & Hx & _);
    [done | in_shape_tac | by rewrite Hx] end.

(** C9: for every well-formed tensor and every order that is a
    permutation of 0..4, [permute(order)] followed by
    [permute(inverse(order))] returns the original tensor: the same
    shape and the same cell at every position. *)
Theorem permute_roundtrip (t : Tensor T) order :
  tensor_wf t → is_order order →
  (permute t order ≫= fun t1 => permute t1 (inverse order)) = Ok t.
Proof.
  intros [Hs Hok] Ho. destruct t as [[a b c d e] dat].
  unfold shape_ok in Hs. simpl in Hs.
  apply order_cases in Ho. vm_compute permutations in Ho.
  unfold permute.
  repeat (apply elem_of_cons in Ho as [-> | Ho]; [permute_case|]).
  by apply elem_of_nil in Ho.
Qed.

Lemma foldM_no_ShapeError {A B} (f : A → B → result A) l a :
  (∀ a b, no_ShapeError (f a b)) → no_ShapeError (foldM f l a).
Proof.
  intros Hf. revert a. induction l as [|b l IH]; intros a; simpl; [done|].
  specialize (Hf a b). destruct (f a b) as [a'|e]; simpl; [apply IH | unfold no_ShapeError in *; congruence].
Qed.

Lemma set_idx_no_ShapeError (o : Tensor T) v i : no_ShapeError (set_idx o v i).
Proof. unfold set_idx. by case_bool_decide. Qed.

Lemma at_no_ShapeError (t : Tensor T) i j k l m : no_ShapeError (at_ t i j k l m).
Proof. unfold at_, get. by destruct (data t !! _). Qed.

Lemma foreach_assign_no_ShapeError (out : Tensor T) func :
  (∀ i j k l m, no_ShapeError (func i j k l m)) →
  no_ShapeError (foreach_assign out func).
Proof.
  intros Hf. unfold foreach_assign. rewrite foreach_foldM.
  apply foldM_no_ShapeError. intros o [[[[i j] k] l] m].
  specialize (Hf i j k l m).
  destruct (func i j k l m); simpl; [|unfold no_ShapeError in *; congruence].
  apply set_idx_no_ShapeError.
Qed.

Lemma first_diff_axis_None a b : a = b → first_diff_axis a b = None.
Proof. intros ->. unfold first_diff_axis. by rewrite !bool_decide_eq_false_2 by tauto. Qed.

(** C2, as amended: a binary elementwise operation never fails with
    ShapeError, however many axes differ; and when no axis differs it is
    plain elementwise: the result has the common shape and its cell at
    every position is [func] of the two operands' cells there. *)
Theorem foreach_assign_elementwise (a b : Tensor T) (func : T → T → T) :
  no_ShapeError (__foreach_assign_ a b func) ∧
  (tensor_ok a → tensor_ok b → shape a = shape b →
   ∃ out, __foreach_assign_ a b func = Ok out ∧ shape out = shape a ∧ tensor_ok out ∧
     ∀ i j k l m, in_shape (shape a) i j k l m →
       ∃ x y, at_ a i j k l m = Ok x ∧ at_ b i j k l m = Ok y ∧
              at_ out i j k l m = Ok (func x y)).
Proof.
  split.
  - unfold __foreach_assign_.
    assert (Hboth : ∀ x y : result T, no_ShapeError x → no_ShapeError y →
              no_ShapeError (a0 ← x; b0 ← y; Ok (func a0 b0))).
    { intros [x|e] [y|e'] Hx Hy; simpl; unfold no_ShapeError in *; congruence. }
    destruct (first_diff_axis _ _) as [[|[|[|[|[|n]]]]]|];
      apply foreach_assign_no_ShapeError; intros; apply Hboth; apply at_no_ShapeError.
  - intros Ha Hb Hsh. unfold __foreach_assign_.
    rewrite first_diff_axis_None by done.
    rewrite (foreach_assign_spec _ _
      (fun '(i, j, k, l, m) => func (at_or_zero a i j k l m) (at_or_zero b i j k l m))).
    + eexists. split; [done|]. simpl. split; [done|]. split.
      { unfold tensor_ok. simpl. by rewrite length_map, length_indices. }
      intros i j k l m Hin.
      exists (at_or_zero a i j k l m), (at_or_zero b i j k l m).
      split; [by apply at_or_zero_ok|].
      split; [apply at_or_zero_ok; [done|by rewrite <- Hsh]|].
      rewrite <- Hsh. by rewrite at_map_indices.
    + apply Tensor_new_ok.
    + simpl. intros i j k l m Hin.
      rewrite (at_or_zero_ok a), (at_or_zero_ok b); try done. by rewrite Hsh.
Qed.

Lemma __foreach_elem_assign__spec (this : Tensor T) (func : T → T) :
  tensor_ok this →
  __foreach_elem_assign_ this func = Ok (mkTensor (shape this) (map func (data this))).
Proof.
  intros Hok. unfold __foreach_elem_assign_.
  rewrite (foreach_elem_assign_spec _ _ (fun i => func (or_zero (get this i)))).
  - simpl. f_equal. f_equal. unfold length_. simpl.
    apply list_eq. intros i. 
    change (map ?f ?l) with (f <$> l). rewrite !list_lookup_fmap.
    destruct (decide (i < Shape_size (shape this))) as [Hi|Hi].
    + rewrite lookup_seq_lt by done. simpl. unfold get.
      destruct (lookup_lt_is_Some_2 (data this) i) as [x Hx]; [by rewrite Hok|].
      by rewrite Hx.
    + rewrite lookup_seq_ge by lia. rewrite (lookup_ge_None_2 (data this)); [done|].
      rewrite Hok. lia.
  - apply Tensor_new_ok.
  - intros i Hi. unfold length_ in Hi. simpl in Hi. unfold get.
    destruct (lookup_lt_is_Some_2 (data this) i) as [x Hx]; [by rewrite Hok|].
    by rewrite Hx.
Qed.

End TensorFacts.

(** C2, the statement fails: with two differing axes the sum is returned
    and no ShapeError is raised; with one differing axis, of size 1 on the
    right operand, the result has the right operand's shape and not the
    larger one. *)
Lemma foreach_assign_ignores_axes :
  diff_axes (mkShape 2 2 1 1 1) (mkShape 1 1 1 1 1) = 2 ∧
  tensor_add (mkTensor (mkShape 2 2 1 1 1) [1; 2; 3; 4]%Z) (mkTensor (mkShape 1 1 1 1 1) [10]%Z)
  = Ok (mkTensor (mkShape 1 1 1 1 1) [11]%Z) ∧
  diff_axes (mkShape 2 1 1 1 1) (mkShape 1 1 1 1 1) = 1 ∧
  tensor_add (mkTensor (mkShape 2 1 1 1 1) [1; 2]%Z) (mkTensor (mkShape 1 1 1 1 1) [10]%Z)
  = Ok (mkTensor (mkShape 1 1 1 1 1) [11]%Z).
Proof. repeat split. Qed.

Lemma permute_roundtrip_witness :
  tensor_wf (mkTensor (mkShape 1 2 1 1 3) [1; 2; 3; 4; 5; 6]%Z) ∧
  is_order [4; 0; 2; 3; 1] ∧
  (permute (mkTensor (mkShape 1 2 1 1 3) [1; 2; 3; 4; 5; 6]%Z) [4; 0; 2; 3; 1]
     ≫= fun t1 => permute t1 (inverse [4; 0; 2; 3; 1]))
  = Ok (mkTensor (mkShape 1 2 1 1 3) [1; 2; 3; 4; 5; 6]%Z).
Proof.
  assert (Hwf : tensor_wf (mkTensor (mkShape 1 2 1 1 3) [1; 2; 3; 4; 5; 6]%Z)).
  { split; [unfold shape_ok; simpl; lia | reflexivity]. }
  assert (Ho : is_order [4; 0; 2; 3; 1]).
  { unfold is_order. apply (bool_decide_unpack _). vm_compute. exact I. }
  split; [exact Hwf|]. split; [exact Ho|].
  apply (permute_roundtrip _ _ Hwf Ho).
Defined.

Lemma foreach_assign_elementwise_witness :
  ∃ out, tensor_add (mkTensor (mkShape 1 1 1 1 2) [1; 2]%Z) (mkTensor (mkShape 1 1 1 1 2) [10; 20]%Z) = Ok out
    ∧ at_ out 0 0 0 0 1 = Ok 22%Z.
Proof.
  destruct (foreach_assign_elementwise
    (mkTensor (mkShape 1 1 1 1 2) [1; 2]%Z) (mkTensor (mkShape 1 1 1 1 2) [10; 20]%Z) Z.add)
    as [_ Hel].
  destruct Hel as (out & Hout & Hsh & Hok & Hat); [reflexivity|reflexivity|reflexivity|].
  exists out. split; [exact Hout|].
  destruct (Hat 0 0 0 0 1) as (x & y & Hx & Hy & Hxy).
  { unfold in_shape. simpl. lia. }
  injection Hx as <-. injection Hy as <-. exact Hxy.
Defined.

(** * Equality *)

Lemma tolerance_value : (tolerance == 1 # 100000)%Q.
Proof. reflexivity. Qed.

Lemma tensor_eq_loop (a b : Tensor Q) n :
  n ≤ length (data a) → n ≤ length (data b) →
  ∃ r, for_loop n (fun i result =>
         x ← get a i; y ← get b i;
         if negb (Qle_bool (Qabs (x - y)) tolerance) then Ok false else Ok result) true = Ok r
     ∧ (r = true ↔ ∀ i x y, i < n → data a !! i = Some x → data b !! i = Some y →
                     (Qabs (x - y) <= tolerance)%Q).
Proof.
  induction n as [|n IH]; intros Ha Hb.
  { exists true. split; [reflexivity|]. split; [|reflexivity]. intros _ i x y Hi. lia. }
  destruct IH as (r & Hr & Hiff); [lia|lia|].
  destruct (lookup_lt_is_Some_2 (data a) n) as [x Hx]; [lia|].
  destruct (lookup_lt_is_Some_2 (data b) n) as [y Hy]; [lia|].
  cbn [for_loop]. rewrite Hr. unfold get. cbn [mbind result_bind].
  rewrite Hx, Hy. cbn [of_option mbind result_bind].
  destruct (Qle_bool (Qabs (x - y)) tolerance) eqn:Hle; cbn [negb].
  - exists r. split; [done|]. rewrite Hiff. split.
    + intros Hall i x' y' Hi Hx' Hy'.
      destruct (decide (i = n)) as [->|Hne].
      * rewrite Hx in Hx'. rewrite Hy in Hy'. injection Hx' as <-. injection Hy' as <-.
        by apply Qle_bool_iff.
      * apply (Hall i); [lia|done|done].
    + intros Hall i x' y' Hi. apply Hall. lia.
  - exists false. split; [done|]. split; [done|].
    intros Hall. specialize (Hall n x y (Nat.lt_succ_diag_r n) Hx Hy).
    apply Qle_bool_iff in Hall. congruence.
Qed.

(** C8, as amended: for equal-shaped tensors [A == B] returns true if and
    only if at every cell the absolute difference is at most 10e-6, which
    is 1e-5. *)
Theorem tensor_eq_tolerance (a b : Tensor Q) :
  tensor_ok a → tensor_ok b → shape a = shape b →
  ∃ r, tensor_eq a b = Ok r ∧ (r = true ↔ within (1 # 100000) a b).
Proof.
  intros Ha Hb Hsh. unfold tensor_eq, length_.
  destruct (tensor_eq_loop a b (Shape_size (shape a))) as (r & Hr & Hiff).
  { by rewrite Ha. }
  { rewrite Hb, Hsh. done. }
  exists r. split; [done|]. rewrite Hiff. unfold within. split.
  - intros Hall i x y Hx Hy. rewrite <- tolerance_value. apply (Hall i); [|done|done].
    apply lookup_lt_Some in Hx. by rewrite <- Ha.
  - intros Hall i x y _ Hx Hy. rewrite tolerance_value. by apply (Hall i).
Qed.

Lemma tensor_eq_tolerance_witness :
  ∃ r, tensor_eq (mkTensor (mkShape 1 1 1 1 2) [0; 1]%Q)
                 (mkTensor (mkShape 1 1 1 1 2) [5 # 1000000; 1]%Q) = Ok r
     ∧ (r = true ↔ within (1 # 100000) (mkTensor (mkShape 1 1 1 1 2) [0; 1]%Q)
                                        (mkTensor (mkShape 1 1 1 1 2) [5 # 1000000; 1]%Q)).
Proof.
  apply (tensor_eq_tolerance (mkTensor (mkShape 1 1 1 1 2) [0; 1]%Q)
                             (mkTensor (mkShape 1 1 1 1 2) [5 # 1000000; 1]%Q));
    reflexivity.
Defined.

(** C8, the statement fails: the cells differ by 5e-6, more than 1e-6,
    and the tensors still compare equal. *)
Lemma tensor_eq_accepts_5e_6 :
  tensor_eq (mkTensor (mkShape 1 1 1 1 1) [0]%Q) (mkTensor (mkShape 1 1 1 1 1) [5 # 1000000]%Q)
  = Ok true
  ∧ ¬ within (1 # 1000000) (mkTensor (mkShape 1 1 1 1 1) [0]%Q)
                            (mkTensor (mkShape 1 1 1 1 1) [5 # 1000000]%Q).
Proof.
  split; [reflexivity|].
  intros Hw. specialize (Hw 0 0%Q (5 # 1000000)%Q eq_refl eq_refl).
  vm_compute in Hw. by apply Hw.
Qed.

(** * Sigmoid *)

(** C10: [sigmoid] maps every cell [x] to [1 / (1 + exp x)], the logistic
    function at [- x]; it is 1/2 at 0 and strictly decreasing. *)
Theorem sigmoid_is_logistic_of_negation (t : Tensor R) :
  (tensor_ok t →
   sigmoid t = Ok (mkTensor (shape t) (map (fun x => 1 / (1 + exp x))%R (data t)))) ∧
  (∀ x, __sigmoid_ x = logistic (- x)) ∧
  __sigmoid_ 0 = (1 / 2)%R ∧
  (∀ x y, (x < y)%R → (__sigmoid_ y < __sigmoid_ x)%R).
Proof.
  split; [|split; [|split]].
  - intros Hok. unfold sigmoid. by rewrite __foreach_elem_assign__spec.
  - intros x. unfold __sigmoid_, logistic. by rewrite Ropp_involutive.
  - unfold __sigmoid_. rewrite exp_0. lra.
  - intros x y Hxy. unfold __sigmoid_.
    pose proof (exp_pos x) as Hx. pose proof (exp_pos y) as Hy.
    pose proof (exp_increasing x y Hxy) as Hinc.
    unfold Rdiv. rewrite !Rmult_1_l.
    apply Rinv_lt_contravar; [|lra].
    apply Rmult_lt_0_compat; lra.
Qed.

Lemma sigmoid_is_logistic_of_negation_witness :
  sigmoid (mkTensor (mkShape 1 1 1 1 1) [0%R])
  = Ok (mkTensor (mkShape 1 1 1 1 1) [(1 / (1 + exp 0))%R])
  ∧ (__sigmoid_ 1 < __sigmoid_ 0)%R.
Proof.
  destruct (sigmoid_is_logistic_of_negation (mkTensor (mkShape 1 1 1 1 1) [0%R]))
    as (Hs & _ & _ & Hdec).
  split; [apply Hs; reflexivity | apply Hdec; lra].
Defined.

(** * Reduction *)

#[local] Arguments collapse : simpl never.

Section ReduceFacts.
Context {T : Type} `{Scalar T}.

Lemma at_pos_ok (t : Tensor T) i j k l m :
  tensor_ok t → in_shape (shape t) i j k l m →
  at_ t i j k l m = Ok (at_pos t (i, j, k, l, m)).
Proof. apply at_or_zero_ok. Qed.

Lemma sub2ind_inj sh p q :
  in_shape_pos sh p → in_shape_pos sh q → sub2ind_pos sh p = sub2ind_pos sh q → p = q.
Proof.
  intros Hp Hq Heq. apply indices_lookup in Hp, Hq. rewrite Heq in Hp. congruence.
Qed.

Lemma at_pos_data (t : Tensor T) p :
  tensor_ok t → in_shape_pos (shape t) p →
  data t !! sub2ind_pos (shape t) p = Some (at_pos t p).
Proof.
  intros Hok Hp. destruct p as [[[[i j] k] l] m].
  destruct (at_in_shape t i j k l m Hok Hp) as (x & Hx & Hd).
  simpl. unfold at_or_zero. rewrite Hx. exact Hd.
Qed.

Lemma at_pos_set (t : Tensor T) v p q :
  tensor_ok t → in_shape_pos (shape t) p → in_shape_pos (shape t) q →
  at_pos (mkTensor (shape t) (<[sub2ind_pos (shape t) p := v]> (data t))) q
  = if decide (p = q) then v else at_pos t q.
Proof.
  intros Hok Hp Hq.
  assert (Hok' : tensor_ok (mkTensor (shape t) (<[sub2ind_pos (shape t) p := v]> (data t)))).
  { unfold tensor_ok. simpl. by rewrite length_insert. }
  pose proof (at_pos_data _ q Hok' Hq) as Hd. simpl in Hd.
  destruct (decide (p = q)) as [->|Hne].
  - rewrite list_lookup_insert_eq in Hd; [congruence|].
    rewrite Hok. by apply sub2ind_lt.
  - rewrite list_lookup_insert_ne in Hd.
    + rewrite (at_pos_data t q Hok Hq) in Hd. congruence.
    + intros Heq. apply Hne. by apply (sub2ind_inj (shape t)).
Qed.

Lemma reduce_step_spec (this out : Tensor T) axis i j k l m :
  axis ≤ 4 → tensor_ok this → tensor_ok out →
  in_shape (shape this) i j k l m →
  in_shape_pos (shape out) (collapse axis (i, j, k, l, m)) →
  reduce_step this axis i j k l m out
  = Ok (mkTensor (shape out)
          (<[sub2ind_pos (shape out) (collapse axis (i, j, k, l, m))
             := add (at_pos out (collapse axis (i, j, k, l, m))) (at_pos this (i, j, k, l, m))]>
           (data out))).
Proof.
  intros Hax Hthis Hout Hin Hc. unfold reduce_step.
  assert (Hlt : sub2ind_pos (shape out) (collapse axis (i, j, k, l, m)) < length (data out)).
  { rewrite Hout. by apply sub2ind_lt. }
  destruct axis as [|[|[|[|[|axis]]]]]; [| | | | |lia]; unfold collapse in *; simpl in Hc, Hlt |- *;
    rewrite (at_pos_ok out) by done; simpl;
    rewrite (at_pos_ok this) by done; simpl;
    unfold set, set_idx; by rewrite bool_decide_eq_true_2.
Qed.

Lemma reduce_loop (this : Tensor T) axis sh_out (L : list Pos) :
  axis ≤ 4 → tensor_ok this →
  (∀ p, p ∈ L → in_shape_pos (shape this) p ∧ in_shape_pos sh_out (collapse axis p)) →
  ∀ out0, tensor_ok out0 → shape out0 = sh_out →
  ∃ out, foldM (fun o '(i, j, k, l, m) => reduce_step this axis i j k l m o) L out0 = Ok out ∧
    shape out = sh_out ∧ tensor_ok out ∧
    ∀ q, in_shape_pos sh_out q →
      at_pos out q
      = fold_left add (map (at_pos this) (filter (fun p => collapse axis p = q) L)) (at_pos out0 q).
Proof.
  intros Hax Hthis. induction L as [|p L IH]; intros HL out0 Hout0 Hsh.
  { exists out0. by repeat split. }
  destruct (HL p) as [Hp Hcp]; [by left|].
  destruct p as [[[[i j] k] l] m]. cbn [foldM].
  rewrite reduce_step_spec by (done || by rewrite Hsh).
  simpl.
  set (out1 := mkTensor (shape out0) _).
  destruct (IH (fun q Hq => HL q (list_elem_of_further _ _ _ Hq)) out1) as (out & Hfold & Hshape & Hok & Hat).
  { unfold tensor_ok, out1. simpl. by rewrite length_insert. }
  { done. }
  exists out. split; [done|]. split; [done|]. split; [done|].
  intros q Hq. rewrite Hat by done. unfold out1.
  rewrite at_pos_set by (done || by rewrite Hsh).
  rewrite filter_cons. destruct (decide (collapse axis (i, j, k, l, m) = q)) as [Heq|Hne].
  - rewrite Heq. reflexivity.
  - reflexivity.
Qed.

Lemma at_pos_zeros sh q :
  in_shape_pos sh q → at_pos (mkTensor sh (replicate (Shape_size sh) zero)) q = zero.
Proof.
  intros Hq.
  pose proof (at_pos_data (mkTensor sh (replicate (Shape_size sh) zero)) q) as Hd.
  simpl in Hd. rewrite lookup_replicate_2 in Hd by (by apply sub2ind_lt).
  symmetry. assert (Some zero = Some (at_pos (mkTensor sh (replicate (Shape_size sh) zero)) q)) as [= <-]; [|done].
  apply Hd; [|done]. unfold tensor_ok. simpl. by rewrite length_replicate.
Qed.

(** On the axes 1 to 4 [reduce_sum] collapses the axis to size 1 and
    leaves the others alone, and each cell of the result is the sum, from
    0 and in visiting order, of the cells of the input that lie along the
    axis at that position. *)
Lemma reduce_sum_axes_1_to_4 (this : Tensor T) axis :
  tensor_ok this → 1 ≤ axis ≤ 4 →
  ∃ sh_out out,
    Shape_set (shape this) 1 axis = Ok sh_out ∧
    reduce_sum this axis = Ok out ∧ shape out = sh_out ∧ tensor_ok out ∧
    ∀ q, in_shape_pos sh_out q →
      at_pos out q = fold_left add (map (at_pos this) (along axis (shape this) q)) zero.
Proof.
  intros Hthis Hax.
  assert (Hset : ∃ sh_out, Shape_set (shape this) 1 axis = Ok sh_out ∧
            ∀ p, in_shape_pos (shape this) p → in_shape_pos sh_out (collapse axis p)).
  { destruct axis as [|[|[|[|[|axis]]]]]; [lia| | | | |lia];
      (eexists; split; [reflexivity|]);
      intros [[[[i j] k] l] m]; unfold collapse, in_shape_pos, in_shape; simpl; lia. }
  destruct Hset as (sh_out & Hset & Hcol).
  destruct (reduce_loop this axis sh_out (indices (shape this))) with
    (out0 := mkTensor sh_out (replicate (Shape_size sh_out) zero))
    as (out & Hfold & Hshape & Hok & Hat); [lia|done| | |done|].
  { intros p Hp. apply elem_of_indices in Hp. split; [done|by apply Hcol]. }
  { unfold tensor_ok. simpl. by rewrite length_replicate. }
  exists sh_out, out. split; [done|]. split.
  - unfold reduce_sum. rewrite Hset. simpl. rewrite zeros_spec. simpl.
    rewrite <- Hfold.
    destruct axis as [|[|[|[|[|axis]]]]]; [lia| | | | |lia]; apply foreach_foldM.
  - split; [done|]. split; [done|]. intros q Hq. rewrite Hat by done.
    by rewrite at_pos_zeros.
Qed.

(** [reduce_mean] divides every cell of [reduce_sum] by the size of the
    axis. *)
Lemma reduce_mean_divides (this out : Tensor T) axis N :
  reduce_sum this axis = Ok out → tensor_ok out → Shape_get (shape this) axis = Ok N →
  reduce_mean this axis
  = Ok (mkTensor (shape out) (map (fun x => div x (of_int N)) (data out))).
Proof.
  intros Hsum Hok HN. unfold reduce_mean. rewrite Hsum. simpl. rewrite HN. simpl.
  unfold scalar_div. by rewrite __foreach_elem_assign__spec.
Qed.
End ReduceFacts.

Example reduce_sum_axes_1_to_4_example :
  along 1 (mkShape 1 2 1 1 2) (0, 0, 0, 0, 1) = [(0, 0, 0, 0, 1); (0, 1, 0, 0, 1)].
Proof. reflexivity. Qed.

(** * Pooling *)

Section PoolingFacts.
Context {T : Type} `{Scalar T}.

Lemma at_pos_map_indices sh (g : Pos → T) q :
  in_shape_pos sh q → at_pos (mkTensor sh (map g (indices sh))) q = g q.
Proof.
  destruct q as [[[[i j] k] l] m]. intros Hq. simpl. unfold at_or_zero.
  by rewrite at_map_indices.
Qed.

Lemma foldM_pure_reads {X} (F : X → result T) (G : X → T) (func : T → T → T) L v :
  (∀ p, p ∈ L → F p = Ok (G p)) →
  foldM (fun value p => curr ← F p; Ok (func value curr)) L v
  = Ok (fold_left func (map G L) v).
Proof.
  revert v. induction L as [|p L IH]; intros v HF; [done|].
  cbn [foldM]. rewrite (HF p) by left. simpl. apply IH.
  intros p' Hp'. apply HF. by right.
Qed.

Lemma loops_fold {X} (inner : X → T → result T) (row : X → list T) (func : T → T → T) L v :
  (∀ x v, x ∈ L → inner x v = Ok (fold_left func (row x) v)) →
  foldM (fun v x => inner x v) L v = Ok (fold_left func (flat_map row L) v).
Proof.
  revert v. induction L as [|x L IH]; intros v Hin; [done|].
  cbn [foldM flat_map]. rewrite Hin by left. simpl. rewrite fold_left_app.
  apply IH. intros x' v' Hx'. apply Hin. by right.
Qed.

Lemma nested_loops_fold (F : nat → nat → result T) (G : nat → nat → T)
    (func : T → T → T) width (v : T) :
  (∀ pk pl, pk < width → pl < width → F pk pl = Ok (G pk pl)) →
  for_loop width (fun pk =>
    for_loop width (fun pl (value : T) => curr ← F pk pl; Ok (func value curr))) v
  = Ok (fold_left func
          (flat_map (fun pk => map (fun pl => G pk pl) (seq 0 width)) (seq 0 width)) v).
Proof.
  intros HF. rewrite for_loop_foldM. apply loops_fold.
  intros pk v' Hpk. apply elem_of_seq in Hpk.
  rewrite for_loop_foldM.
  apply (foldM_pure_reads (F pk) (G pk) func).
  intros pl Hpl. apply elem_of_seq in Hpl. apply HF; lia.
Qed.

Lemma window_in_shape sh width q p :
  1 ≤ width → in_shape_pos (pooled_shape sh width) q → p ∈ window width q →
  in_shape_pos sh p.
Proof.
  intros Hw Hq Hp. destruct q as [[[[oi oj] ok] ol] om].
  unfold window in Hp. apply list_elem_of_In, in_flat_map in Hp as (pk & Hpk & Hp).
  apply in_map_iff in Hp as (pl & <- & Hpl). apply in_seq in Hpk, Hpl.
  unfold in_shape_pos, in_shape, pooled_shape in *. simpl in *.
  pose proof (Nat.Div0.mul_div_le (d2 sh) width). pose proof (Nat.Div0.mul_div_le (d3 sh) width).
  nia.
Qed.

Lemma window_origin_in_shape sh width q :
  1 ≤ width → in_shape_pos (pooled_shape sh width) q →
  in_shape_pos sh (window_origin width q).
Proof.
  intros Hw Hq. destruct q as [[[[oi oj] ok] ol] om].
  unfold in_shape_pos, in_shape, pooled_shape, window_origin in *. simpl in *.
  pose proof (Nat.Div0.mul_div_le (d2 sh) width). pose proof (Nat.Div0.mul_div_le (d3 sh) width).
  nia.
Qed.

(** What [__pooling_] computes: the output has the width and height
    divided by [width], and each cell is the fold of [func] over the cells
    of its window, started at the window's first cell. *)
Lemma pooling_spec (this : Tensor T) width (func : T → T → T) :
  tensor_ok this → shape_ok (shape this) →
  1 ≤ width → width ≤ d2 (shape this) → width ≤ d3 (shape this) →
  __pooling_ this width func
  = Ok (mkTensor (pooled_shape (shape this) width)
          (map (fun q => fold_left func (map (at_pos this) (window width q))
                                   (at_pos this (window_origin width q)))
               (indices (pooled_shape (shape this) width)))).
Proof.
  intros Hok Hsh Hw Hd2 Hd3. unfold __pooling_.
  rewrite bool_decide_eq_false_2 by lia.
  unfold Shape_new. rewrite bool_decide_eq_true_2.
  2:{ unfold shape_ok in Hsh.
      pose proof (Nat.div_str_pos (d2 (shape this)) width).
      pose proof (Nat.div_str_pos (d3 (shape this)) width). lia. }
  simpl. rewrite zeros_spec. simpl.
  apply foreach_assign_spec.
  { unfold tensor_ok. simpl. by rewrite length_replicate. }
  intros oi oj ok ol om Hin. simpl in Hin.
  pose proof (window_origin_in_shape (shape this) width (oi, oj, ok, ol, om) Hw Hin) as Ho.
  rewrite (at_pos_ok this) by done. simpl.
  rewrite (nested_loops_fold _ (fun pk pl => at_pos this (oi, oj, ok * width + pk, ol * width + pl, om))).
  - f_equal. f_equal. unfold window. rewrite map_flat_map.
    apply flat_map_ext. intros pk. by rewrite map_map.
  - intros pk pl Hpk Hpl. apply at_pos_ok; [done|].
    change (in_shape_pos (shape this) (oi, oj, ok * width + pk, ol * width + pl, om)).
    apply (window_in_shape (shape this) width (oi, oj, ok, ol, om)); [done|done|].
    unfold window. apply list_elem_of_In, in_flat_map. exists pk. split; [apply in_seq; lia|].
    apply in_map_iff. exists pl. split; [done|apply in_seq; lia].
Qed.

(** [avg_pooling]: the fold of the sum, divided by [width * width]. *)
Lemma avg_pooling_spec (this : Tensor T) width :
  tensor_ok this → shape_ok (shape this) →
  1 ≤ width → width ≤ d2 (shape this) → width ≤ d3 (shape this) →
  avg_pooling this width
  = Ok (mkTensor (pooled_shape (shape this) width)
          (map (fun q => div (fold_left add (map (at_pos this) (window width q))
                                        (at_pos this (window_origin width q)))
                             (of_int (width * width)))
               (indices (pooled_shape (shape this) width)))).
Proof.
  intros Hok Hsh Hw Hd2 Hd3. unfold avg_pooling.
  rewrite pooling_spec by done. simpl. unfold scalar_div.
  rewrite __foreach_elem_assign__spec.
  - simpl. by rewrite map_map.
  - unfold tensor_ok. simpl. by rewrite length_map, length_indices.
Qed.
End PoolingFacts.

Lemma fold_max (l : list Z) (x0 : Z) :
  let v := fold_left (fun a b => if gtb a b then a else b) l x0 in
  (v = x0 ∨ v ∈ l) ∧ (x0 <= v)%Z ∧ ∀ x, x ∈ l → (x <= v)%Z.
Proof.
  revert x0. induction l as [|y l IH]; intros x0; simpl.
  { split; [by left|]. split; [lia|]. intros x Hx. by apply elem_of_nil in Hx. }
  destruct (IH (if (x0 >? y)%Z then x0 else y)) as (Hmem & Hle & Hall).
  pose proof (Zgt_cases x0 y) as Hcmp.
  destruct (x0 >? y)%Z; simpl in *.
  - split; [|split; [done|]].
    + destruct Hmem as [->|Hmem]; [by left|right; by right].
    + intros x Hx. apply elem_of_cons in Hx as [->|Hx]; [lia|by apply Hall].
  - split; [|split; [lia|]].
    + right. destruct Hmem as [->|Hmem]; [by left|by right].
    + intros x Hx. apply elem_of_cons in Hx as [->|Hx]; [lia|by apply Hall].
Qed.

(** Every cell of [max_pooling] is the greatest cell of its window. *)
Lemma max_pooling_is_window_max (this : Tensor Z) width :
  tensor_ok this → shape_ok (shape this) →
  1 ≤ width → width ≤ d2 (shape this) → width ≤ d3 (shape this) →
  ∃ out, max_pooling this width = Ok out ∧
    shape out = pooled_shape (shape this) width ∧
    ∀ q, in_shape_pos (shape out) q →
      is_max (map (at_pos this) (window width q)) (at_pos out q).
Proof.
  intros Hok Hsh Hw Hd2 Hd3. unfold max_pooling. rewrite pooling_spec by done.
  eexists. split; [done|]. split; [done|]. cbn [shape].
  intros [[[[oi oj] ok] ol] om] Hq.
  rewrite at_pos_map_indices by done.
  set (l := map (at_pos this) (window width (oi, oj, ok, ol, om))).
  set (x0 := at_pos this (window_origin width (oi, oj, ok, ol, om))).
  assert (Hx0 : x0 ∈ l).
  { unfold l, x0. apply list_elem_of_fmap_2'
      with (x := (oi, oj, ok * width + 0, ol * width + 0, om)).
    - unfold window. apply list_elem_of_In, in_flat_map. exists 0. split; [apply in_seq; lia|].
      apply in_map_iff. exists 0. split; [done|apply in_seq; lia].
    - unfold window_origin. by rewrite !Nat.add_0_r. }
  destruct (fold_max l x0) as (Hmem & _ & Hall).
  split; [|done]. by destruct Hmem as [->|Hmem].
Qed.

(** Every cell of [avg_pooling], times [width * width], is the sum of its
    window plus the window's first cell once more. *)
Lemma avg_pooling_times_area (this : Tensor Q) width :
  tensor_ok this → shape_ok (shape this) →
  1 ≤ width → width ≤ d2 (shape this) → width ≤ d3 (shape this) →
  ∃ out, avg_pooling this width = Ok out ∧
    shape out = pooled_shape (shape this) width ∧
    ∀ q, in_shape_pos (shape out) q →
      (at_pos out q * of_int (width * width)
       == fold_left Qplus (map (at_pos this) (window width q))
                    (at_pos this (window_origin width q)))%Q.
Proof.
  intros Hok Hsh Hw Hd2 Hd3. rewrite avg_pooling_spec by done.
  eexists. split; [done|]. split; [done|]. cbn [shape].
  intros [[[[oi oj] ok] ol] om] Hq.
  rewrite at_pos_map_indices by done. cbn [div add of_int Scalar_Q].
  rewrite Qmult_comm. apply Qmult_div_r. intros Heq.
  assert (Hpos : (0 < Z.of_nat (width * width))%Z) by nia.
  unfold Qeq, inject_Z in Heq. simpl in Heq. lia.
Qed.

(** * Reduction and pooling on concrete tensors *)

(** C6, at the failing input: [reduce_sum(0)] on a single cell 5 runs the
    loops of axis 0 and of axis 1 and returns 10; with two samples the
    second loop leaves the output buffer; axis 1 alone sums as claimed. *)
Theorem reduce_sum_axis0_falls_through :
  reduce_sum (mkTensor (mkShape 1 1 1 1 1) [5]%Z) 0
  = Ok (mkTensor (mkShape 1 1 1 1 1) [10]%Z)
  ∧ reduce_sum (mkTensor (mkShape 2 1 1 1 1) [5; 6]%Z) 0 = Err OutOfBounds
  ∧ reduce_sum (mkTensor (mkShape 1 2 1 1 2) [1; 2; 3; 4]%Z) 0
    = Ok (mkTensor (mkShape 1 2 1 1 2) [5; 8; 3; 4]%Z)
  ∧ reduce_sum (mkTensor (mkShape 1 2 1 1 2) [1; 2; 3; 4]%Z) 1
    = Ok (mkTensor (mkShape 1 1 1 1 2) [4; 6]%Z).
Proof. repeat split. Qed.

(** C7, at the failing input: on the window [[1, 2], [3, 4]] the running
    sum starts at the first cell and then adds all four cells, so
    [avg_pooling(2)] is 11/4 and not 10/4; [max_pooling(2)] is 4. *)
Theorem avg_pooling_counts_first_cell_twice :
  avg_pooling (mkTensor (mkShape 1 1 2 2 1) [1; 2; 3; 4]%Q) 2
  = Ok (mkTensor (mkShape 1 1 1 1 1) [11 # 4]%Q)
  ∧ max_pooling (mkTensor (mkShape 1 1 2 2 1) [1; 2; 3; 4]%Q) 2
    = Ok (mkTensor (mkShape 1 1 1 1 1) [4]%Q).
Proof. split; reflexivity. Qed.

Section GraphFacts.
Context {Tensor : Type} `{TensorOps Tensor}.

Lemma Graph_app_empty_l c : Graph_app Graph_empty c = c.
Proof. by destruct c. Qed.

Lemma Graph_app_assoc a b c : Graph_app (Graph_app a b) c = Graph_app a (Graph_app b c).
Proof. unfold Graph_app. simpl. by rewrite !app_assoc. Qed.

Lemma collection_of_app g c ty :
  collection_of (Graph_app g c) ty = collection_of g ty ++ collection_of c ty.
Proof. by destruct ty. Qed.

Lemma occurrences_app g c q :
  occurrences (Graph_app g c) q = occurrences g q + occurrences c q.
Proof. unfold occurrences. simpl. rewrite !count_occ_app. lia. Qed.

Lemma inputs_first_app (heap : list (Node Tensor)) l1 l2 :
  inputs_first heap l1 → inputs_first heap l2 → inputs_first heap (l1 ++ l2).
Proof.
  intros H1 H2 i o q Hi Hq Hty.
  apply lookup_app_Some in Hi as [Hi | [Hlen Hi]].
  - destruct (H1 i o q Hi Hq Hty) as (j & Hj & Hjq).
    exists j. split; [done|]. by apply lookup_app_l_Some.
  - destruct (H2 _ o q Hi Hq Hty) as (j & Hj & Hjq).
    exists (length l1 + j). split; [lia|].
    rewrite lookup_app_r by lia. by replace (length l1 + j - length l1) with j by lia.
Qed.

Lemma collected_nil (heap : list (Node Tensor)) fuel : collected heap fuel [] Graph_empty.
Proof.
  split.
  - intros r q Hr. by apply elem_of_nil in Hr.
  - intros [] q Hq; by apply elem_of_nil in Hq.
  - intros i o q Hi. done.
  - done.
Qed.

Lemma collected_cons (heap : list (Node Tensor)) fuel r roots c cs :
  collected heap fuel [r] c → collected heap fuel roots cs →
  collected heap fuel (r :: roots) (Graph_app c cs).
Proof.
  intros [A1 A2 A3 A4] [B1 B2 B3 B4]. split.
  - intros r' q Hr' Hreach. apply elem_of_cons in Hr' as [->|Hr'].
    + destruct (A1 r q) as (ty & Hty & Hin); [by left|done|].
      exists ty. split; [done|]. rewrite collection_of_app. apply elem_of_app. by left.
    + destruct (B1 r' q Hr' Hreach) as (ty & Hty & Hin).
      exists ty. split; [done|]. rewrite collection_of_app. apply elem_of_app. by right.
  - intros ty q Hq. rewrite collection_of_app in Hq. apply elem_of_app in Hq as [Hq|Hq].
    + destruct (A2 ty q Hq) as (Hty & r' & Hr' & Hreach). split; [done|].
      apply list_elem_of_singleton in Hr' as ->. exists r. split; [by left|done].
    + destruct (B2 ty q Hq) as (Hty & r' & Hr' & Hreach). split; [done|].
      exists r'. split; [by right|done].
  - by apply inputs_first_app.
  - intros q. rewrite occurrences_app, A4, B4. simpl. lia.
Qed.

Lemma foldM_collect (heap : list (Node Tensor)) fuel roots :
  (∀ r, r ∈ roots → ∃ c, (∀ g, collect fuel heap g r = Ok (Graph_app g c))
                         ∧ collected heap fuel [r] c) →
  ∃ cs, (∀ g, foldM (collect fuel heap) roots g = Ok (Graph_app g cs))
        ∧ collected heap fuel roots cs.
Proof.
  induction roots as [|r roots IH]; intros Hr.
  { exists Graph_empty. split; [|apply collected_nil].
    intros [a b c]. unfold Graph_app. simpl. by rewrite !app_nil_r. }
  destruct (Hr r) as (c & Hc & Hcol); [by left|].
  destruct IH as (cs & Hcs & Hcols).
  { intros r' Hr'. apply Hr. by right. }
  exists (Graph_app c cs). split; [|by apply collected_cons].
  intros g. simpl. rewrite Hc. simpl. by rewrite Hcs, Graph_app_assoc.
Qed.

Lemma inputs_at_Some (heap : list (Node Tensor)) p n : heap !! p = Some n → inputs_at heap p = input_nodes_of n.
Proof. unfold inputs_at. by intros ->. Qed.

Lemma reach_lt (heap : list (Node Tensor)) p q : reach heap p q → q < length heap.
Proof. by induction 1. Qed.

Lemma reach_inv (heap : list (Node Tensor)) p r :
  reach heap p r →
  (p = r ∧ p < length heap) ∨ ∃ q, q ∈ inputs_at heap p ∧ reach heap q r.
Proof. destruct 1; [left|right]; eauto. Qed.

Lemma collect_node (heap : list (Node Tensor)) (Hwf : heap_wf heap) fuel root :
  root < fuel → root < length heap →
  ∃ c, (∀ g, collect fuel heap g root = Ok (Graph_app g c))
       ∧ collected heap fuel [root] c.
Proof.
  revert root. induction fuel as [|fuel IH]; intros root Hfuel Hlen; [lia|].
  destruct (lookup_lt_is_Some_2 heap root Hlen) as [n Hn].
  destruct (Hwf root n Hn) as [Hin _].
  pose proof (inputs_at_Some heap root n Hn) as Hinputs.
  assert (Htype : type_at heap root = Some (getNodeType n)).
  { unfold type_at. by rewrite Hn. }
  destruct (cls n) as [name value grad rg|sh|kind inputs] eqn:Hcls.
  - (* Variable *)
    exists (mkGraph [] [root] []). split.
    + intros g. cbn [collect]. unfold lookup_node. rewrite Hn. simpl.
      unfold getNodeType. rewrite Hcls. simpl.
      destruct g as [a b c]. unfold Graph_app. simpl. by rewrite !app_nil_r.
    + assert (Hno : inputs_at heap root = []).
      { rewrite Hinputs. unfold input_nodes_of. by rewrite Hcls. }
      assert (Hty : getNodeType n = VARIABLE) by (unfold getNodeType; by rewrite Hcls).
      split.
      * intros r q Hr Hreach. apply list_elem_of_singleton in Hr as ->.
        apply reach_inv in Hreach as [[<- _]|(q' & Hq' & _)].
        -- exists VARIABLE. rewrite Htype, Hty. split; [done|]. simpl. by left.
        -- rewrite Hno in Hq'. by apply elem_of_nil in Hq'.
      * intros ty q Hq. destruct ty; simpl in Hq; try by apply elem_of_nil in Hq.
        apply list_elem_of_singleton in Hq as ->. rewrite Htype, Hty. split; [done|].
        exists root. split; [by left|by constructor].
      * intros i o q Hi. done.
      * intros q. unfold occurrences. simpl. rewrite Hno. simpl.
        destruct (Nat.eq_dec root q), (decide (root = q)); lia.
  - (* Placeholder *)
    exists (mkGraph [root] [] []). split.
    + intros g. cbn [collect]. unfold lookup_node. rewrite Hn. simpl.
      unfold getNodeType. rewrite Hcls. simpl.
      destruct g as [a b c]. unfold Graph_app. simpl. by rewrite !app_nil_r.
    + assert (Hno : inputs_at heap root = []).
      { rewrite Hinputs. unfold input_nodes_of. by rewrite Hcls. }
      assert (Hty : getNodeType n = PLACEHOLDER) by (unfold getNodeType; by rewrite Hcls).
      split.
      * intros r q Hr Hreach. apply list_elem_of_singleton in Hr as ->.
        apply reach_inv in Hreach as [[<- _]|(q' & Hq' & _)].
        -- exists PLACEHOLDER. rewrite Htype, Hty. split; [done|]. simpl. by left.
        -- rewrite Hno in Hq'. by apply elem_of_nil in Hq'.
      * intros ty q Hq. destruct ty; simpl in Hq; try by apply elem_of_nil in Hq.
        apply list_elem_of_singleton in Hq as ->. rewrite Htype, Hty. split; [done|].
        exists root. split; [by left|by constructor].
      * intros i o q Hi. done.
      * intros q. unfold occurrences. simpl. rewrite Hno. simpl.
        destruct (Nat.eq_dec root q), (decide (root = q)); lia.
  - (* Operation *)
    assert (Hty : getNodeType n = OPERATION) by (unfold getNodeType; by rewrite Hcls).
    assert (Hins : inputs_at heap root = inputs).
    { rewrite Hinputs. unfold input_nodes_of. by rewrite Hcls. }
    assert (Hin' : ∀ q, q ∈ inputs → q < root).
    { intros q Hq. apply Hin. unfold input_nodes_of. by rewrite Hcls. }
    destruct (foldM_collect heap fuel inputs) as (cs & Hcs & [C1 C2 C3 C4]).
    { intros r Hr. apply IH; specialize (Hin' r Hr); lia. }
    exists (Graph_app cs (mkGraph [] [] [root])). split.
    + intros g. cbn [collect]. unfold lookup_node. rewrite Hn. simpl.
      rewrite Hty. simpl. unfold input_nodes_of. rewrite Hcls.
      rewrite Hcs. simpl. unfold Graph_app. simpl. by rewrite !app_nil_r, !app_assoc.
    + split.
      * intros r q Hr Hreach. apply list_elem_of_singleton in Hr as ->.
        apply reach_inv in Hreach as [[<- _]|(q' & Hq' & Hreach')].
        -- exists OPERATION. rewrite Htype, Hty. split; [done|]. simpl.
           apply elem_of_app. right. by left.
        -- rewrite Hins in Hq'. destruct (C1 q' q Hq' Hreach') as (ty & Hqty & Hq).
           exists ty. split; [done|]. rewrite collection_of_app. apply elem_of_app. by left.
      * intros ty q Hq. rewrite collection_of_app in Hq. apply elem_of_app in Hq as [Hq|Hq].
        -- destruct (C2 ty q Hq) as (Hqty & r & Hr & Hreach). split; [done|].
           exists root. split; [by left|]. apply (reach_step _ _ r); [by rewrite Hins|done].
        -- destruct ty; simpl in Hq; try by apply elem_of_nil in Hq.
           apply list_elem_of_singleton in Hq as ->. rewrite Htype, Hty. split; [done|].
           exists root. split; [by left|by constructor].
      * cbn [operations Graph_app].
        intros i o q Hi Hq Hqty.
        apply lookup_app_Some in Hi as [Hi | [Hlen' Hi]].
        -- destruct (C3 i o q Hi Hq Hqty) as (j & Hj & Hjq).
           exists j. split; [done|]. by apply lookup_app_l_Some.
        -- apply list_lookup_singleton_Some in Hi as [Hi <-].
           rewrite Hins in Hq.
           destruct (C1 q q Hq) as (ty & Hqty' & Hqin).
           { constructor. specialize (Hin' q Hq). lia. }
           rewrite Hqty in Hqty'. injection Hqty' as <-. simpl in Hqin.
           apply list_elem_of_lookup in Hqin as [j Hj].
           exists j. split; [apply lookup_lt_Some in Hj; lia|].
           by apply lookup_app_l_Some.
      * intros q. rewrite occurrences_app, C4. cbn [npaths map sum_list].
        rewrite Hins. unfold occurrences. simpl.
        destruct (Nat.eq_dec root q), (decide (root = q)); lia.
Qed.

(** C4, as amended: from every root of a well-formed heap the traversal
    returns the three collections; every reachable node appears in the
    collection of its kind, once for every path from the root to it, and
    nothing else appears; every occurrence of an operation comes after an
    occurrence of each operation among its inputs. *)
Theorem collect_visits_once_per_path (heap : list (Node Tensor)) (root : nat) :
  heap_wf heap → root < length heap →
  ∃ g, collect (length heap) heap Graph_empty root = Ok g ∧
    (∀ q, reach heap root q → ∃ ty, type_at heap q = Some ty ∧ q ∈ collection_of g ty) ∧
    (∀ ty q, q ∈ collection_of g ty → type_at heap q = Some ty ∧ reach heap root q) ∧
    inputs_first heap (operations g) ∧
    (∀ q, occurrences g q = npaths (inputs_at heap) (length heap) root q).
Proof.
  intros Hwf Hroot.
  destruct (collect_node heap Hwf (length heap) root Hroot Hroot) as (c & Hc & [C1 C2 C3 C4]).
  exists c. split; [by rewrite Hc, Graph_app_empty_l|].
  split; [|split; [|split]].
  - intros q Hq. apply (C1 root); [by left|done].
  - intros ty q Hq. destruct (C2 ty q Hq) as (Hty & r & Hr & Hreach).
    apply list_elem_of_singleton in Hr as ->. done.
  - done.
  - intros q. rewrite C4. simpl. lia.
Qed.

Lemma same_graph_refl (h : list (Node Tensor)) : same_graph h h.
Proof. split; [done|]. intros p n Hn. by exists n. Qed.

Lemma same_graph_setOutput (h1 h2 : list (Node Tensor)) p n2 t :
  same_graph h1 h2 → h2 !! p = Some n2 →
  same_graph h1 (<[p := setOutput n2 t]> h2).
Proof.
  intros [Hlen Hs] Hp. split; [by rewrite length_insert|].
  intros q n1 Hq. destruct (Hs q n1 Hq) as (n2' & Hn2' & Hcls & Hcons).
  destruct (decide (p = q)) as [->|Hne].
  - rewrite list_lookup_insert_eq by (by apply lookup_lt_Some in Hp).
    eexists. split; [done|]. rewrite Hp in Hn2'. injection Hn2' as ->. done.
  - rewrite list_lookup_insert_ne by done. by exists n2'.
Qed.

Lemma lookup_node_Some (heap : list (Node Tensor)) p n :
  heap !! p = Some n → lookup_node heap p = Ok n.
Proof. unfold lookup_node. by intros ->. Qed.

Lemma getInputValues_acc (heap : list (Node Tensor)) inputs acc :
  (∀ q, q ∈ inputs → q < length heap) →
  ∃ vals, foldM (fun acc p => n ← lookup_node heap p; Ok (acc ++ [output n])) inputs acc
          = Ok (acc ++ vals) ∧ length vals = length inputs.
Proof.
  revert acc. induction inputs as [|q inputs IH]; intros acc Hin.
  { exists []. by rewrite app_nil_r. }
  destruct (lookup_lt_is_Some_2 heap q) as [n Hn]; [apply Hin; by left|].
  destruct (IH (acc ++ [output n])) as (vals & Hvals & Hlen).
  { intros q' Hq'. apply Hin. by right. }
  exists (output n :: vals). cbn [foldM]. rewrite (lookup_node_Some _ _ _ Hn).
  cbn [mbind result_bind]. rewrite Hvals. cbn [length]. split; [by rewrite <- app_assoc|]. by rewrite Hlen.
Qed.

Lemma getInputValues_ok (heap : list (Node Tensor)) inputs :
  (∀ q, q ∈ inputs → q < length heap) →
  ∃ vals, getInputValues heap inputs = Ok vals ∧ length vals = length inputs.
Proof. intros Hin. by apply (getInputValues_acc heap inputs []). Qed.

Lemma input_value_ok (vals : list Tensor) i :
  i < length vals → ∃ v, input_value vals i = Ok v.
Proof.
  intros Hi. destruct (lookup_lt_is_Some_2 vals i Hi) as [v Hv].
  exists v. unfold input_value. by rewrite Hv.
Qed.

(** [compute] ends when it finds the inputs it indexes and its kernel
    succeeds. *)
Lemma compute_ok kind (vals : list Tensor) :
  kernels_succeed → inputs_read kind ≤ length vals → ∃ out, compute kind vals = Ok out.
Proof.
  intros Hk Hlen.
  destruct kind; simpl in Hlen; unfold compute;
    repeat match goal with
           | |- context [input_value vals ?i] =>
               let v := fresh "v" in
               destruct (input_value_ok vals i) as [v ->]; [lia|]; cbn [mbind result_bind]
           end; apply Hk.
Qed.

(** One turn of the loop on an operation: the feed is not consulted. *)
Lemma run_node_operation (heap0 heap : list (Node Tensor)) p :
  same_graph heap0 heap → type_at heap0 p = Some OPERATION →
  ∃ r : result (list (Node Tensor)),
    (∀ feed, run_node (heap, feed) p = (h ← r; Ok (h, feed))) ∧
    (∀ h, r = Ok h → same_graph heap0 h ∧ ∀ q, q ≠ p → h !! q = heap !! q).
Proof.
  intros Hs Hty. unfold type_at in Hty.
  destruct (heap0 !! p) as [n0|] eqn:Hn0; [|done]. injection Hty as Hty.
  destruct (proj2 Hs p n0 Hn0) as (n & Hn & Hcls & _).
  unfold getNodeType in Hty.
  destruct (cls n0) as [| |kind inputs] eqn:Hcls0; try done.
  exists (vals ← getInputValues heap inputs; out ← compute kind vals;
          Ok (<[p := setOutput n out]> heap)).
  split.
  - intros feed. unfold run_node. rewrite (lookup_node_Some _ _ _ Hn).
    cbn [mbind result_bind]. rewrite Hcls.
    destruct (getInputValues heap inputs) as [vals|e]; [|done]. cbn [mbind result_bind].
    by destruct (compute kind vals) as [out|e].
  - intros h Hh.
    destruct (getInputValues heap inputs) as [vals|e]; [|done]. cbn [mbind result_bind] in Hh.
    destruct (compute kind vals) as [out|e]; [|done]. cbn [mbind result_bind] in Hh.
    injection Hh as <-. split; [by apply same_graph_setOutput|].
    intros q Hq. by rewrite list_lookup_insert_ne.
Qed.

Lemma run_operations heap0 ops :
  (∀ p, p ∈ ops → type_at heap0 p = Some OPERATION) →
  ∀ heap, same_graph heap0 heap →
  ∃ r : result (list (Node Tensor)),
    (∀ feed, foldM run_node ops (heap, feed) = (h ← r; Ok (h, feed))) ∧
    (∀ h, r = Ok h → same_graph heap0 h ∧ ∀ q, q ∉ ops → h !! q = heap !! q).
Proof.
  induction ops as [|p ops IH]; intros Hops heap Hs.
  { exists (Ok heap). split; [done|]. intros h Hh. injection Hh as <-. done. }
  destruct (run_node_operation heap0 heap p Hs) as (r1 & Hrun1 & Hok1); [apply Hops; by left|].
  destruct r1 as [h1|e].
  - destruct (Hok1 h1 eq_refl) as [Hs1 Hsame1].
    destruct (IH (fun q Hq => Hops q (list_elem_of_further _ _ _ Hq)) h1 Hs1)
      as (r & Hrun & Hok).
    exists r. split.
    + intros feed. cbn [foldM]. rewrite Hrun1. cbn [mbind result_bind]. apply Hrun.
    + intros h Hh. destruct (Hok h Hh) as [Hs' Hsame']. split; [done|].
      intros q Hq. rewrite Hsame', Hsame1; [done| |].
      * intros ->. apply Hq. by left.
      * intros Hq'. apply Hq. by right.
  - exists (Err e). split; [|done].
    intros feed. cbn [foldM]. by rewrite Hrun1.
Qed.

(** The loop ends when the operations find the inputs they index and the
    kernels succeed. *)
Lemma run_operations_complete heap0 ops :
  kernels_succeed → compute_ready heap0 →
  (∀ p, p ∈ ops → type_at heap0 p = Some OPERATION ∧
                  ∀ q, q ∈ inputs_at heap0 p → q < length heap0) →
  ∀ heap feed, same_graph heap0 heap →
  ∃ heap', foldM run_node ops (heap, feed) = Ok (heap', feed).
Proof.
  intros Hk Hready. induction ops as [|p ops IH]; intros Hops heap feed Hs.
  { by exists heap. }
  destruct (Hops p) as [Hty Hin]; [by left|].
  unfold type_at in Hty. destruct (heap0 !! p) as [n0|] eqn:Hn0; [|done].
  injection Hty as Hty. unfold getNodeType in Hty.
  destruct (cls n0) as [| |kind inputs] eqn:Hcls0; try done.
  destruct (proj2 Hs p n0 Hn0) as (n & Hn & Hcls & _). rewrite Hcls0 in Hcls.
  destruct (getInputValues_ok heap inputs) as (vals & Hvals & Hlen).
  { intros q Hq. rewrite <- (proj1 Hs). apply Hin.
    unfold inputs_at. rewrite Hn0. unfold input_nodes_of. by rewrite Hcls0. }
  destruct (compute_ok kind vals Hk) as [out Hout].
  { rewrite Hlen. by apply (Hready p n0). }
  destruct (IH (fun q Hq => Hops q (list_elem_of_further _ _ _ Hq))
              (<[p := setOutput n out]> heap) feed) as [heap' Hrun'].
  { by apply same_graph_setOutput. }
  exists heap'. cbn [foldM]. unfold run_node at 2. rewrite (lookup_node_Some _ _ _ Hn).
  cbn [mbind result_bind]. rewrite Hcls, Hvals. cbn [mbind result_bind].
  rewrite Hout. cbn [mbind result_bind]. exact Hrun'.
Qed.

Lemma reach_inputs_lt (heap : list (Node Tensor)) p q :
  heap_wf heap → p < length heap → q ∈ inputs_at heap p → q < length heap.
Proof.
  intros Hwf Hp Hq. destruct (lookup_lt_is_Some_2 heap p Hp) as [n Hn].
  destruct (Hwf p n Hn) as [Hin _]. rewrite (inputs_at_Some _ _ _ Hn) in Hq.
  specialize (Hin q Hq). lia.
Qed.

(** A session of a well-formed heap.  The run does not consult the feed;
    a run that ends has cached an output in nodes of [operations] only
    and leaves every other node, and the feed, as they were; and the run
    ends when the operations find the inputs they index and the kernels
    succeed. *)
Lemma run_completes (heap : list (Node Tensor)) root :
  heap_wf heap → root < length heap →
  ∃ s (r : result (list (Node Tensor))), Session_new heap root = Ok s ∧
    (∀ feed, run s heap feed = (h ← r; Ok (h, feed))) ∧
    (∀ h, r = Ok h →
       same_graph heap h ∧ ∀ q, type_at heap q ≠ Some OPERATION → h !! q = heap !! q) ∧
    (kernels_succeed → compute_ready heap → ∃ h, r = Ok h).
Proof.
  intros Hwf Hroot.
  destruct (collect_node heap Hwf (length heap) root Hroot Hroot) as (g & Hg & [_ Honly _ _]).
  specialize (Hg Graph_empty). rewrite Graph_app_empty_l in Hg.
  unfold Session_new. rewrite Hg. cbn [mbind result_bind]. eexists.
  destruct (run_operations heap (operations g)) with (heap := heap) as (r & Hrun & Hok).
  - intros p Hp. by destruct (Honly OPERATION p Hp).
  - apply same_graph_refl.
  - exists r. split; [done|]. split; [exact Hrun|]. split.
    + intros h Hh. destruct (Hok h Hh) as [Hs Hsame]. split; [done|].
      intros q Hq. apply Hsame. intros Hin. by destruct (Honly OPERATION q Hin).
    + intros Hk Hready.
      destruct (run_operations_complete heap (operations g) Hk Hready)
        with (heap := heap) (feed := (∅ : gmap nat Tensor)) as [h Hh].
      * intros p Hp. destruct (Honly OPERATION p Hp) as [Hty (r' & _ & Hreach)].
        split; [done|]. intros q Hq. apply (reach_inputs_lt heap p q Hwf); [|done].
        by apply reach_lt in Hreach.
      * apply same_graph_refl.
      * exists h. rewrite Hrun in Hh. destruct r as [h'|e]; [|done].
        cbn [mbind result_bind] in Hh. by injection Hh as ->.
Qed.


Lemma consumers_loop (heap : list (Node Tensor)) fuel cs :
  (∀ c, c ∈ cs → pure_call heap fuel c) →
  ∃ deltas trace,
    (∀ ds0 log,
       foldM (fun '(deltas, st) consumer =>
                '(delta, st) ← backward fuel consumer st;
                delta ← returned delta;
                Ok (deltas ++ [delta], st))
             cs (ds0, (heap, log))
       = Ok (ds0 ++ deltas, (heap, log ++ trace))) ∧
    (∀ q, count_occ Nat.eq_dec trace q
          = sum_list (map (fun c => npaths (consumers_at heap) fuel c q) cs)) ∧
    Forall2 (returns heap) cs deltas.
Proof.
  induction cs as [|c cs IH]; intros Hcs.
  { exists [], []. split; [|split; [done|constructor]].
    intros ds0 log. simpl. by rewrite !app_nil_r. }
  destruct (Hcs c) as (d & tr & Hd & Hcount & _); [by left|].
  destruct IH as (ds & trs & Hds & Hcounts & Hall).
  { intros c' Hc'. apply Hcs. by right. }
  exists (d :: ds), (tr ++ trs). split; [|split].
  - intros ds0 log. cbn [foldM]. rewrite Hd. simpl. rewrite Hds.
    by rewrite <- !app_assoc.
  - intros q. rewrite count_occ_app, Hcount, Hcounts. done.
  - constructor; [|done]. by exists fuel, tr.
Qed.

Lemma Node_backward_pure (heap : list (Node Tensor)) fuel (n : Node Tensor) :
  (∀ c, c ∈ consumers n → pure_call heap fuel c) →
  ∃ deltas trace,
    (∀ log, Node_backward (backward fuel) n (heap, log)
            = Ok (fold_left tensor_plus deltas accumulate_init, (heap, log ++ trace))) ∧
    (∀ q, count_occ Nat.eq_dec trace q
          = sum_list (map (fun c => npaths (consumers_at heap) fuel c q) (consumers n))) ∧
    Forall2 (returns heap) (consumers n) deltas.
Proof.
  intros Hcs. destruct (consumers_loop heap fuel (consumers n) Hcs) as (ds & tr & Hds & Hc & Hall).
  exists ds, tr. split; [|done].
  intros log. unfold Node_backward. by rewrite Hds.
Qed.

Lemma count_occ_singleton (x q : nat) :
  count_occ Nat.eq_dec [x] q = if decide (x = q) then 1 else 0.
Proof. simpl. destruct (Nat.eq_dec x q), (decide (x = q)); done. Qed.

Lemma backward_inherits fuel (heap : list (Node Tensor)) c n kind inputs log :
  heap !! c = Some n → cls n = COperation kind inputs → inherits_backward kind = true →
  backward (S fuel) c (heap, log)
  = ('(delta, st) ← Node_backward (backward fuel) n (heap, log ++ [c]); Ok (Some delta, st)).
Proof.
  intros Hn Hcls Hinh. cbn [backward fst snd]. rewrite (lookup_node_Some _ _ _ Hn).
  simpl. rewrite Hcls. by destruct kind.
Qed.

(** A call on an operation. *)
Lemma backward_operation (heap : list (Node Tensor)) (Hwf : heap_wf heap) (Har : arity_ok heap) fuel c :
  length heap ≤ c + fuel → c < length heap →
  type_at heap c = Some OPERATION → pure_call heap fuel c.
Proof.
  revert c. induction fuel as [|fuel IH]; intros c Hfuel Hc Hty; [lia|].
  unfold type_at in Hty. destruct (heap !! c) as [n|] eqn:Hn; [|done].
  injection Hty as Hty. unfold getNodeType in Hty.
  destruct (cls n) as [| |kind inputs] eqn:Hcls; try done.
  destruct (Hwf c n Hn) as [Hin Hcons].
  pose proof (Har c n kind inputs Hn Hcls) as Hneed.
  assert (Hcalls : ∀ c', c' ∈ consumers n → pure_call heap fuel c').
  { intros c' Hc'. destruct (Hcons c' Hc') as (Hlt & nc & Hnc & Htyc).
    apply IH; [lia|by apply lookup_lt_Some in Hnc|]. unfold type_at. rewrite Hnc. simpl. by rewrite Htyc. }
  destruct (Node_backward_pure heap fuel n Hcalls) as (ds & tr & Hds & Hcount & Hall).
  destruct (getInputValues_ok heap inputs) as (vals & Hvals & Hlen).
  { intros q Hq. assert (q < c); [|lia]. apply Hin. unfold input_nodes_of. by rewrite Hcls. }
  assert (Hca : consumers_at heap c = if stops_backward kind then [] else consumers n).
  { unfold consumers_at. by rewrite Hn, Hcls. }
  unfold pure_call.
  destruct (inherits_backward kind) eqn:Hinh.
  { exists (fold_left tensor_plus ds accumulate_init), (c :: tr).
    assert (Hstop : stops_backward kind = false) by (by destruct kind).
    rewrite Hstop in Hca.
    split; [|split].
    - intros log. rewrite (backward_inherits fuel heap c n kind inputs log Hn Hcls Hinh).
      rewrite Hds. cbn [mbind result_bind]. by rewrite <- app_assoc.
    - intros q. cbn [npaths]. rewrite Hca, <- Hcount.
      change (c :: tr) with ([c] ++ tr). by rewrite count_occ_app, count_occ_singleton.
    - intros n' Hn' _. rewrite Hn in Hn'. injection Hn' as <-. by exists ds. }
  destruct kind; try discriminate Hinh; simpl in Hneed, Hca.
  - (* Conv2D *)
    destruct (input_value_ok vals 0) as [x Hx]; [lia|].
    destruct (input_value_ok vals 1) as [f Hf]; [lia|].
    destruct (input_value_ok vals 2) as [b Hb]; [lia|].
    exists (conv_delta width stride (fold_left tensor_plus ds accumulate_init) f), (c :: tr).
    split; [|split].
    + intros log. cbn [backward fst snd]. rewrite (lookup_node_Some _ _ _ Hn).
      simpl. rewrite Hcls. simpl. rewrite Hds. simpl. rewrite Hvals. simpl.
      rewrite Hx, Hf, Hb. simpl. by rewrite <- app_assoc.
    + intros q. cbn [npaths]. rewrite Hca, <- Hcount.
      change (c :: tr) with ([c] ++ tr). by rewrite count_occ_app, count_occ_singleton.
    + intros n' Hn'. rewrite Hn in Hn'. injection Hn' as <-.
      unfold plain_backward. by rewrite Hcls.
  - (* Conv3D *)
    destruct (input_value_ok vals 0) as [x Hx]; [lia|].
    destruct (input_value_ok vals 1) as [f Hf]; [lia|].
    destruct (input_value_ok vals 2) as [b Hb]; [lia|].
    exists (conv_delta width stride (fold_left tensor_plus ds accumulate_init) f), (c :: tr).
    split; [|split].
    + intros log. cbn [backward fst snd]. rewrite (lookup_node_Some _ _ _ Hn).
      simpl. rewrite Hcls. simpl. rewrite Hds. simpl. rewrite Hvals. simpl.
      rewrite Hx, Hf, Hb. simpl. by rewrite <- app_assoc.
    + intros q. cbn [npaths]. rewrite Hca, <- Hcount.
      change (c :: tr) with ([c] ++ tr). by rewrite count_occ_app, count_occ_singleton.
    + intros n' Hn'. rewrite Hn in Hn'. injection Hn' as <-.
      unfold plain_backward. by rewrite Hcls.
  - (* ReLU *)
    destruct (input_value_ok vals 0) as [x Hx]; [lia|].
    exists (grad_relu x), (c :: tr).
    split; [|split].
    + intros log. cbn [backward fst snd]. rewrite (lookup_node_Some _ _ _ Hn).
      simpl. rewrite Hcls. simpl. rewrite Hds. simpl. rewrite Hvals. simpl.
      rewrite Hx. simpl. by rewrite <- app_assoc.
    + intros q. cbn [npaths]. rewrite Hca, <- Hcount.
      change (c :: tr) with ([c] ++ tr). by rewrite count_occ_app, count_occ_singleton.
    + intros n' Hn'. rewrite Hn in Hn'. injection Hn' as <-.
      unfold plain_backward. by rewrite Hcls.
  - (* LeakyReLU *)
    destruct (input_value_ok vals 0) as [x Hx]; [lia|].
    exists (grad_leaky_relu x max_value threshold negative_slop), [c].
    split; [|split].
    + intros log. cbn [backward fst snd]. rewrite (lookup_node_Some _ _ _ Hn).
      simpl. rewrite Hcls. simpl. rewrite Hvals. simpl.
      rewrite Hx. done.
    + intros q. cbn [npaths]. rewrite Hca. simpl.
      destruct (Nat.eq_dec c q), (decide (c = q)); lia.
    + intros n' Hn'. rewrite Hn in Hn'. injection Hn' as <-.
      unfold plain_backward. by rewrite Hcls.
  - (* MSE *)
    destruct (input_value_ok vals 0) as [x Hx]; [lia|].
    destruct (input_value_ok vals 1) as [y Hy]; [lia|].
    exists (tensor_minus x y), [c].
    split; [|split].
    + intros log. cbn [backward fst snd]. rewrite (lookup_node_Some _ _ _ Hn).
      simpl. rewrite Hcls. simpl. rewrite Hvals. simpl.
      rewrite Hx, Hy. done.
    + intros q. cbn [npaths]. rewrite Hca. simpl.
      destruct (Nat.eq_dec c q), (decide (c = q)); lia.
    + intros n' Hn'. rewrite Hn in Hn'. injection Hn' as <-.
      unfold plain_backward. by rewrite Hcls.
  - (* CrossEntrpy *)
    destruct (input_value_ok vals 0) as [x Hx]; [lia|].
    destruct (input_value_ok vals 1) as [y Hy]; [lia|].
    exists (tensor_minus x y), [c].
    split; [|split].
    + intros log. cbn [backward fst snd]. rewrite (lookup_node_Some _ _ _ Hn).
      simpl. rewrite Hcls. simpl. rewrite Hvals. simpl.
      rewrite Hx, Hy. done.
    + intros q. cbn [npaths]. rewrite Hca. simpl.
      destruct (Nat.eq_dec c q), (decide (c = q)); lia.
    + intros n' Hn'. rewrite Hn in Hn'. injection Hn' as <-.
      unfold plain_backward. by rewrite Hcls.
Qed.


Lemma heap_wfb_sound (heap : list (Node Tensor)) : heap_wfb heap = true → heap_wf heap.
Proof.
  intros Hb p n Hn. unfold heap_wfb in Hb. rewrite forallb_forall in Hb.
  specialize (Hb p). unfold node_wfb in Hb. rewrite Hn in Hb.
  apply andb_prop in Hb as [Hin Hcons].
  { rewrite forallb_forall in Hin, Hcons. split.
    - intros q Hq. apply list_elem_of_In, Hin, Nat.ltb_lt in Hq. done.
    - intros c Hc. apply list_elem_of_In, Hcons, andb_prop in Hc as [Hlt Hc].
      apply Nat.ltb_lt in Hlt. split; [done|].
      destruct (heap !! c) as [nc|]; [|done]. exists nc. split; [done|].
      by apply bool_decide_eq_true_1 in Hc. }
  apply in_seq. apply lookup_lt_Some in Hn. lia.
Qed.

Lemma arity_okb_sound (heap : list (Node Tensor)) : arity_okb heap = true → arity_ok heap.
Proof.
  intros Hb p n kind inputs Hn Hcls. unfold arity_okb in Hb.
  rewrite forallb_forall in Hb. specialize (Hb n).
  unfold node_arityb in Hb. rewrite Hcls in Hb. apply Nat.leb_le, Hb.
  apply list_elem_of_In, list_elem_of_lookup. eauto.
Qed.

Lemma compute_readyb_sound (heap : list (Node Tensor)) :
  compute_readyb heap = true → compute_ready heap.
Proof.
  intros Hb p n kind inputs Hn Hcls. unfold compute_readyb in Hb.
  rewrite forallb_forall in Hb. specialize (Hb n).
  unfold node_readyb in Hb. rewrite Hcls in Hb. apply Nat.leb_le, Hb.
  apply list_elem_of_In, list_elem_of_lookup. eauto.
Qed.

End GraphFacts.

(** * Construction *)

Section Construction.
Context {Tensor : Type} `{TensorOps Tensor}.

Lemma heap_wf_snoc_leaf (heap : list (Node Tensor)) n :
  heap_wf heap → input_nodes_of n = [] → consumers n = [] → heap_wf (heap ++ [n]).
Proof.
  intros Hwf Hin Hcons p n' Hp.
  apply lookup_app_Some in Hp as [Hp | [Hlen Hp]].
  - destruct (Hwf p n' Hp) as [Hi Hc]. split; [done|].
    intros c Hcin. destruct (Hc c Hcin) as (Hlt & nc & Hnc & Hty).
    split; [done|]. exists nc. split; [|done]. by apply lookup_app_l_Some.
  - apply list_lookup_singleton_Some in Hp as [_ <-]. rewrite Hin, Hcons.
    split; intros q Hq; by apply elem_of_nil in Hq.
Qed.

Lemma new_Placeholder_wf (heap : list (Node Tensor)) sh :
  heap_wf heap → heap_wf (new_Placeholder heap sh).2.
Proof. intros Hwf. by apply heap_wf_snoc_leaf. Qed.

Lemma new_Variable_wf (heap : list (Node Tensor)) name sh rg :
  heap_wf heap → heap_wf (new_Variable heap name sh rg).2.
Proof. intros Hwf. by apply heap_wf_snoc_leaf. Qed.

Lemma add_consumer_wf (heap : list (Node Tensor)) this input :
  heap_wf heap → input < this → type_at heap this = Some OPERATION →
  ∃ heap', add_consumer this heap input = Ok heap' ∧ heap_wf heap' ∧
    length heap' = length heap ∧ type_at heap' this = Some OPERATION.
Proof.
  intros Hwf Hlt Hthis.
  assert (Hin : input < length heap).
  { unfold type_at in Hthis. destruct (heap !! this) eqn:Ht; [|done].
    apply lookup_lt_Some in Ht. lia. }
  destruct (lookup_lt_is_Some_2 heap input Hin) as [n Hn].
  unfold add_consumer. rewrite (lookup_node_Some _ _ _ Hn). simpl.
  eexists. split; [done|].
  assert (Hty : ∀ c, type_at (<[input:=mkNode (output n) (consumers n ++ [this]) (cls n)]> heap) c
                     = type_at heap c).
  { intros c. unfold type_at. destruct (decide (input = c)) as [<-|Hne].
    - rewrite list_lookup_insert_eq by done. by rewrite Hn.
    - by rewrite list_lookup_insert_ne. }
  split; [|split; [by rewrite length_insert|by rewrite Hty]].
  intros p n' Hp.
  assert (Hcons_ok : ∀ c nc, heap !! c = Some nc → getNodeType nc = OPERATION →
    ∃ nc', <[input:=mkNode (output n) (consumers n ++ [this]) (cls n)]> heap !! c = Some nc'
           ∧ getNodeType nc' = OPERATION).
  { intros c nc Hc Htyc. specialize (Hty c). unfold type_at in Hty. rewrite Hc in Hty.
    simpl in Hty. destruct (_ !! c) as [nc'|]; [|done]. exists nc'. split; [done|].
    injection Hty as ->. done. }
  destruct (decide (input = p)) as [<-|Hne].
  - rewrite list_lookup_insert_eq in Hp by done. injection Hp as <-.
    destruct (Hwf input n Hn) as [Hi Hc]. split; [done|].
    intros c Hcin. simpl in Hcin. apply elem_of_app in Hcin as [Hcin|Hcin].
    + destruct (Hc c Hcin) as (Hlt' & nc & Hnc & Htyc). split; [done|]. by apply (Hcons_ok c nc).
    + apply list_elem_of_singleton in Hcin as ->. split; [done|].
      unfold type_at in Hthis. destruct (heap !! this) as [nt|] eqn:Ht; [|done].
      apply (Hcons_ok this nt Ht). by injection Hthis.
  - rewrite list_lookup_insert_ne in Hp by done.
    destruct (Hwf p n' Hp) as [Hi Hc]. split; [done|].
    intros c Hcin. destruct (Hc c Hcin) as (Hlt' & nc & Hnc & Htyc).
    split; [done|]. by apply (Hcons_ok c nc).
Qed.

Lemma add_consumers_wf (heap : list (Node Tensor)) this inputs :
  heap_wf heap → (∀ q, q ∈ inputs → q < this) → type_at heap this = Some OPERATION →
  ∃ heap', foldM (add_consumer this) inputs heap = Ok heap' ∧ heap_wf heap' ∧
    length heap' = length heap.
Proof.
  revert heap. induction inputs as [|q inputs IH]; intros heap Hwf Hin Hthis.
  { by exists heap. }
  destruct (add_consumer_wf heap this q Hwf) as (h1 & Hh1 & Hwf1 & Hlen1 & Hthis1);
    [apply Hin; by left|done|].
  destruct (IH h1 Hwf1) as (h2 & Hh2 & Hwf2 & Hlen2); [intros q' Hq'; apply Hin; by right|done|].
  exists h2. simpl. rewrite Hh1. simpl. rewrite Hh2. split; [done|]. split; [done|]. lia.
Qed.

(** The constructors keep heaps well-formed: an operation over nodes that
    exist is allocated and registered with each of them. *)
Lemma new_Operation_wf (heap : list (Node Tensor)) kind inputs :
  heap_wf heap → (∀ q, q ∈ inputs → q < length heap) →
  ∃ heap', new_Operation heap kind inputs = Ok (length heap, heap') ∧ heap_wf heap' ∧
    length heap' = S (length heap).
Proof.
  intros Hwf Hin. unfold new_Operation.
  destruct (add_consumers_wf (heap ++ [mkNode tensor_default [] (COperation kind inputs)])
              (length heap) inputs) as (heap' & Hfold & Hwf' & Hlen').
  - intros p n Hp. apply lookup_app_Some in Hp as [Hp | [Hlen Hp]].
    + destruct (Hwf p n Hp) as [Hi Hc]. split; [done|].
      intros c Hcin. destruct (Hc c Hcin) as (Hlt & nc & Hnc & Hty).
      split; [done|]. exists nc. split; [|done]. by apply lookup_app_l_Some.
    + apply list_lookup_singleton_Some in Hp as [Hp <-]. simpl. split.
      * intros q Hq. specialize (Hin q Hq). lia.
      * intros c Hc. by apply elem_of_nil in Hc.
  - done.
  - unfold type_at. rewrite lookup_app_r by done. by rewrite Nat.sub_diag.
  - exists heap'. rewrite Hfold. simpl. split; [done|]. split; [done|].
    rewrite Hlen', length_app. simpl. lia.
Qed.

Lemma heap_wf_nil : heap_wf ([] : list (Node Tensor)).
Proof. intros p n Hp. done. Qed.
End Construction.

(** * Concrete graphs *)

Lemma diamond_graph_heap : diamond_graph = Ok diamond_heap.
Proof. reflexivity. Qed.

Lemma affine_heap_built : affine = Ok affine_heap.
Proof. reflexivity. Qed.

Lemma conv_graph_heap : conv_graph = Ok conv_heap.
Proof. reflexivity. Qed.

Lemma chain_graph_heap : chain_graph = Ok chain_heap.
Proof. reflexivity. Qed.

Lemma kernels_succeed_sym : kernels_succeed (Tensor := sym).
Proof. intros kind args. by eexists. Qed.

(** A convolution built by its constructor has one input, and both its
    [compute] and its [backward] index three: the heap is well-formed, and
    the run and the backward pass leave the vector of input values. *)
Lemma conv_indexes_outside :
  heap_wf conv_heap ∧
  (s ← Session_new conv_heap 1; run s conv_heap ∅) = Err OutOfBounds ∧
  backward 2 1 (conv_heap, []) = Err OutOfBounds.
Proof. split; [apply heap_wfb_sound; reflexivity|]. split; reflexivity. Qed.

(** The [backward] of LeakyReLU does not call its consumers: on the
    chain the root [S] is never entered, although one path of consumers
    leads from [X] to it. *)
Lemma backward_stops_at_LeakyReLU :
  npaths (fun p => match chain_heap !! p with Some n => consumers n | None => [] end) 3 0 2 = 1 ∧
  backward 3 0 (chain_heap, [])
  = Ok (Some (SPlus SInit (SGradLeakyRelu SDefault 6 0 (1 # 10))), (chain_heap, [0; 1])).
Proof. split; reflexivity. Qed.

(** C4, the statement fails on the diamond: the placeholder is collected
    twice. *)
Lemma collect_diamond_twice :
  collect (length diamond_heap) diamond_heap Graph_empty 3
  = Ok (mkGraph [0; 0] [] [1; 2; 3]).
Proof. reflexivity. Qed.

Lemma collect_visits_once_per_path_witness :
  heap_wf diamond_heap ∧
  ∃ g, collect (length diamond_heap) diamond_heap Graph_empty 3 = Ok g ∧
    (∀ q, reach diamond_heap 3 q → ∃ ty, type_at diamond_heap q = Some ty ∧ q ∈ collection_of g ty) ∧
    (∀ ty q, q ∈ collection_of g ty → type_at diamond_heap q = Some ty ∧ reach diamond_heap 3 q) ∧
    inputs_first diamond_heap (operations g) ∧
    (∀ q, occurrences g q = npaths (inputs_at diamond_heap) (length diamond_heap) 3 q).
Proof.
  split.
  - apply heap_wfb_sound. reflexivity.
  - apply (collect_visits_once_per_path diamond_heap 3).
    + apply heap_wfb_sound. reflexivity.
    + simpl. lia.
Defined.

(** C3, at the failing input: with the placeholder fed, the run leaves the placeholder and the
    variable at their default output and computes the sum from those. *)
Theorem run_skips_placeholders_and_variables :
  (s ← Session_new affine_heap 2; run s affine_heap {[ 0 := SFed 7 ]})
  = Ok ([ mkNode SDefault [2] (CPlaceholder (mkShape 1 1 1 1 1));
          mkNode SDefault [2] (CVariable "w" (SRandom (mkShape 1 1 1 1 1)) SZeros true);
          mkNode (SCompute Add [SDefault; SDefault]) [] (COperation Add [0; 1]) ],
        {[ 0 := SFed 7 ]}).
Proof. reflexivity. Qed.





(** * Copies, transposition and reshaping *)

Section ShapeOpsFacts.
Context {T : Type} `{Scalar T}.

Lemma tensor_of_cells (t : Tensor T) :
  tensor_ok t → mkTensor (shape t) (map (at_pos t) (indices (shape t))) = t.
Proof.
  intros Hok. apply tensor_eq_positions; [done|].
  intros i j k l m Hin. by apply at_pos_ok.
Qed.

Lemma foreach_assign_cells (out : Tensor T) func (g : Pos → T) :
  tensor_ok out →
  (∀ p, in_shape_pos (shape out) p →
     (let '(i, j, k, l, m) := p in func i j k l m) = Ok (g p)) →
  foreach_assign out func = Ok (mkTensor (shape out) (map g (indices (shape out)))).
Proof.
  intros Hok Hf. apply foreach_assign_spec; [done|].
  intros i j k l m Hin. apply (Hf (i, j, k, l, m) Hin).
Qed.

Lemma mapped_tensor_ok sh (g : Pos → T) : tensor_ok (mkTensor sh (map g (indices sh))).
Proof. unfold tensor_ok. simpl. by rewrite length_map, length_indices. Qed.

(** X1: the copy constructor returns a tensor equal to its argument. *)
Theorem Tensor_copy_equal (t : Tensor T) :
  tensor_ok t → Tensor_copy t = Ok t.
Proof.
  intros Hok. unfold Tensor_copy.
  rewrite (foreach_assign_cells _ _ (at_pos t)).
  - simpl. by rewrite tensor_of_cells.
  - apply Tensor_new_ok.
  - intros [[[[i j] k] l] m] Hin. by apply at_pos_ok.
Qed.

Lemma Transpose_spec (t : Tensor T) :
  tensor_wf t →
  Transpose t = Ok (mkTensor (transposed_shape (shape t))
                      (map (fun p => at_pos t (swap_last p)) (indices (transposed_shape (shape t))))).
Proof.
  intros [Hsh Hok]. unfold Transpose, Shape_new.
  rewrite bool_decide_eq_true_2 by (unfold shape_ok in Hsh; lia). simpl.
  apply (foreach_assign_cells (Tensor_new (transposed_shape (shape t)))).
  - apply Tensor_new_ok.
  - intros [[[[i j] k] l] m] Hin. apply at_pos_ok; [done|].
    unfold in_shape_pos, in_shape, transposed_shape in *. simpl in *. lia.
Qed.

(** X2: [Transpose] is [permute] with the order 0, 1, 2, 4, 3, and
    transposing twice returns the tensor. *)
Theorem Transpose_involution (t : Tensor T) :
  tensor_wf t →
  Transpose t = permute t [0; 1; 2; 4; 3] ∧
  (Transpose t ≫= Transpose) = Ok t.
Proof.
  intros Hwf. pose proof Hwf as [Hsh Hok]. split.
  - rewrite Transpose_spec by done. unfold permute. simpl. unfold Shape_new.
    rewrite bool_decide_eq_true_2 by (unfold shape_ok in Hsh; lia). simpl.
    rewrite zeros_spec. simpl. symmetry.
    apply (foreach_assign_cells (mkTensor (transposed_shape (shape t)) _)).
    + unfold tensor_ok. simpl. by rewrite length_replicate.
    + intros [[[[i j] k] l] m] Hin. simpl. apply at_pos_ok; [done|].
      unfold in_shape_pos, in_shape, transposed_shape in *. simpl in *. lia.
  - rewrite Transpose_spec by done. simpl.
    rewrite Transpose_spec.
    2:{ split; [|apply mapped_tensor_ok]. unfold shape_ok, transposed_shape in *. simpl. lia. }
    simpl. f_equal.
    replace (transposed_shape (transposed_shape (shape t))) with (shape t)
      by (by destruct (shape t)).
    rewrite <- (tensor_of_cells t) at 3 by done. f_equal.
    apply map_ext_in. intros [[[[i j] k] l] m] Hin.
    apply list_elem_of_In, elem_of_indices in Hin.
    rewrite at_pos_map_indices; [done|].
    unfold in_shape_pos, in_shape, transposed_shape in *. simpl in *. lia.
Qed.

(** A buffer read cell by cell up to [n] is its prefix of length [n]. *)
Lemma map_lookup_seq (l : list T) n :
  n ≤ length l → map (fun i => or_zero (of_option (l !! i))) (seq 0 n) = take n l.
Proof.
  intros Hn. apply list_eq. intros i.
  change (map ?f ?l) with (f <$> l). rewrite list_lookup_fmap.
  destruct (decide (i < n)) as [Hi|Hi].
  - rewrite lookup_seq_lt, lookup_take_lt by done. simpl.
    destruct (lookup_lt_is_Some_2 l i) as [x Hx]; [lia|]. by rewrite Hx.
  - rewrite lookup_seq_ge, lookup_take_ge by lia. done.
Qed.

Lemma reshape_prefix (this : Tensor T) shape_out :
  Shape_size shape_out ≤ length (data this) →
  reshape this shape_out
  = Ok (mkTensor shape_out (take (Shape_size shape_out) (data this))).
Proof.
  intros Hlen. unfold reshape. rewrite zeros_spec. simpl.
  rewrite (foreach_assign_cells _ _
    (fun p => or_zero (of_option (data this !! sub2ind_pos shape_out p)))).
  - simpl. f_equal. f_equal.
    rewrite <- (map_map (sub2ind_pos shape_out)
                  (fun i => or_zero (of_option (data this !! i)))).
    rewrite sub2ind_indices. by apply map_lookup_seq.
  - unfold tensor_ok. simpl. by rewrite length_replicate.
  - intros [[[[i j] k] l] m] Hin. simpl in *. unfold get.
    destruct (lookup_lt_is_Some_2 (data this) (sub2ind shape_out i j k l m)) as [x Hx].
    { pose proof (sub2ind_lt shape_out (i, j, k, l, m) Hin). simpl in *. lia. }
    by rewrite Hx.
Qed.

(** X3: [reshape] to a shape with the same number of cells keeps the
    buffer and replaces the shape; reshaping back returns the tensor. *)
Theorem reshape_roundtrip (this : Tensor T) shape_out :
  tensor_ok this → Shape_size shape_out = Shape_size (shape this) →
  reshape this shape_out = Ok (mkTensor shape_out (data this)) ∧
  (reshape this shape_out ≫= fun t => reshape t (shape this)) = Ok this.
Proof.
  intros Hok Hsize.
  assert (Hr : reshape this shape_out = Ok (mkTensor shape_out (data this))).
  { rewrite reshape_prefix by (rewrite Hok; lia).
    rewrite Hsize, <- Hok. by rewrite firstn_all. }
  split; [done|]. rewrite Hr. simpl.
  rewrite reshape_prefix by (simpl; rewrite Hok; lia).
  simpl. rewrite <- Hok, firstn_all. by destruct this.
Qed.

Lemma writes_succeed {X} (L : list X) (idx : Shape → X → nat) (func : X → result T) sh dat :
  (∀ x, x ∈ L → ∃ v, func x = Ok v) →
  (∀ x, x ∈ L → idx sh x < length dat) →
  ∃ dat', foldM (fun o x => v ← func x; set_idx o v (idx (shape o) x)) L (mkTensor sh dat)
          = Ok (mkTensor sh dat') ∧ length dat' = length dat.
Proof.
  revert dat. induction L as [|x L IH]; intros dat Hf Hidx.
  { by exists dat. }
  destruct (Hf x) as [v Hv]; [by left|].
  destruct (IH (<[idx sh x := v]> dat)) as (dat' & Hfold & Hlen).
  { intros y Hy. apply Hf. by right. }
  { intros y Hy. rewrite length_insert. apply Hidx. by right. }
  exists dat'. cbn [foldM]. rewrite Hv. simpl. unfold set_idx. simpl.
  rewrite bool_decide_eq_true_2 by (apply Hidx; by left). simpl.
  split; [done|]. by rewrite Hlen, length_insert.
Qed.

Lemma foldM_stops {A B} (f : A → B → result A) l1 b l2 a a1 e :
  foldM f l1 a = Ok a1 → f a1 b = Err e → foldM f (l1 ++ b :: l2) a = Err e.
Proof.
  intros H1 Hb. rewrite foldM_app, H1. simpl. by rewrite Hb.
Qed.

(** X4: [reshape] does not compare the numbers of cells.  A shape with
    fewer cells silently keeps the prefix of the buffer; a shape with more
    cells reads outside the buffer. *)
Theorem reshape_unchecked (this : Tensor T) shape_out :
  tensor_ok this →
  (Shape_size shape_out ≤ Shape_size (shape this) →
   reshape this shape_out
   = Ok (mkTensor shape_out (take (Shape_size shape_out) (data this)))) ∧
  (Shape_size (shape this) < Shape_size shape_out →
   reshape this shape_out = Err OutOfBounds).
Proof.
  intros Hok. split.
  - intros Hle. apply reshape_prefix. rewrite Hok. lia.
  - intros Hlt. unfold reshape. rewrite zeros_spec. simpl.
    unfold foreach_assign. rewrite foreach_foldM. simpl.
    set (n := length (data this)).
    assert (Hn : n < length (indices shape_out)).
    { rewrite length_indices. unfold n. rewrite Hok. lia. }
    destruct (lookup_lt_is_Some_2 _ _ Hn) as [p Hp].
    rewrite <- (take_drop_middle (indices shape_out) n p Hp).
    destruct (writes_succeed (take n (indices shape_out)) sub2ind_pos
      (fun '(i, j, k, l, m) => get this (sub2ind shape_out i j k l m))
      shape_out (replicate (Shape_size shape_out) zero)) as (dat' & Hfold & _).
    { intros x Hx. apply list_elem_of_lookup in Hx as [i Hi].
      apply lookup_take_Some in Hi as [Hi Hin].
      apply indices_lookup_inv in Hi as [Hs _]. destruct x as [[[[a b] c] d] e].
      simpl in Hs. rewrite Hs. unfold get.
      destruct (lookup_lt_is_Some_2 (data this) i Hin) as [v Hv]. exists v. by rewrite Hv. }
    { intros x Hx. rewrite length_replicate. apply sub2ind_lt, elem_of_indices.
      by apply (subseteq_take n) in Hx. }
    eapply foldM_stops.
    + etrans; [|exact Hfold]. apply foldM_ext. by intros [[[[a b] c] d] e] o _.
    + apply indices_lookup_inv in Hp as [Hs _]. destruct p as [[[[a b] c] d] e].
      simpl in Hs |- *. rewrite Hs. unfold get, n.
      by rewrite (lookup_ge_None_2 (data this)).
Qed.
End ShapeOpsFacts.

(** * Elementwise operations *)

Section BinaryFacts.
Context {T : Type} `{Scalar T}.

(** The binary operator on the first differing axis [axis]: the right
    operand is read at index 0 of that axis. *)
Lemma foreach_assign_axis (this tensor : Tensor T) (func : T → T → T) axis :
  first_diff_axis (shape this) (shape tensor) = Some axis →
  __foreach_assign_ this tensor func
  = foreach_assign (Tensor_new (shape tensor)) (fun s f i j c =>
      a ← at_ this s f i j c;
      b ← (let '(s', f', i', j', c') := collapse axis (s, f, i, j, c) in at_ tensor s' f' i' j' c');
      Ok (func a b)).
Proof.
  intros Hax. unfold __foreach_assign_. rewrite Hax.
  assert (axis ≤ 4).
  { unfold first_diff_axis in Hax. repeat case_bool_decide; simplify_eq; lia. }
  by destruct axis as [|[|[|[|[|axis]]]]]; [| | | | |lia].
Qed.

(** X5: when the left operand is at least as large as the right one on
    every axis and the shapes differ, the binary operator returns a
    tensor of the right operand's shape: its cell at a position is [func]
    of the left operand's cell there and of the right operand's cell at
    index 0 of the first differing axis.  The cells of the left operand
    outside the right operand's shape are dropped. *)
Theorem foreach_assign_left_larger (this tensor : Tensor T) (func : T → T → T) axis :
  tensor_ok this → tensor_ok tensor →
  fits_in (shape tensor) (shape this) →
  first_diff_axis (shape this) (shape tensor) = Some axis →
  ∃ out, __foreach_assign_ this tensor func = Ok out ∧
    shape out = shape tensor ∧ tensor_ok out ∧
    ∀ p, in_shape_pos (shape tensor) p →
      at_pos out p = func (at_pos this p) (at_pos tensor (collapse axis p)).
Proof.
  intros Hthis Htensor Hfit Hax. rewrite (foreach_assign_axis _ _ _ axis Hax).
  rewrite (foreach_assign_cells _ _
    (fun p => func (at_pos this p) (at_pos tensor (collapse axis p)))).
  - eexists. split; [done|]. split; [done|]. split; [apply mapped_tensor_ok|].
    intros p Hp. simpl. by rewrite at_pos_map_indices.
  - apply Tensor_new_ok.
  - intros [[[[i j] k] l] m] Hin. simpl in Hin.
    rewrite (at_pos_ok this); [|done|].
    2:{ unfold in_shape, fits_in in *. lia. }
    simpl.
    assert (Hc : in_shape_pos (shape tensor) (collapse axis (i, j, k, l, m))).
    { unfold collapse. unfold in_shape in Hin.
      destruct axis as [|[|[|[|axis]]]]; unfold in_shape_pos, in_shape; lia. }
    destruct (collapse axis (i, j, k, l, m)) as [[[[i' j'] k'] l'] m'] eqn:Hcol.
    by rewrite (at_pos_ok tensor).
Qed.

Lemma foreach_assign_equal_shapes (a b : Tensor T) (func : T → T → T) :
  tensor_ok a → tensor_ok b → shape a = shape b →
  __foreach_assign_ a b func
  = Ok (mkTensor (shape b) (map (fun p => func (at_pos a p) (at_pos b p)) (indices (shape b)))).
Proof.
  intros Ha Hb Hsh. unfold __foreach_assign_. rewrite first_diff_axis_None by done.
  apply (foreach_assign_cells (Tensor_new (shape b))).
  - apply Tensor_new_ok.
  - intros [[[[i j] k] l] m] Hin. simpl in Hin.
    rewrite (at_pos_ok a) by (done || by rewrite Hsh). simpl.
    by rewrite (at_pos_ok b).
Qed.

Lemma at_pos_map_data (t : Tensor T) (f : T → T) p :
  tensor_ok t → in_shape_pos (shape t) p →
  at_pos (mkTensor (shape t) (map f (data t))) p = f (at_pos t p).
Proof.
  intros Hok Hp.
  pose proof (at_pos_data t p Hok Hp) as Hd.
  pose proof (at_pos_data (mkTensor (shape t) (map f (data t))) p) as Hd'.
  simpl in Hd'. change (map f (data t)) with (f <$> data t) in Hd'.
  rewrite list_lookup_fmap, Hd in Hd'. simpl in Hd'.
  assert (Some (f (at_pos t p)) = Some (at_pos (mkTensor (shape t) (f <$> data t)) p)) as Heq.
  { apply Hd'; [|done]. unfold tensor_ok. simpl. by rewrite length_fmap. }
  injection Heq as Heq. symmetry. exact Heq.
Qed.

Lemma foreach_elem_left_spec (x : T) (y : Tensor T) (func : T → T → T) :
  tensor_ok y →
  foreach_elem_left x y func = Ok (mkTensor (shape y) (map (func x) (data y))).
Proof.
  intros Hok. unfold foreach_elem_left. rewrite zeros_spec. simpl.
  rewrite (foreach_elem_assign_spec _ _ (fun i => func x (or_zero (get y i)))).
  - simpl. f_equal. f_equal. unfold length_. simpl.
    rewrite <- (map_map (fun i => or_zero (get y i)) (func x)). f_equal.
    unfold get. rewrite map_lookup_seq by (rewrite Hok; lia).
    rewrite <- Hok. apply firstn_all.
  - unfold tensor_ok. simpl. by rewrite length_replicate.
  - intros i Hi. unfold length_ in Hi. simpl in Hi. unfold get.
    destruct (lookup_lt_is_Some_2 (data y) i) as [v Hv]; [by rewrite Hok|].
    by rewrite Hv.
Qed.
End BinaryFacts.

(** X6: on integer tensors of one shape [A + B] is [B + A], and adding a
    scalar before or after adding a tensor gives the same tensor. *)
Theorem tensor_add_commutes (a b : Tensor Z) (k : Z) :
  tensor_ok a → tensor_ok b → shape a = shape b →
  tensor_add a b = tensor_add b a ∧
  (scalar_add a k ≫= fun ak => tensor_add ak b)
  = (tensor_add a b ≫= fun ab => scalar_add ab k).
Proof.
  intros Ha Hb Hsh. unfold tensor_add, scalar_add. split.
  - rewrite !foreach_assign_equal_shapes by done. rewrite Hsh. f_equal. f_equal.
    apply map_ext. intros p. simpl. lia.
  - rewrite __foreach_elem_assign__spec by done. simpl.
    rewrite !foreach_assign_equal_shapes; try done.
    2:{ unfold tensor_ok. simpl. by rewrite length_map. }
    simpl. rewrite __foreach_elem_assign__spec by apply mapped_tensor_ok.
    simpl. f_equal. f_equal. rewrite map_map.
    apply map_ext_in. intros p Hp. apply list_elem_of_In, elem_of_indices in Hp.
    rewrite <- Hsh in Hp.
    pose proof (at_pos_map_data a (fun x => (x + k)%Z) p Ha Hp) as Hak.
    simpl in *. rewrite Hak. lia.
Qed.

(** X7: on integer tensors adding a scalar and subtracting it again
    returns the tensor, and the scalar may stand on either side of [+]. *)
Theorem scalar_add_sub_roundtrip (t : Tensor Z) (b : Z) :
  tensor_ok t →
  (scalar_add t b ≫= fun tb => scalar_sub tb b) = Ok t ∧
  left_add b t = scalar_add t b.
Proof.
  intros Hok. unfold scalar_add, scalar_sub, left_add. split.
  - rewrite __foreach_elem_assign__spec by done. simpl.
    rewrite __foreach_elem_assign__spec by (unfold tensor_ok; simpl; by rewrite length_map).
    simpl. rewrite map_map. destruct t as [sh dat]. simpl. f_equal. f_equal.
    rewrite <- (map_id dat) at 2. apply map_ext. intros x. lia.
  - rewrite foreach_elem_left_spec, __foreach_elem_assign__spec by done.
    f_equal. f_equal. apply map_ext. intros x. simpl. lia.
Qed.

(** X8: [relu] leaves no negative cell, keeps the cells that are not
    negative, and applying it twice is applying it once. *)
Theorem relu_idempotent (t : Tensor Z) :
  tensor_ok t →
  ∃ out, relu t = Ok out ∧ shape out = shape t ∧
    (∀ i x, data t !! i = Some x → data out !! i = Some (Z.max x 0)) ∧
    relu out = Ok out.
Proof.
  intros Hok. unfold relu. rewrite __foreach_elem_assign__spec by done.
  assert (Hrelu : ∀ x : Z, __relu_ x = Z.max x 0).
  { intros x. unfold __relu_. simpl. pose proof (Zgt_cases x 0). destruct (x >? 0)%Z; lia. }
  eexists. split; [done|]. split; [done|]. split.
  - intros i x Hx. simpl. change (map ?f ?l) with (f <$> l).
    by rewrite list_lookup_fmap, Hx, <- Hrelu.
  - rewrite __foreach_elem_assign__spec by (unfold tensor_ok; simpl; by rewrite length_map).
    simpl. rewrite map_map. f_equal. f_equal. apply map_ext. intros x. rewrite !Hrelu. lia.
Qed.

(** * Extremes *)

Lemma fold_greater (l : list Z) (x0 : Z) :
  let v := fold_left (fun value x => if gtb x value then x else value) l x0 in
  (v = x0 ∨ v ∈ l) ∧ (x0 <= v)%Z ∧ ∀ x, x ∈ l → (x <= v)%Z.
Proof.
  revert x0. induction l as [|y l IH]; intros x0; simpl.
  { split; [by left|]. split; [lia|]. intros x Hx. by apply elem_of_nil in Hx. }
  destruct (IH (if (y >? x0)%Z then y else x0)) as (Hmem & Hle & Hall).
  pose proof (Zgt_cases y x0) as Hcmp.
  destruct (y >? x0)%Z; simpl in *.
  - split; [|split; [lia|]].
    + right. destruct Hmem as [->|Hmem]; [by left|by right].
    + intros x Hx. apply elem_of_cons in Hx as [->|Hx]; [lia|by apply Hall].
  - split; [|split; [done|]].
    + destruct Hmem as [->|Hmem]; [by left|right; by right].
    + intros x Hx. apply elem_of_cons in Hx as [->|Hx]; [lia|by apply Hall].
Qed.

Lemma fold_less (l : list Z) (x0 : Z) :
  let v := fold_left (fun value x => if ltb x value then x else value) l x0 in
  (v = x0 ∨ v ∈ l) ∧ (v <= x0)%Z ∧ ∀ x, x ∈ l → (v <= x)%Z.
Proof.
  revert x0. induction l as [|y l IH]; intros x0; simpl.
  { split; [by left|]. split; [lia|]. intros x Hx. by apply elem_of_nil in Hx. }
  destruct (IH (if (y <? x0)%Z then y else x0)) as (Hmem & Hle & Hall).
  pose proof (Zlt_cases y x0) as Hcmp.
  destruct (y <? x0)%Z; simpl in *.
  - split; [|split; [lia|]].
    + right. destruct Hmem as [->|Hmem]; [by left|by right].
    + intros x Hx. apply elem_of_cons in Hx as [->|Hx]; [lia|by apply Hall].
  - split; [|split; [done|]].
    + destruct Hmem as [->|Hmem]; [by left|right; by right].
    + intros x Hx. apply elem_of_cons in Hx as [->|Hx]; [lia|by apply Hall].
Qed.

Lemma scan_buffer (t : Tensor Z) (func : Z → Z → Z) v :
  tensor_ok t →
  for_loop (length_ t) (fun i value => x ← get t i; Ok (func value x)) v
  = Ok (fold_left func (data t) v).
Proof.
  intros Hok. rewrite for_loop_foldM.
  rewrite (foldM_pure_reads (get t) (fun i => or_zero (get t i)) func).
  - f_equal. f_equal. unfold get. unfold length_. rewrite map_lookup_seq by (rewrite Hok; lia).
    rewrite <- Hok. apply firstn_all.
  - intros i Hi. apply elem_of_seq in Hi. unfold get, length_ in *.
    destruct (lookup_lt_is_Some_2 (data t) i) as [x Hx]; [rewrite Hok; lia|]. by rewrite Hx.
Qed.

(** X10: on an integer tensor with at least one cell [find_max] returns
    the greatest cell and [find_min] the least; on a tensor without cells
    both read [data[0]] outside the buffer. *)
Theorem find_max_min_extremes (t : Tensor Z) :
  tensor_ok t →
  (1 ≤ Shape_size (shape t) →
   ∃ hi lo, find_max t = Ok hi ∧ is_max (data t) hi ∧
            find_min t = Ok lo ∧ is_min (data t) lo) ∧
  (Shape_size (shape t) = 0 →
   find_max t = Err OutOfBounds ∧ find_min t = Err OutOfBounds).
Proof.
  intros Hok. split.
  - intros Hsize. destruct (data t) as [|x0 dat] eqn:Hdat.
    { unfold tensor_ok in Hok. rewrite Hdat in Hok. simpl in Hok. lia. }
    assert (Hg : get t 0 = Ok x0) by (unfold get; by rewrite Hdat).
    unfold find_max, find_min. rewrite Hg. cbn [mbind result_bind].
    rewrite (scan_buffer t (fun value x => if gtb x value then x else value)) by done.
    rewrite (scan_buffer t (fun value x => if ltb x value then x else value)) by done.
    rewrite Hdat. eexists _, _. split; [done|].
    destruct (fold_greater (x0 :: dat) x0) as (Hm & _ & Hall).
    destruct (fold_less (x0 :: dat) x0) as (Hm' & _ & Hall').
    split; [|split; [done|]].
    + split; [|done]. destruct Hm as [->|Hm]; [by left|done].
    + split; [|done]. destruct Hm' as [->|Hm']; [by left|done].
  - intros Hsize. unfold tensor_ok in Hok. rewrite Hsize in Hok.
    apply nil_length_inv in Hok. unfold find_max, find_min, get. by rewrite Hok.
Qed.

(** * Padding and clipping *)

Section PaddingFacts.
Context {T : Type} `{Scalar T}.
#[local] Arguments shift : simpl never.

Lemma shift_inj width p q : shift width p = shift width q → p = q.
Proof.
  destruct p as [[[[i j] k] l] m], q as [[[[i' j'] k'] l'] m']. unfold shift.
  intros [= -> -> Hk Hl ->]. repeat f_equal; lia.
Qed.

Lemma shift_in_shape sh width p :
  in_shape_pos sh p → in_shape_pos (padded_shape sh width) (shift width p).
Proof.
  destruct p as [[[[i j] k] l] m]. unfold shift, in_shape_pos, in_shape, padded_shape.
  simpl. lia.
Qed.

(** Cells scattered into a tensor: each position of [L] writes its cell
    at its own target. *)
Lemma scatter_loop (this : Tensor T) width sh_out (L : list Pos) :
  tensor_ok this →
  (∀ p, p ∈ L → in_shape_pos (shape this) p) →
  sh_out = padded_shape (shape this) width →
  ∀ out0, tensor_ok out0 → shape out0 = sh_out →
  ∃ out, foldM (fun o '(ii, ij, ik, il, im) =>
                  value ← at_ this ii ij ik il im;
                  set o value ii ij (ik + width) (il + width) im) L out0 = Ok out ∧
    shape out = sh_out ∧ tensor_ok out ∧
    ∀ q, in_shape_pos sh_out q →
      (∀ p, p ∈ L → q = shift width p → at_pos out q = at_pos this p) ∧
      ((∀ p, p ∈ L → q ≠ shift width p) → at_pos out q = at_pos out0 q).
Proof.
  intros Hthis HL ->. induction L as [|p L IH] using rev_ind; intros out0 Hout0 Hsh.
  { exists out0. split; [done|]. split; [done|]. split; [done|].
    intros q Hq. split; [|done]. intros p Hp. by apply elem_of_nil in Hp. }
  destruct (IH (fun q Hq => HL q (proj2 (elem_of_app _ _ _) (or_introl Hq))) out0 Hout0 Hsh)
    as (out1 & Hfold & Hsh1 & Hok1 & Hat1).
  assert (Hp : in_shape_pos (shape this) p) by (apply HL, elem_of_app; right; by left).
  pose proof (shift_in_shape (shape this) width p Hp) as Hsp.
  rewrite foldM_app, Hfold. destruct p as [[[[i j] k] l] m]. cbn [foldM mbind result_bind].
  rewrite (at_pos_ok this) by done. cbn [mbind result_bind].
  unfold set, set_idx. rewrite bool_decide_eq_true_2.
  2:{ rewrite Hok1, Hsh1. apply (sub2ind_lt _ (shift width (i, j, k, l, m))). done. }
  eexists. split; [done|]. cbn [shape]. split; [done|]. split.
  { unfold tensor_ok. simpl. by rewrite length_insert. }
  intros q Hq.
  change (sub2ind (shape out1) i j (k + width) (l + width) m)
    with (sub2ind_pos (shape out1) (shift width (i, j, k, l, m))).
  rewrite at_pos_set by (done || by rewrite Hsh1).
  destruct (Hat1 q Hq) as [Hin Hout]. split.
  - intros p' Hp' ->. apply elem_of_app in Hp' as [Hp'|Hp'].
    + destruct (decide (shift width (i, j, k, l, m) = shift width p')) as [Heq|Hne].
      * by apply shift_inj in Heq as <-.
      * by apply Hin.
    + apply list_elem_of_singleton in Hp' as ->. by rewrite decide_True.
  - intros Hnone. rewrite decide_False.
    + apply Hout. intros p' Hp'. apply Hnone, elem_of_app. by left.
    + intros Heq. apply (Hnone (i, j, k, l, m)); [|done]. apply elem_of_app. right. by left.
Qed.

Lemma padding_spec (this : Tensor T) width :
  tensor_wf this →
  ∃ out, padding this width = Ok out ∧
    shape out = padded_shape (shape this) width ∧ tensor_ok out ∧
    (∀ p, in_shape_pos (shape this) p → at_pos out (shift width p) = at_pos this p) ∧
    (∀ q, in_shape_pos (shape out) q →
       (∀ p, in_shape_pos (shape this) p → q ≠ shift width p) → at_pos out q = zero).
Proof.
  intros [Hsh Hok]. unfold padding, Shape_new.
  rewrite bool_decide_eq_true_2 by (unfold shape_ok in Hsh; lia). simpl.
  rewrite zeros_spec. simpl. rewrite foreach_foldM.
  destruct (scatter_loop this width (padded_shape (shape this) width) (indices (shape this)))
    with (out0 := mkTensor (padded_shape (shape this) width)
                    (replicate (Shape_size (padded_shape (shape this) width)) (zero : T)))
    as (out & Hfold & Hshape & Hout & Hat); try done.
  { intros p Hp. by apply elem_of_indices. }
  { unfold tensor_ok. simpl. by rewrite length_replicate. }
  exists out. split; [exact Hfold|]. split; [done|]. split; [done|]. split.
  - intros p Hp. destruct (Hat (shift width p)) as [Hin _].
    { by apply shift_in_shape. }
    apply Hin; [by apply elem_of_indices|done].
  - intros q Hq Hnone. rewrite Hshape in Hq. destruct (Hat q Hq) as [_ Hout0].
    rewrite Hout0.
    + by apply at_pos_zeros.
    + intros p Hp. apply Hnone. by apply elem_of_indices.
Qed.

(** X11: [padding(width)] returns a tensor larger by [width] on each side
    of width and height that holds the cells of the input, moved by
    [width] on both axes, and zero everywhere else. *)
Theorem padding_places_cells (this : Tensor T) width :
  tensor_wf this →
  ∃ out, padding this width = Ok out ∧
    shape out = padded_shape (shape this) width ∧ tensor_ok out ∧
    (∀ p, in_shape_pos (shape this) p → at_pos out (shift width p) = at_pos this p) ∧
    (∀ q, in_shape_pos (shape out) q →
       (∀ p, in_shape_pos (shape this) p → q ≠ shift width p) → at_pos out q = zero).
Proof. apply padding_spec. Qed.

(** X12: [clipping(width)] after [padding(width)] returns the tensor. *)
Theorem clipping_padding_roundtrip (this : Tensor T) width :
  tensor_wf this →
  (padding this width ≫= fun p => clipping p width) = Ok this.
Proof.
  intros Hwf. destruct (padding_spec this width Hwf) as (out & -> & Hshape & Hout & Hin & _).
  destruct Hwf as [Hsh Hok]. simpl. unfold clipping. rewrite Hshape. simpl.
  replace (d2 (shape this) + width * 2 - width * 2) with (d2 (shape this)) by lia.
  replace (d3 (shape this) + width * 2 - width * 2) with (d3 (shape this)) by lia.
  unfold Shape_new. rewrite bool_decide_eq_true_2 by (unfold shape_ok in Hsh; lia). simpl.
  rewrite zeros_spec. simpl.
  rewrite (foreach_assign_cells _ _ (at_pos this)).
  - simpl. replace (mkShape _ _ _ _ _) with (shape this) by (by destruct (shape this)).
    f_equal. by apply tensor_of_cells.
  - unfold tensor_ok. simpl. by rewrite length_replicate.
  - intros [[[[i j] k] l] m] Hp. simpl in Hp.
    assert (Hp' : in_shape_pos (shape this) (i, j, k, l, m)) by done.
    rewrite (at_pos_ok out); [|done|].
    2:{ rewrite Hshape. apply (shift_in_shape _ width _ Hp'). }
    f_equal. apply (Hin _ Hp').
Qed.
End PaddingFacts.

(** * Rotation *)

Section RotateFacts.
Context {T : Type} `{Scalar T}.

Lemma at_int_of_nat (t : Tensor T) i j k l m :
  at_int t (Z.of_nat i) (Z.of_nat j) (Z.of_nat k) (Z.of_nat l) (Z.of_nat m) = at_ t i j k l m.
Proof.
  unfold at_int, at_.
  assert (Heq : sub2ind_int (shape t) (Z.of_nat i) (Z.of_nat j) (Z.of_nat k) (Z.of_nat l)
                  (Z.of_nat m) = Z.of_nat (sub2ind (shape t) i j k l m)).
  { unfold sub2ind_int, sub2ind. lia. }
  rewrite Heq. destruct (Z.ltb_spec (Z.of_nat (sub2ind (shape t) i j k l m)) 0); [lia|].
  by rewrite Nat2Z.id.
Qed.

Lemma rotate180_spec (t : Tensor T) :
  tensor_wf t → d2 (shape t) = d3 (shape t) →
  rotate180 t = Ok (mkTensor (shape t)
                      (map (fun p => at_pos t (flip (d2 (shape t)) p)) (indices (shape t)))).
Proof.
  intros [Hsh Hok] Hsq. unfold rotate180, Shape_new.
  rewrite bool_decide_eq_true_2 by (unfold shape_ok in Hsh; lia). simpl.
  rewrite zeros_spec. simpl.
  replace (mkShape (d0 (shape t)) (d1 (shape t)) (d3 (shape t)) (d2 (shape t)) (d4 (shape t)))
    with (shape t) by (destruct (shape t); simpl in *; by subst).
  apply (foreach_assign_cells (mkTensor (shape t) _)).
  - unfold tensor_ok. simpl. by rewrite length_replicate.
  - intros [[[[i j] k] l] m] Hin. simpl in Hin. unfold in_shape in Hin. cbn [shape].
    replace (Z.of_nat (d3 (shape t)) - Z.of_nat l - 1)%Z
      with (Z.of_nat (d2 (shape t) - l - 1)) by lia.
    replace (Z.of_nat (d2 (shape t)) - Z.of_nat k - 1)%Z
      with (Z.of_nat (d2 (shape t) - k - 1)) by lia.
    rewrite at_int_of_nat. apply at_pos_ok; [done|]. unfold in_shape. lia.
Qed.

(** X13: on a tensor with equal width and height [rotate180] returns the
    tensor of the same shape whose cell at (k, l) is the input's cell at
    (n - 1 - l, n - 1 - k): the flip across the anti-diagonal.  Applying it
    twice returns the tensor. *)
Theorem rotate180_flips_antidiagonal (t : Tensor T) :
  tensor_wf t → d2 (shape t) = d3 (shape t) →
  ∃ out, rotate180 t = Ok out ∧ shape out = shape t ∧
    (∀ p, in_shape_pos (shape t) p → at_pos out p = at_pos t (flip (d2 (shape t)) p)) ∧
    rotate180 out = Ok t.
Proof.
  intros Hwf Hsq. rewrite rotate180_spec by done. pose proof Hwf as [Hsh Hok].
  eexists. split; [done|]. split; [done|]. split.
  - intros p Hp. by rewrite at_pos_map_indices.
  - rewrite rotate180_spec; [|split; [done|apply mapped_tensor_ok]|done]. cbn [shape].
    f_equal. etrans; [|by apply tensor_of_cells]. f_equal.
    apply map_ext_in. intros [[[[i j] k] l] m] Hin.
    apply list_elem_of_In, elem_of_indices in Hin. unfold in_shape_pos, in_shape in Hin.
    rewrite at_pos_map_indices.
    + unfold flip. repeat f_equal; lia.
    + unfold flip, in_shape_pos, in_shape. lia.
Qed.
End RotateFacts.

(** * Matrix product *)

Section MatmulFacts.
Context {T : Type} `{Scalar T}.

Lemma foldM_pure_steps {X} (F : X → result T) (G : X → T) (func : T → T → T) L v :
  (∀ p, p ∈ L → F p = Ok (G p)) →
  foldM (fun value p => F p ≫= fun c => Ok (func value c)) L v
  = Ok (fold_left func (map G L) v).
Proof. apply foldM_pure_reads. Qed.

Lemma fold_left_mapped {X} (G : X → T) (func : T → T → T) L v :
  fold_left func (map G L) v = fold_left (fun value x => func value (G x)) L v.
Proof. revert v. induction L as [|x L IH]; intros v; simpl; [done|apply IH]. Qed.

Lemma matmul_spec (this tensor : Tensor T) :
  tensor_wf this → tensor_wf tensor →
  d3 (shape this) ≤ d4 (shape this) → d3 (shape this) ≤ d3 (shape tensor) →
  matmul this tensor
  = Ok (mkTensor (mkShape (d0 (shape this)) (d1 (shape this)) (d2 (shape this))
                          (d3 (shape this)) (d4 (shape tensor)))
          (map (fun p => fold_left (fun value k =>
                           add value (mul (at_pos this (matmul_row p k))
                                          (at_pos tensor (matmul_col p k))))
                         (seq 0 (d3 (shape this))) zero)
               (indices (mkShape (d0 (shape this)) (d1 (shape this)) (d2 (shape this))
                                 (d3 (shape this)) (d4 (shape tensor)))))).
Proof.
  intros [Hsa Ha] [Hsb Hb] Hcols Hrows. unfold matmul, Tensor_of_sizes, Shape_new.
  rewrite bool_decide_eq_true_2 by (unfold shape_ok in *; lia). simpl.
  apply (foreach_assign_cells (Tensor_new _)).
  - apply Tensor_new_ok.
  - intros [[[[i j] k] l] m] Hin. simpl in Hin. unfold in_shape in Hin. simpl in Hin.
    rewrite for_loop_foldM.
    rewrite (foldM_ext _ (fun value kk =>
      (a ← at_ this i j k l kk; b ← at_ tensor 0 0 0 kk m; Ok (mul a b))
        ≫= fun c => Ok (add value c))).
    2:{ intros kk v _. by destruct (at_ this i j k l kk), (at_ tensor 0 0 0 kk m). }
    rewrite (foldM_pure_steps _
      (fun kk => mul (at_pos this (i, j, k, l, kk)) (at_pos tensor (0, 0, 0, kk, m)))).
    + f_equal. apply fold_left_mapped.
    + intros kk Hkk. apply elem_of_seq in Hkk.
      rewrite (at_pos_ok this); [|done|unfold in_shape; lia]. simpl.
      rewrite (at_pos_ok tensor); [done|done|].
      unfold in_shape, shape_ok in *. lia.
Qed.

(** X14: [matmul] returns a tensor with the left operand's first four
    sizes and the right operand's last one; each cell is the sum over
    [k < shape[3]], the number of rows of the left operand, of the left
    cell in column [k] times the right cell in row [k], the right operand
    being read at sample, frame and width 0. *)
Theorem matmul_sums_over_rows (this tensor : Tensor T) :
  tensor_wf this → tensor_wf tensor →
  d3 (shape this) ≤ d4 (shape this) → d3 (shape this) ≤ d3 (shape tensor) →
  ∃ out, matmul this tensor = Ok out ∧
    shape out = mkShape (d0 (shape this)) (d1 (shape this)) (d2 (shape this))
                        (d3 (shape this)) (d4 (shape tensor)) ∧
    ∀ p, in_shape_pos (shape out) p →
      at_pos out p
      = fold_left (fun value k => add value (mul (at_pos this (matmul_row p k))
                                                 (at_pos tensor (matmul_col p k))))
                  (seq 0 (d3 (shape this))) zero.
Proof.
  intros Ha Hb Hc Hr. rewrite matmul_spec by done.
  eexists. split; [done|]. split; [done|].
  intros p Hp. by rewrite at_pos_map_indices.
Qed.

Lemma eye_spec n :
  1 ≤ n →
  eye n = Ok (mkTensor (mkShape 1 1 1 n n)
                (map (fun '(_, _, _, l, m) => if decide (l = m) then one else zero)
                     (indices (mkShape 1 1 1 n n))) : Tensor T).
Proof.
  intros Hn. unfold eye, Shape_new. rewrite bool_decide_eq_true_2 by lia. simpl.
  apply (foreach_assign_cells (Tensor_new _)).
  - apply Tensor_new_ok.
  - by intros [[[[i j] k] l] m] Hin.
Qed.
End MatmulFacts.

Lemma fold_left_ext_in {A B} (f g : A → B → A) (L : list B) (v : A) :
  (∀ v x, x ∈ L → f v x = g v x) → fold_left f L v = fold_left g L v.
Proof.
  revert v. induction L as [|x L IH]; intros v Hfg; simpl; [done|].
  rewrite Hfg by left. apply IH. intros v' x' Hx'. apply Hfg. by right.
Qed.

Lemma sum_with_delta (A : nat → Z) (m n : nat) :
  fold_left (fun value k => (value + A k * (if decide (k = m) then 1 else 0))%Z) (seq 0 n) 0%Z
  = if decide (m < n) then A m else 0%Z.
Proof.
  induction n as [|n IH]; [done|].
  rewrite seq_S, fold_left_app, IH. simpl.
  repeat case_decide; subst; lia.
Qed.

(** X15: on integer tensors whose last two sizes are both [n], the
    product with [eye(n)] on the right returns the tensor. *)
Theorem matmul_eye_right (t : Tensor Z) :
  tensor_wf t → d3 (shape t) = d4 (shape t) →
  (eye (d4 (shape t)) ≫= matmul t) = Ok t.
Proof.
  intros Hwf Hsq. pose proof Hwf as [Hsh Hok].
  rewrite eye_spec by (unfold shape_ok in Hsh; lia). simpl.
  rewrite matmul_spec; [|done| |lia|simpl; lia].
  2:{ split; [unfold shape_ok; simpl; unfold shape_ok in Hsh; lia|apply mapped_tensor_ok]. }
  simpl. rewrite Hsq.
  replace (mkShape (d0 (shape t)) (d1 (shape t)) (d2 (shape t)) (d4 (shape t)) (d4 (shape t)))
    with (shape t) by (destruct (shape t); simpl in *; by subst).
  f_equal. etrans; [|by apply tensor_of_cells]. f_equal.
  apply map_ext_in. intros [[[[i j] k] l] m] Hin.
  apply list_elem_of_In, elem_of_indices in Hin. unfold in_shape_pos, in_shape in Hin.
  rewrite (fold_left_ext_in _ (fun value kk =>
     (value + at_pos t (i, j, k, l, kk) * (if decide (kk = m) then 1 else 0))%Z)).
  - rewrite sum_with_delta. by rewrite decide_True by lia.
  - intros v kk Hkk. apply elem_of_seq in Hkk. cbn [matmul_row matmul_col add mul Scalar_Z].
    rewrite at_pos_map_indices; [done|].
    unfold in_shape_pos, in_shape. simpl. unfold shape_ok in Hsh. lia.
Qed.

(** * Reduction and pooling in general *)

(** X16: on each of the axes 1 to 4 [reduce_sum] collapses the axis to
    size 1 and leaves the other sizes alone; each cell of the result is
    the sum, from 0 and in visiting order, of the cells of the input
    along the axis at that position; and each cell of [reduce_mean] is
    that sum divided by the size of the axis. *)
Theorem reduce_sum_mean_along_axis {T : Type} `{Scalar T} (this : Tensor T) axis :
  tensor_ok this → 1 ≤ axis ≤ 4 →
  ∃ sh_out N sum mean,
    Shape_set (shape this) 1 axis = Ok sh_out ∧ Shape_get (shape this) axis = Ok N ∧
    reduce_sum this axis = Ok sum ∧ shape sum = sh_out ∧
    reduce_mean this axis = Ok mean ∧ shape mean = sh_out ∧
    ∀ q, in_shape_pos sh_out q →
      at_pos sum q = fold_left add (map (at_pos this) (along axis (shape this) q)) zero ∧
      at_pos mean q = div (at_pos sum q) (of_int N).
Proof.
  intros Hok Hax.
  destruct (reduce_sum_axes_1_to_4 this axis Hok Hax) as (sh_out & sum & Hset & Hsum & Hsh & Hoks & Hat).
  assert (HN : ∃ N, Shape_get (shape this) axis = Ok N).
  { destruct axis as [|[|[|[|[|axis]]]]]; [lia| | | | |lia]; by eexists. }
  destruct HN as [N HN].
  exists sh_out, N, sum. eexists. split; [done|]. split; [done|]. split; [done|].
  split; [done|]. rewrite (reduce_mean_divides this sum axis N Hsum Hoks HN).
  split; [done|]. split; [done|].
  intros q Hq. split; [by apply Hat|].
  rewrite <- Hsh in Hq.
  apply (at_pos_map_data sum (fun x => div x (of_int N)) q Hoks Hq).
Qed.

Lemma fold_min (l : list Z) (x0 : Z) :
  let v := fold_left (fun a b => if ltb a b then a else b) l x0 in
  (v = x0 ∨ v ∈ l) ∧ (v <= x0)%Z ∧ ∀ x, x ∈ l → (v <= x)%Z.
Proof.
  revert x0. induction l as [|y l IH]; intros x0; simpl.
  { split; [by left|]. split; [lia|]. intros x Hx. by apply elem_of_nil in Hx. }
  destruct (IH (if (x0 <? y)%Z then x0 else y)) as (Hmem & Hle & Hall).
  pose proof (Zlt_cases x0 y) as Hcmp.
  destruct (x0 <? y)%Z; simpl in *.
  - split; [|split; [done|]].
    + destruct Hmem as [->|Hmem]; [by left|right; by right].
    + intros x Hx. apply elem_of_cons in Hx as [->|Hx]; [lia|by apply Hall].
  - split; [|split; [lia|]].
    + right. destruct Hmem as [->|Hmem]; [by left|by right].
    + intros x Hx. apply elem_of_cons in Hx as [->|Hx]; [lia|by apply Hall].
Qed.

Lemma window_origin_first (this : Tensor Z) width q :
  1 ≤ width → at_pos this (window_origin width q) ∈ map (at_pos this) (window width q).
Proof.
  intros Hw. destruct q as [[[[oi oj] ok] ol] om].
  apply list_elem_of_fmap_2' with (x := (oi, oj, ok * width + 0, ol * width + 0, om)).
  - unfold window. apply list_elem_of_In, in_flat_map. exists 0. split; [apply in_seq; lia|].
    apply in_map_iff. exists 0. split; [done|apply in_seq; lia].
  - unfold window_origin. by rewrite !Nat.add_0_r.
Qed.

(** X17: on an integer tensor and for a width between 1 and the width and
    height of the tensor, [max_pooling] and [min_pooling] return tensors
    whose width and height are divided by [width]; every cell of the first
    is the greatest cell of its window, every cell of the second the least. *)
Theorem pooling_extremes (this : Tensor Z) width :
  tensor_ok this → shape_ok (shape this) →
  1 ≤ width → width ≤ d2 (shape this) → width ≤ d3 (shape this) →
  ∃ hi lo, max_pooling this width = Ok hi ∧ min_pooling this width = Ok lo ∧
    shape hi = pooled_shape (shape this) width ∧
    shape lo = pooled_shape (shape this) width ∧
    ∀ q, in_shape_pos (pooled_shape (shape this) width) q →
      is_max (map (at_pos this) (window width q)) (at_pos hi q) ∧
      is_min (map (at_pos this) (window width q)) (at_pos lo q).
Proof.
  intros Hok Hsh Hw Hd2 Hd3.
  destruct (max_pooling_is_window_max this width Hok Hsh Hw Hd2 Hd3) as (hi & Hhi & Hshi & Hmax).
  exists hi. unfold min_pooling. rewrite pooling_spec by done.
  eexists. split; [done|]. split; [done|]. split; [done|]. split; [done|].
  intros q Hq. split; [apply Hmax; by rewrite Hshi|].
  rewrite at_pos_map_indices by done.
  pose proof (window_origin_first this width q Hw) as Hx0.
  destruct (fold_min (map (at_pos this) (window width q))
              (at_pos this (window_origin width q))) as (Hmem & _ & Hall).
  split; [|done]. by destruct Hmem as [->|Hmem].
Qed.

Lemma fold_Qplus_start (l : list Q) (x0 : Q) :
  (fold_left Qplus l x0 == x0 + fold_left Qplus l 0)%Q.
Proof.
  revert x0. induction l as [|y l IH]; intros x0; simpl.
  { ring. }
  rewrite (IH (x0 + y)%Q), (IH (0 + y)%Q). ring.
Qed.


Section GraphMoreFacts.
Context {Tensor : Type} `{TensorOps Tensor}.

Lemma add_consumers_spec (this : nat) inputs (heap : list (Node Tensor)) :
  (∀ q, q ∈ inputs → q < length heap) →
  ∃ heap', foldM (add_consumer this) inputs heap = Ok heap' ∧ length heap' = length heap ∧
    ∀ p n, heap !! p = Some n →
      heap' !! p = Some (registered n (count_occ Nat.eq_dec inputs p) this).
Proof.
  revert heap. induction inputs as [|q inputs IH]; intros heap Hin.
  { exists heap. split; [done|]. split; [done|]. intros p n Hp. rewrite Hp.
    unfold registered. simpl. rewrite app_nil_r. by destruct n. }
  destruct (lookup_lt_is_Some_2 heap q) as [nq Hnq]; [apply Hin; by left|].
  destruct (IH (<[q := mkNode (output nq) (consumers nq ++ [this]) (cls nq)]> heap))
    as (heap' & Hfold & Hlen & Hat).
  { intros q' Hq'. rewrite length_insert. apply Hin. by right. }
  exists heap'. cbn [foldM]. unfold add_consumer at 2. rewrite (lookup_node_Some _ _ _ Hnq).
  cbn [mbind result_bind]. split; [done|]. split; [by rewrite Hlen, length_insert|].
  intros p n Hp. destruct (decide (q = p)) as [->|Hne].
  - rewrite (Hat p (mkNode (output nq) (consumers nq ++ [this]) (cls nq))).
    + rewrite Hp in Hnq. injection Hnq as <-.
      rewrite count_occ_cons_eq by done. unfold registered. simpl. by rewrite <- app_assoc.
    + apply list_lookup_insert_eq. by apply lookup_lt_Some in Hp.
  - rewrite (Hat p n).
    + by rewrite count_occ_cons_neq.
    + by rewrite list_lookup_insert_ne.
Qed.

(** X19: the constructor of an operation over nodes that exist allocates
    the operation at the end of the heap, without consumers, and appends
    it to the consumers of each input once for every time the input is
    listed; outputs, classes and earlier consumers stay as they were, and
    the heap stays well-formed. *)
Theorem new_Operation_registers_consumers (heap : list (Node Tensor)) kind inputs :
  heap_wf heap → (∀ q, q ∈ inputs → q < length heap) →
  ∃ heap', new_Operation heap kind inputs = Ok (length heap, heap') ∧
    heap_wf heap' ∧ length heap' = S (length heap) ∧
    heap' !! length heap = Some (mkNode tensor_default [] (COperation kind inputs)) ∧
    ∀ p n, heap !! p = Some n →
      heap' !! p = Some (registered n (count_occ Nat.eq_dec inputs p) (length heap)).
Proof.
  intros Hwf Hin.
  destruct (new_Operation_wf heap kind inputs Hwf Hin) as (heap' & Hnew & Hwf' & Hlen').
  exists heap'. split; [done|]. split; [done|]. split; [done|].
  unfold new_Operation in Hnew.
  destruct (add_consumers_spec (length heap) inputs
              (heap ++ [mkNode tensor_default [] (COperation kind inputs)]))
    as (heap'' & Hfold & _ & Hat).
  { intros q Hq. rewrite length_app. specialize (Hin q Hq). simpl. lia. }
  rewrite Hfold in Hnew. cbn [mbind result_bind] in Hnew. injection Hnew as <-.
  split.
  - rewrite (Hat (length heap) (mkNode tensor_default [] (COperation kind inputs))).
    + assert (Hz : count_occ Nat.eq_dec inputs (length heap) = 0).
      { apply count_occ_not_In. intros Hl. apply list_elem_of_In, Hin in Hl. lia. }
      rewrite Hz. done.
    + rewrite lookup_app_r by done. by rewrite Nat.sub_diag.
  - intros p n Hp. apply Hat. by apply lookup_app_l_Some.
Qed.

Lemma getInputValues_same (h1 h2 : list (Node Tensor)) inputs :
  (∀ q, q ∈ inputs → h1 !! q = h2 !! q) →
  getInputValues h1 inputs = getInputValues h2 inputs.
Proof.
  intros Hsame. unfold getInputValues.
  assert (Hacc : ∀ acc,
    foldM (fun acc p => n ← lookup_node h1 p; Ok (acc ++ [output n])) inputs acc
    = foldM (fun acc p => n ← lookup_node h2 p; Ok (acc ++ [output n])) inputs acc);
    [|apply Hacc].
  induction inputs as [|q inputs IH]; intros acc; [done|].
  cbn [foldM]. unfold lookup_node at 2 4. rewrite (Hsame q) by (by left).
  destruct (h2 !! q) as [n|]; [|done]. cbn [mbind result_bind].
  apply IH. intros q' Hq'. apply Hsame. by right.
Qed.

Lemma setOutput_same (n : Node Tensor) : setOutput n (output n) = n.
Proof. by destruct n. Qed.

(** A turn of the run loop on an operation whose cache is right changes
    nothing. *)
Lemma run_node_settled (heap : list (Node Tensor)) feed p n kind inputs :
  heap !! p = Some n → cls n = COperation kind inputs → cache_ok heap p →
  run_node (heap, feed) p = Ok (heap, feed).
Proof.
  intros Hn Hcls Hc. destruct (Hc n kind inputs Hn Hcls) as (vals & Hvals & Hout).
  unfold run_node. rewrite (lookup_node_Some _ _ _ Hn). cbn [mbind result_bind].
  rewrite Hcls, Hvals. cbn [mbind result_bind]. rewrite Hout. cbn [mbind result_bind].
  rewrite setOutput_same. by rewrite list_insert_id.
Qed.

Lemma run_settled (heap : list (Node Tensor)) feed ops :
  (∀ p, p ∈ ops → type_at heap p = Some OPERATION ∧ cache_ok heap p) →
  foldM run_node ops (heap, feed) = Ok (heap, feed).
Proof.
  induction ops as [|p ops IH]; intros Hops; [done|].
  destruct (Hops p) as [Hty Hc]; [by left|].
  unfold type_at in Hty. destruct (heap !! p) as [n|] eqn:Hn; [|done].
  injection Hty as Hty. unfold getNodeType in Hty.
  destruct (cls n) as [| |kind inputs] eqn:Hcls; try done.
  cbn [foldM]. rewrite (run_node_settled heap feed p n kind inputs Hn Hcls Hc).
  cbn [mbind result_bind]. apply IH. intros q Hq. apply Hops. by right.
Qed.

(** The run loop from the middle: the operations of [done] hold the right
    cache, those of [rest] are still to be run. *)
Lemma run_loop_caches (heap0 : list (Node Tensor)) feed rest :
  heap_wf heap0 →
  ∀ done heap,
    same_graph heap0 heap →
    inputs_first heap0 (done ++ rest) →
    (∀ p, p ∈ done ++ rest → type_at heap0 p = Some OPERATION) →
    (∀ q, q ∈ done → cache_ok heap q) →
    ∀ heap' feed', foldM run_node rest (heap, feed) = Ok (heap', feed') →
      feed' = feed ∧ same_graph heap0 heap' ∧ (∀ q, q ∈ done ++ rest → cache_ok heap' q).
Proof.
  intros Hwf. induction rest as [|p rest IH]; intros done heap Hs Hord Hty Hdone heap' feed' Hfold.
  { cbn [foldM] in Hfold. injection Hfold as <- <-. by rewrite app_nil_r. }
  assert (Hp0 : type_at heap0 p = Some OPERATION).
  { apply Hty, elem_of_app. right. by left. }
  unfold type_at in Hp0. destruct (heap0 !! p) as [n0|] eqn:Hn0; [|done].
  injection Hp0 as Hp0. unfold getNodeType in Hp0.
  destruct (cls n0) as [| |kind inputs] eqn:Hcls0; try done.
  destruct (proj2 Hs p n0 Hn0) as (n & Hn & Hcls & Hcons).
  rewrite Hcls0 in Hcls.
  destruct (Hwf p n0 Hn0) as [Hin _]. unfold input_nodes_of in Hin. rewrite Hcls0 in Hin.
  cbn [foldM] in Hfold. unfold run_node at 2 in Hfold.
  rewrite (lookup_node_Some _ _ _ Hn) in Hfold. cbn [mbind result_bind] in Hfold.
  rewrite Hcls in Hfold.
  destruct (getInputValues heap inputs) as [vals|e] eqn:Hvals; [|done].
  cbn [mbind result_bind] in Hfold.
  destruct (compute kind vals) as [out|e] eqn:Hout; [|done].
  cbn [mbind result_bind] in Hfold.
  assert (Hstep : same_graph heap0 (<[p := setOutput n out]> heap) ∧
            (∀ q, q ∈ done ++ [p] → cache_ok (<[p := setOutput n out]> heap) q)).
  { split; [by apply same_graph_setOutput|].
    destruct (decide (p ∈ done)) as [Hpd|Hpd].
    - destruct (Hdone p Hpd n kind inputs Hn Hcls) as (vals' & Hvals' & Hout').
      rewrite Hvals in Hvals'. injection Hvals' as <-.
      rewrite Hout in Hout'. injection Hout' as ->.
      rewrite setOutput_same, list_insert_id by done.
      intros q Hq. apply elem_of_app in Hq as [Hq|Hq]; [by apply Hdone|].
      apply list_elem_of_singleton in Hq as ->. by apply Hdone.
    - intros q Hq nq kq iq Hnq Hclsq.
      destruct (decide (p = q)) as [<-|Hne].
      + rewrite list_lookup_insert_eq in Hnq by (by apply lookup_lt_Some in Hn).
        injection Hnq as <-. simpl in Hclsq. rewrite Hcls in Hclsq.
        injection Hclsq as <- <-. exists vals. split; [|done].
        rewrite <- Hvals. apply getInputValues_same. intros q Hq'.
        apply list_lookup_insert_ne. specialize (Hin q Hq'). lia.
      + rewrite list_lookup_insert_ne in Hnq by done.
        apply elem_of_app in Hq as [Hq|Hq]; [|apply list_elem_of_singleton in Hq; congruence].
        destruct (Hdone q Hq nq kq iq Hnq Hclsq) as (valsq & Hvq & Houtq).
        exists valsq. split; [|done]. rewrite <- Hvq. apply getInputValues_same.
        intros r Hr. apply list_lookup_insert_ne. intros <-. apply Hpd.
        apply list_elem_of_lookup in Hq as [i Hi].
        destruct (Hord i q p) as (j & Hj & Hjp).
        * by apply lookup_app_l_Some.
        * unfold inputs_at.
          destruct (heap0 !! q) as [nq0|] eqn:Hnq0.
          -- destruct (proj2 Hs q nq0 Hnq0) as (nq' & Hnq' & Hclsq' & _).
             rewrite Hnq in Hnq'. injection Hnq' as <-.
             unfold input_nodes_of. by rewrite <- Hclsq', Hclsq.
          -- apply lookup_lt_Some in Hnq. rewrite <- (proj1 Hs) in Hnq.
             apply lookup_ge_None in Hnq0. lia.
        * unfold type_at. rewrite Hn0. simpl. unfold getNodeType. by rewrite Hcls0.
        * apply lookup_lt_Some in Hi. rewrite lookup_app_l in Hjp by lia.
          apply list_elem_of_lookup. by exists j. }
  destruct Hstep as [Hs1 Hdone1].
  destruct (IH (done ++ [p]) (<[p := setOutput n out]> heap)) with (heap' := heap') (feed' := feed')
    as (Hfeed & Hs' & Hdone'); [done| | |done|done|].
  { by rewrite <- app_assoc. }
  { intros q Hq. apply Hty. by rewrite <- app_assoc in Hq. }
  split; [done|]. split; [done|].
  intros q Hq. apply Hdone'. by rewrite <- app_assoc.
Qed.



(** X22: [add_weight] allocates the weight and appends it to the inputs
    of the operation, but registers the operation nowhere: the weight has
    no consumer, so [backward] on it calls no other node and stores the
    start value of the accumulation as its gradient; it returns no
    value. *)
Theorem add_weight_never_consumed (heap : list (Node Tensor)) this name sh trainable n kind inputs :
  heap !! this = Some n → cls n = COperation kind inputs →
  let weight := mkNode tensor_default [] (CVariable name (tensor_random sh) tensor_zeros trainable) in
  ∃ heap', add_weight heap this name sh trainable = Ok (length heap, heap') ∧
    heap' = <[this := mkNode (output n) (consumers n) (COperation kind (inputs ++ [length heap]))]>
              (heap ++ [weight]) ∧
    ∀ fuel log, backward (S fuel) (length heap) (heap', log)
      = Ok (None,
            (<[length heap := with_grad weight accumulate_init]> heap', log ++ [length heap])).
Proof.
  intros Hn Hcls weight. pose proof (lookup_lt_Some _ _ _ Hn) as Hthis.
  eexists. split; [|split; [reflexivity|]].
  - unfold add_weight, new_Variable.
    rewrite (lookup_node_Some _ this n) by (by apply lookup_app_l_Some).
    cbn [mbind result_bind]. by rewrite Hcls.
  - intros fuel log.
    assert (Hw : <[this := mkNode (output n) (consumers n) (COperation kind (inputs ++ [length heap]))]>
                   (heap ++ [weight]) !! length heap = Some weight).
    { rewrite list_lookup_insert_ne by lia. rewrite lookup_app_r by done. by rewrite Nat.sub_diag. }
    cbn [backward fst snd]. rewrite (lookup_node_Some _ _ _ Hw).
    cbn [mbind result_bind]. unfold weight at 1. cbn [cls].
    unfold Node_backward. cbn [consumers weight foldM mbind result_bind fold_left].
    rewrite (lookup_node_Some _ _ _ Hw). done.
Qed.

End GraphMoreFacts.

(** * Cells *)

(** X23: writing a cell of the shape and reading a cell of the shape:
    the read gives the written value at the written position and the old
    value anywhere else; shape and buffer length stay. *)
Theorem set_then_at {T : Type} `{Scalar T} (t : Tensor T) (v : T) i j k l m i' j' k' l' m' :
  tensor_ok t → in_shape (shape t) i j k l m → in_shape (shape t) i' j' k' l' m' →
  ∃ t', set t v i j k l m = Ok t' ∧ shape t' = shape t ∧ tensor_ok t' ∧
    at_ t' i' j' k' l' m'
    = Ok (if decide ((i, j, k, l, m) = (i', j', k', l', m')) then v
          else at_pos t (i', j', k', l', m')).
Proof.
  intros Hok Hp Hq.
  pose proof (sub2ind_lt (shape t) (i, j, k, l, m) Hp) as Hlt. simpl in Hlt.
  unfold set, set_idx. rewrite bool_decide_eq_true_2 by (by rewrite Hok).
  eexists. split; [done|]. split; [done|].
  assert (Hok' : tensor_ok (mkTensor (shape t) (<[sub2ind (shape t) i j k l m := v]> (data t)))).
  { unfold tensor_ok. simpl. by rewrite length_insert. }
  split; [done|].
  rewrite at_pos_ok by done. f_equal.
  apply (at_pos_set t v (i, j, k, l, m) (i', j', k', l', m') Hok Hp Hq).
Qed.

(** * Equality *)

(** X24: [operator==] compares the buffers and never the shapes: when
    the left tensor has no more cells than the right one, the test returns,
    and returns true if and only if the cells at the same buffer index
    differ by at most 1e-5; with as many cells on both sides the test is
    symmetric, and a tensor equals each of its reshapes. *)
Theorem tensor_eq_compares_buffers (a b : Tensor Q) :
  tensor_ok a → tensor_ok b → Shape_size (shape a) ≤ Shape_size (shape b) →
  ∃ r, tensor_eq a b = Ok r ∧
    (r = true ↔ ∀ i x y, data a !! i = Some x → data b !! i = Some y →
                  (Qabs (x - y) <= 1 # 100000)%Q) ∧
    (Shape_size (shape a) = Shape_size (shape b) → tensor_eq b a = Ok r) ∧
    (data a = data b → r = true).
Proof.
  intros Ha Hb Hle. unfold tensor_eq, length_.
  destruct (tensor_eq_loop a b (Shape_size (shape a))) as (r & Hr & Hiff).
  { by rewrite Ha. }
  { by rewrite Hb. }
  exists r. split; [done|].
  assert (Hr' : r = true ↔ ∀ i x y, data a !! i = Some x → data b !! i = Some y →
                  (Qabs (x - y) <= 1 # 100000)%Q).
  { rewrite Hiff. split.
    - intros Hall i x y Hx Hy. rewrite <- tolerance_value. apply (Hall i); [|done|done].
      apply lookup_lt_Some in Hx. by rewrite <- Ha.
    - intros Hall i x y _ Hx Hy. rewrite tolerance_value. by apply (Hall i). }
  split; [done|]. split.
  - intros Hsz. destruct (tensor_eq_loop b a (Shape_size (shape b))) as (r' & Hr2 & Hiff').
    { by rewrite Hb. }
    { rewrite Ha. lia. }
    rewrite Hr2. f_equal.
    assert (Heq : r' = true ↔ r = true).
    2:{ destruct r, r'; [done|exact (proj2 Heq eq_refl)|symmetry; exact (proj1 Heq eq_refl)|done]. }
    rewrite Hiff, Hiff', Hsz. split.
    + intros Hall i x y Hi Hx Hy. rewrite Qabs_Qminus. by apply (Hall i).
    + intros Hall i x y Hi Hx Hy. rewrite Qabs_Qminus. by apply (Hall i).
  - intros Hd. apply Hr'. intros i x y Hx Hy. rewrite Hd, Hy in Hx. injection Hx as ->.
    apply Qabs_Qle_condition. unfold Qminus. rewrite Qplus_opp_r. by split.
Qed.

(** * Scalar kernels *)

(** X25: the derivative of [__sigmoid_] at [x] is the negation of
    [__sigmoid_grad_] at the value of [__sigmoid_] there: the kernel is
    the logistic function of [-x], and [y * (1 - y)] is the slope of the
    logistic function itself. *)
Theorem sigmoid_grad_is_minus_derivative (x : R) :
  derivable_pt_lim __sigmoid_ x (- __sigmoid_grad_ (__sigmoid_ x))%R.
Proof.
  pose proof (exp_pos x) as Hpos.
  assert (Hd : derivable_pt_lim (fct_cte 1 / (fct_cte 1 + exp))%F x
                 ((0 * (1 + exp x) - (0 + exp x) * 1) / Rsqr (1 + exp x))%R).
  { apply (derivable_pt_lim_div (fct_cte 1) (fct_cte 1 + exp)%F x 0 (0 + exp x)).
    - apply derivable_pt_lim_const.
    - apply derivable_pt_lim_plus; [apply derivable_pt_lim_const|apply derivable_pt_lim_exp].
    - unfold plus_fct, fct_cte. lra. }
  replace (- __sigmoid_grad_ (__sigmoid_ x))%R
    with ((0 * (1 + exp x) - (0 + exp x) * 1) / Rsqr (1 + exp x))%R.
  - exact Hd.
  - unfold __sigmoid_grad_, __sigmoid_, Rsqr. field. lra.
Qed.

(** X26: away from 0, [__relu_grad_] is the derivative of [__relu_]. *)
Theorem relu_grad_is_derivative (x : R) :
  x ≠ 0%R → derivable_pt_lim __relu_ x (__relu_grad_ x).
Proof.
  intros Hx eps Heps.
  assert (Hd : (0 < Rabs x)%R) by (by apply Rabs_pos_lt).
  exists (mkposreal (Rabs x) Hd). intros h Hh Hlt. simpl in Hlt.
  unfold __relu_, __relu_grad_. cbn [gtb zero one Scalar_R].
  destruct (Rgt_dec x 0) as [Hgt|Hngt].
  - rewrite (Rabs_right x) in Hlt by lra.
    assert (Hh' : (- x < h)%R).
    { destruct (Rcase_abs h) as [Hn|Hp]; [rewrite (Rabs_left h) in Hlt by done; lra|lra]. }
    destruct (Rgt_dec (x + h) 0) as [_|Hc]; [|lra].
    replace ((x + h - x) / h - 1)%R with 0%R by (field; done).
    by rewrite Rabs_R0.
  - assert (Hneg : (x < 0)%R) by lra.
    rewrite (Rabs_left x) in Hlt by done.
    assert (Hh' : (h < - x)%R).
    { destruct (Rcase_abs h) as [Hn|Hp]; [lra|rewrite (Rabs_right h) in Hlt by done; lra]. }
    destruct (Rgt_dec (x + h) 0) as [Hc|_]; [lra|].
    replace ((0 - 0) / h - 0)%R with 0%R by (field; done).
    by rewrite Rabs_R0.
Qed.


(** * The facts at concrete tensors and graphs *)

Lemma img22_wf : tensor_wf img22.
Proof. split; [unfold shape_ok; simpl; lia|reflexivity]. Qed.

Lemma mat22_wf : tensor_wf mat22.
Proof. split; [unfold shape_ok; simpl; lia|reflexivity]. Qed.

Lemma Tensor_copy_equal_witness :
  tensor_ok img22 ∧ Tensor_copy img22 = Ok img22.
Proof. split; [reflexivity|apply (Tensor_copy_equal img22); reflexivity]. Defined.

Lemma Transpose_involution_witness :
  tensor_wf mat22 ∧
  Transpose mat22 = permute mat22 [0; 1; 2; 4; 3] ∧ (Transpose mat22 ≫= Transpose) = Ok mat22.
Proof. split; [apply mat22_wf|apply (Transpose_involution mat22), mat22_wf]. Defined.

Lemma reshape_roundtrip_witness :
  tensor_ok img22 ∧ Shape_size (mkShape 1 1 1 1 4) = Shape_size (shape img22) ∧
  reshape img22 (mkShape 1 1 1 1 4) = Ok (mkTensor (mkShape 1 1 1 1 4) (data img22)) ∧
  (reshape img22 (mkShape 1 1 1 1 4) ≫= fun t => reshape t (shape img22)) = Ok img22.
Proof.
  split; [reflexivity|]. split; [reflexivity|].
  apply (reshape_roundtrip img22 (mkShape 1 1 1 1 4)); reflexivity.
Defined.

Lemma reshape_unchecked_witness :
  tensor_ok img22 ∧
  (Shape_size (mkShape 1 1 1 1 2) ≤ Shape_size (shape img22) →
   reshape img22 (mkShape 1 1 1 1 2)
   = Ok (mkTensor (mkShape 1 1 1 1 2) (take (Shape_size (mkShape 1 1 1 1 2)) (data img22)))) ∧
  (Shape_size (shape img22) < Shape_size (mkShape 1 1 1 1 2) →
   reshape img22 (mkShape 1 1 1 1 2) = Err OutOfBounds).
Proof. split; [reflexivity|apply (reshape_unchecked img22 (mkShape 1 1 1 1 2)); reflexivity]. Defined.

Lemma foreach_assign_left_larger_witness :
  tensor_ok col2 ∧ tensor_ok cell1 ∧ fits_in (shape cell1) (shape col2) ∧
  first_diff_axis (shape col2) (shape cell1) = Some 0 ∧
  ∃ out, __foreach_assign_ col2 cell1 Z.add = Ok out ∧
    shape out = shape cell1 ∧ tensor_ok out ∧
    ∀ p, in_shape_pos (shape cell1) p →
      at_pos out p = Z.add (at_pos col2 p) (at_pos cell1 (collapse 0 p)).
Proof.
  split; [reflexivity|]. split; [reflexivity|].
  split; [unfold fits_in; simpl; lia|]. split; [reflexivity|].
  apply (foreach_assign_left_larger col2 cell1 Z.add 0);
    [reflexivity|reflexivity|unfold fits_in; simpl; lia|reflexivity].
Defined.

Lemma tensor_add_commutes_witness :
  tensor_ok img22 ∧ shape img22 = shape img22 ∧
  tensor_add img22 img22 = tensor_add img22 img22 ∧
  (scalar_add img22 7%Z ≫= fun ak => tensor_add ak img22)
  = (tensor_add img22 img22 ≫= fun ab => scalar_add ab 7%Z).
Proof.
  split; [reflexivity|]. split; [reflexivity|].
  apply (tensor_add_commutes img22 img22 7%Z); reflexivity.
Defined.

Lemma scalar_add_sub_roundtrip_witness :
  tensor_ok img22 ∧
  (scalar_add img22 7%Z ≫= fun tb => scalar_sub tb 7%Z) = Ok img22 ∧
  left_add 7%Z img22 = scalar_add img22 7%Z.
Proof. split; [reflexivity|apply (scalar_add_sub_roundtrip img22 7%Z); reflexivity]. Defined.

Lemma relu_idempotent_witness :
  tensor_ok img22 ∧
  ∃ out, relu img22 = Ok out ∧ shape out = shape img22 ∧
    (∀ i x, data img22 !! i = Some x → data out !! i = Some (Z.max x 0)) ∧
    relu out = Ok out.
Proof. split; [reflexivity|apply (relu_idempotent img22); reflexivity]. Defined.

Lemma find_max_min_extremes_witness :
  tensor_ok img22 ∧
  (1 ≤ Shape_size (shape img22) →
   ∃ hi lo, find_max img22 = Ok hi ∧ is_max (data img22) hi ∧
            find_min img22 = Ok lo ∧ is_min (data img22) lo) ∧
  (Shape_size (shape img22) = 0 →
   find_max img22 = Err OutOfBounds ∧ find_min img22 = Err OutOfBounds).
Proof. split; [reflexivity|apply (find_max_min_extremes img22); reflexivity]. Defined.

Lemma padding_places_cells_witness :
  tensor_wf img22 ∧
  ∃ out, padding img22 1 = Ok out ∧
    shape out = padded_shape (shape img22) 1 ∧ tensor_ok out ∧
    (∀ p, in_shape_pos (shape img22) p → at_pos out (shift 1 p) = at_pos img22 p) ∧
    (∀ q, in_shape_pos (shape out) q →
       (∀ p, in_shape_pos (shape img22) p → q ≠ shift 1 p) → at_pos out q = zero).
Proof. split; [apply img22_wf|apply (padding_places_cells img22 1), img22_wf]. Defined.

Lemma clipping_padding_roundtrip_witness :
  tensor_wf img22 ∧ (padding img22 1 ≫= fun p => clipping p 1) = Ok img22.
Proof. split; [apply img22_wf|apply (clipping_padding_roundtrip img22 1), img22_wf]. Defined.

Lemma rotate180_flips_antidiagonal_witness :
  tensor_wf img22 ∧ d2 (shape img22) = d3 (shape img22) ∧
  ∃ out, rotate180 img22 = Ok out ∧ shape out = shape img22 ∧
    (∀ p, in_shape_pos (shape img22) p →
       at_pos out p = at_pos img22 (flip (d2 (shape img22)) p)) ∧
    rotate180 out = Ok img22.
Proof.
  split; [apply img22_wf|]. split; [reflexivity|].
  apply (rotate180_flips_antidiagonal img22); [apply img22_wf|reflexivity].
Defined.

Lemma matmul_sums_over_rows_witness :
  tensor_wf mat22 ∧ d3 (shape mat22) ≤ d4 (shape mat22) ∧ d3 (shape mat22) ≤ d3 (shape mat22) ∧
  ∃ out, matmul mat22 mat22 = Ok out ∧
    shape out = mkShape (d0 (shape mat22)) (d1 (shape mat22)) (d2 (shape mat22))
                        (d3 (shape mat22)) (d4 (shape mat22)) ∧
    ∀ p, in_shape_pos (shape out) p →
      at_pos out p
      = fold_left (fun value k => add value (mul (at_pos mat22 (matmul_row p k))
                                                 (at_pos mat22 (matmul_col p k))))
                  (seq 0 (d3 (shape mat22))) zero.
Proof.
  split; [apply mat22_wf|]. split; [simpl; lia|]. split; [simpl; lia|].
  apply (matmul_sums_over_rows mat22 mat22); [apply mat22_wf|apply mat22_wf|simpl; lia|simpl; lia].
Defined.

Lemma matmul_eye_right_witness :
  tensor_wf mat22 ∧ d3 (shape mat22) = d4 (shape mat22) ∧
  (eye (d4 (shape mat22)) ≫= matmul mat22) = Ok mat22.
Proof.
  split; [apply mat22_wf|]. split; [reflexivity|].
  apply (matmul_eye_right mat22); [apply mat22_wf|reflexivity].
Defined.

Lemma reduce_sum_mean_along_axis_witness :
  tensor_ok img22 ∧ 1 ≤ 2 ≤ 4 ∧
  ∃ sh_out N sum mean,
    Shape_set (shape img22) 1 2 = Ok sh_out ∧ Shape_get (shape img22) 2 = Ok N ∧
    reduce_sum img22 2 = Ok sum ∧ shape sum = sh_out ∧
    reduce_mean img22 2 = Ok mean ∧ shape mean = sh_out ∧
    ∀ q, in_shape_pos sh_out q →
      at_pos sum q = fold_left add (map (at_pos img22) (along 2 (shape img22) q)) zero ∧
      at_pos mean q = div (at_pos sum q) (of_int N).
Proof.
  split; [reflexivity|]. split; [lia|].
  apply (reduce_sum_mean_along_axis img22 2); [reflexivity|lia].
Defined.

Lemma pooling_extremes_witness :
  tensor_ok img22 ∧ shape_ok (shape img22) ∧
  1 ≤ 2 ∧ 2 ≤ d2 (shape img22) ∧ 2 ≤ d3 (shape img22) ∧
  ∃ hi lo, max_pooling img22 2 = Ok hi ∧ min_pooling img22 2 = Ok lo ∧
    shape hi = pooled_shape (shape img22) 2 ∧
    shape lo = pooled_shape (shape img22) 2 ∧
    ∀ q, in_shape_pos (pooled_shape (shape img22) 2) q →
      is_max (map (at_pos img22) (window 2 q)) (at_pos hi q) ∧
      is_min (map (at_pos img22) (window 2 q)) (at_pos lo q).
Proof.
  split; [reflexivity|]. split; [apply img22_wf|].
  split; [lia|]. split; [simpl; lia|]. split; [simpl; lia|].
  apply (pooling_extremes img22 2); [reflexivity|apply img22_wf|lia|simpl; lia|simpl; lia].
Defined.


Lemma affine_heap_wf : heap_wf affine_heap.
Proof. apply heap_wfb_sound. reflexivity. Qed.

Lemma new_Operation_registers_consumers_witness :
  heap_wf affine_heap ∧ (∀ q, q ∈ [2; 2] → q < length affine_heap) ∧
  ∃ heap', new_Operation affine_heap MatMul [2; 2] = Ok (length affine_heap, heap') ∧
    heap_wf heap' ∧ length heap' = S (length affine_heap) ∧
    heap' !! length affine_heap = Some (mkNode tensor_default [] (COperation MatMul [2; 2])) ∧
    ∀ p n, affine_heap !! p = Some n →
      heap' !! p = Some (registered n (count_occ Nat.eq_dec [2; 2] p) (length affine_heap)).
Proof.
  assert (Hin : ∀ q, q ∈ [2; 2] → q < length affine_heap).
  { intros q Hq. apply list_elem_of_In in Hq. simpl in Hq. simpl. lia. }
  split; [apply affine_heap_wf|]. split; [exact Hin|].
  apply (new_Operation_registers_consumers affine_heap MatMul [2; 2]); [apply affine_heap_wf|exact Hin].
Defined.



Lemma add_weight_never_consumed_witness :
  affine_heap !! 2 = Some (mkNode SDefault [] (COperation Add [0; 1])) ∧
  ∃ heap', add_weight affine_heap 2 "b" (mkShape 1 1 1 1 1) true = Ok (length affine_heap, heap') ∧
    heap' = <[2 := mkNode SDefault [] (COperation Add ([0; 1] ++ [length affine_heap]))]>
              (affine_heap ++ [weight_b]) ∧
    ∀ fuel log, backward (S fuel) (length affine_heap) (heap', log)
      = Ok (None,
            (<[length affine_heap := with_grad weight_b accumulate_init]> heap',
             log ++ [length affine_heap])).
Proof.
  split; [reflexivity|].
  exact (add_weight_never_consumed affine_heap 2 "b" (mkShape 1 1 1 1 1) true
           (mkNode SDefault [] (COperation Add [0; 1])) Add [0; 1] eq_refl eq_refl).
Defined.

Lemma set_then_at_witness :
  tensor_ok img22 ∧ in_shape (shape img22) 0 0 1 0 0 ∧ in_shape (shape img22) 0 0 1 1 0 ∧
  ∃ t', set img22 9%Z 0 0 1 0 0 = Ok t' ∧ shape t' = shape img22 ∧ tensor_ok t' ∧
    at_ t' 0 0 1 1 0
    = Ok (if decide ((0, 0, 1, 0, 0) = (0, 0, 1, 1, 0)) then 9%Z
          else at_pos img22 (0, 0, 1, 1, 0)).
Proof.
  split; [reflexivity|]. split; [unfold in_shape; simpl; lia|]. split; [unfold in_shape; simpl; lia|].
  apply (set_then_at img22 9%Z 0 0 1 0 0 0 0 1 1 0);
    [reflexivity|unfold in_shape; simpl; lia|unfold in_shape; simpl; lia].
Defined.

Lemma tensor_eq_compares_buffers_witness :
  tensor_ok img22_Q ∧ tensor_ok row4_Q ∧ Shape_size (shape img22_Q) ≤ Shape_size (shape row4_Q) ∧
  ∃ r, tensor_eq img22_Q row4_Q = Ok r ∧
    (r = true ↔ ∀ i x y, data img22_Q !! i = Some x → data row4_Q !! i = Some y →
                  (Qabs (x - y) <= 1 # 100000)%Q) ∧
    (Shape_size (shape img22_Q) = Shape_size (shape row4_Q) → tensor_eq row4_Q img22_Q = Ok r) ∧
    (data img22_Q = data row4_Q → r = true).
Proof.
  split; [reflexivity|]. split; [reflexivity|]. split; [vm_compute; lia|].
  apply (tensor_eq_compares_buffers img22_Q row4_Q); [reflexivity|reflexivity|vm_compute; lia].
Defined.

Lemma relu_grad_is_derivative_witness :
  1%R ≠ 0%R ∧ derivable_pt_lim __relu_ 1%R (__relu_grad_ 1%R).
Proof. split; [lra|exact (relu_grad_is_derivative 1%R R1_neq_R0)]. Defined.

